(** * pywingetupgrader: table parser and upgrade classifier

    A shallow embedding of [pywingetupgrader.py]: the fixed-width table
    parser ([extract_applications_from_table]) and the upgrade classifier
    ([get_applications_using_semver], [get_apps_to_upgrade],
    [add_allowed_updates], [remove_blocked_updates]) chained as in [main].

    Modelling choices.
    - A Python [str] is a Rocq [string]; a character is read as the code
      point of its byte, so the model covers text over U+0000..U+00FF, on
      which [str.isspace], [str.isprintable], [str.lower] and the regex
      class [\d] are the tables written below.
    - A Python [dict] is an insertion-ordered association list with unique
      keys; a value is a [str] or an [int].
    - The dicts built by the parser are objects shared between every list
      that holds them, and [add_semver_details] writes into them: the model
      has a heap of dicts and lists of references into it.
    - A Python exception is a value of [exn]; a function that can raise
      returns [exn + _]. Integers are unbounded; [int] refuses a text of
      more than 4300 digits, the limit CPython sets by default.
    - The program around the classifier ([get_bool_env_var],
      [get_winget_exe_path], [get_applications_available_to_upgrade],
      [upgrade_app], [main]) is written over what the operating system
      answers: the environment, the listing of a directory, and a function
      that says what a call of [subprocess] does to the world and whether
      it answers a text or raises. The output of a process is taken as the
      text it decodes to; paths are joined as on Windows; logging is left
      out. *)

From Stdlib Require Import ZArith Ascii String.
From stdpp Require Import base list strings gmap sorting.

Local Open Scope string_scope.
Local Open Scope list_scope.
Local Open Scope Z_scope.

(** ** Python strings *)

Module Str.

Definition chars (s : string) : list ascii := list_ascii_of_string s.
Definition of_chars (l : list ascii) : string := string_of_list_ascii l.

Definition code (c : ascii) : N := N_of_ascii c.

Definition between (lo hi n : N) : bool := ((lo <=? n) && (n <=? hi))%N.

(** [str.isspace] of one character: TAB..CR, FS..US, SPACE, NEL, NBSP. *)
Definition isspace (c : ascii) : bool :=
  let n := code c in
  between 9 13 n || between 28 32 n || (n =? 133)%N || (n =? 160)%N.

(** [str.isprintable] of one character: everything but the control
    characters, NBSP and the soft hyphen. *)
Definition isprintable_char (c : ascii) : bool :=
  let n := code c in
  between 32 126 n || (between 161 255 n && negb (n =? 173)%N).

Definition isprintable (s : list ascii) : bool := forallb isprintable_char s.

(** The regex class [\d]. *)
Definition isdigit (c : ascii) : bool := between 48 57 (code c).

(** [str.lower] of one character: A..Z and the accented capitals. *)
Definition lower_char (c : ascii) : ascii :=
  let n := code c in
  if between 65 90 n || (between 192 222 n && negb (n =? 215)%N)
  then ascii_of_N (n + 32) else c.

Definition lower (s : string) : string := of_chars (map lower_char (chars s)).

Fixpoint is_prefix (p s : list ascii) : bool :=
  match p, s with
  | [], _ => true
  | _ :: _, [] => false
  | a :: p', b :: s' => bool_decide (a = b) && is_prefix p' s'
  end.

(** [s.split(sep)] for a non-empty separator: cut at each occurrence of
    [sep], scanning left to right; [skip] counts the characters of a
    separator still to be passed over, [cur] is the piece being read. *)
Fixpoint split_go (sep : list ascii) (skip : nat) (cur s : list ascii)
  : list (list ascii) :=
  match s with
  | [] => [cur]
  | c :: s' =>
      match skip with
      | S k => split_go sep k cur s'
      | O =>
          if is_prefix sep s
          then cur :: split_go sep (length sep - 1) [] s'
          else split_go sep O (cur ++ [c]) s'
      end
  end.

Definition split_on (sep : string) (s : string) : list string :=
  of_chars <$> split_go (chars sep) O [] (chars s).

(** [s.split()]: cut at runs of whitespace, no empty piece. *)
Fixpoint split_ws_go (cur s : list ascii) : list (list ascii) :=
  match s with
  | [] => match cur with [] => [] | _ => [cur] end
  | c :: s' =>
      if isspace c
      then match cur with
           | [] => split_ws_go [] s'
           | _ => cur :: split_ws_go [] s'
           end
      else split_ws_go (cur ++ [c]) s'
  end.

Definition split_ws (s : list ascii) : list (list ascii) := split_ws_go [] s.

(** [s.find(sub)]: index of the first occurrence, [-1] when there is none. *)
Fixpoint find_go (sub s : list ascii) (i : Z) : Z :=
  if is_prefix sub s then i
  else match s with
       | [] => -1
       | _ :: s' => find_go sub s' (i + 1)
       end.

Definition find (s sub : list ascii) : Z := find_go sub s 0.

(** A slice bound as Python normalises it: a negative bound counts from
    the end, and every bound is clamped to [0, len]. *)
Definition clamp (len i : Z) : Z :=
  if i <? 0 then Z.max 0 (i + len) else Z.min i len.

(** [s[lo:hi]], and [s[lo:]] when [hi] is [None]. *)
Definition slice (s : list ascii) (lo : Z) (hi : option Z) : list ascii :=
  let len := Z.of_nat (length s) in
  let a := clamp len lo in
  let b := match hi with Some h => clamp len h | None => len end in
  take (Z.to_nat (b - a)) (drop (Z.to_nat a) s).

Fixpoint lstrip (s : list ascii) : list ascii :=
  match s with
  | c :: s' => if isspace c then lstrip s' else s
  | [] => []
  end.

(** [s.strip()]. *)
Definition strip (s : list ascii) : list ascii :=
  reverse (lstrip (reverse (lstrip s))).

End Str.

(** ** Exceptions *)

Inductive exn : Type :=
  | IndexError
  | KeyError (key : string)
  | TypeError
  | ValueError
  | AttributeError
  | DanglingReference.
(* [DanglingReference] is not a Python exception: it is what the model
   answers for a reference that names no object of the heap, which Python
   cannot build. *)

Definition result (A : Type) : Type := exn + A.

Definition ok {A} (a : A) : result A := inr a.
Definition raise {A} (e : exn) : result A := inl e.

Definition rbind {A B} (m : result A) (k : A → result B) : result B :=
  match m with
  | inl e => inl e
  | inr a => k a
  end.

(** ** Dicts *)

Inductive value : Type :=
  | VStr (s : string)
  | VInt (n : Z).

Definition dict : Type := list (string * value).

Module Dict.

Fixpoint get (k : string) (d : dict) : option value :=
  match d with
  | [] => None
  | (k', v) :: d' => if bool_decide (k' = k) then Some v else get k d'
  end.

(** [d[k] = v]: a present key keeps its place, a new one goes last. *)
Fixpoint set (k : string) (v : value) (d : dict) : dict :=
  match d with
  | [] => [(k, v)]
  | (k', v') :: d' =>
      if bool_decide (k' = k) then (k', v) :: d' else (k', v') :: set k v d'
  end.

Definition keys (d : dict) : list string := d.*1.

(** [k in d]. *)
Definition mem (k : string) (d : dict) : bool :=
  match get k d with Some _ => true | None => false end.

(** [d[k]]. *)
Definition item (k : string) (d : dict) : result value :=
  match get k d with
  | Some v => ok v
  | None => raise (KeyError k)
  end.

End Dict.

(** ** The table parser *)

(** [[v for v in header_row.split() if v.isprintable()]] *)
Definition header_labels (header_row : string) : list (list ascii) :=
  filter (λ v, Str.isprintable v = true) (Str.split_ws (Str.chars header_row)).

(** [get_headers_and_their_starting_positions], on a list of rows. *)
Definition get_headers_and_their_starting_positions (rows : list string)
  : result (list (string * Z)) :=
  match rows with
  | [] => raise IndexError
  | header_row :: _ =>
      let headers := header_labels header_row in
      match headers with
      | [] => raise IndexError
      | h0 :: _ =>
          let first_header_offset := Str.find (Str.chars header_row) h0 in
          ok ((λ h, (Str.of_chars h,
                     Str.find (Str.chars header_row) h - first_header_offset))
                <$> headers)
      end
  end.

(** The inner loop of [extract_applications_from_table]: the columns still
    to be read are [cols]; the end of a column is the start of the next. *)
Fixpoint fill_record (row : list ascii) (cols : list (string * Z))
    (record : dict) : dict :=
  match cols with
  | [] => record
  | (key, start_pos) :: rest =>
      let end_pos :=
        match rest with
        | (_, e) :: _ => Some e
        | [] => None
        end in
      fill_record row rest
        (Dict.set key
           (VStr (Str.of_chars (Str.strip (Str.slice row start_pos end_pos))))
           record)
  end.

(** The line separator ["\r\n"]. *)
Definition CRLF : string := String "013"%char (String "010"%char "").

(** [rows[:-2]]. *)
Definition drop_last_two {A} (l : list A) : list A := take (length l - 2)%nat l.

(** The dict of one row: the body of the outer loop. *)
Definition row_record (cols : list (string * Z)) (row : string) : dict :=
  fill_record (Str.chars row) cols [].

Definition extract_applications_from_table (output : string)
  : result (list dict) :=
  let rows := drop_last_two (Str.split_on CRLF output) in
  rbind (get_headers_and_their_starting_positions rows)
    (λ headers_and_their_starting_positions,
       ok (row_record headers_and_their_starting_positions <$> drop 2 rows)).

(** ** Semantic versions *)

Module Semver.

Fixpoint skip_digits (s : list ascii) : list ascii :=
  match s with
  | c :: s' => if Str.isdigit c then skip_digits s' else s
  | [] => []
  end.

(** [\d+] (greedy or lazy, the set of matches is the same): one digit at
    least, then what follows the run of digits. *)
Definition digits1 (s : list ascii) : option (list ascii) :=
  match s with
  | c :: s' => if Str.isdigit c then Some (skip_digits s') else None
  | [] => None
  end.

(** [\.] *)
Definition dot (s : list ascii) : option (list ascii) :=
  match s with
  | c :: s' => if bool_decide (c = "."%char) then Some s' else None
  | [] => None
  end.

(** [$]: the end of the string, or a line feed that ends it. *)
Definition at_end (s : list ascii) : bool :=
  match s with
  | [] => true
  | [c] => bool_decide (c = "010"%char)
  | _ => false
  end.

(** [SEMVER_PATTERN.match(s)], for [^\d+?\.\d+?\.\d+$]. *)
Definition matches (s : string) : bool :=
  match digits1 (Str.chars s) with
  | Some r1 =>
      match dot r1 with
      | Some r2 =>
          match digits1 r2 with
          | Some r3 =>
              match dot r3 with
              | Some r4 =>
                  match digits1 r4 with
                  | Some r5 => at_end r5
                  | None => false
                  end
              | None => false
              end
          | None => false
          end
      | None => false
      end
  | None => false
  end.

(** The white space [int] strips: TAB..CR, SPACE, NEL, NBSP. *)
Definition int_space (c : ascii) : bool :=
  let n := Str.code c in
  Str.between 9 13 n || (n =? 32)%N || (n =? 133)%N || (n =? 160)%N.

Fixpoint int_lstrip (s : list ascii) : list ascii :=
  match s with
  | c :: s' => if int_space c then int_lstrip s' else s
  | [] => []
  end.

Definition digit_value (c : ascii) : Z := Z.of_N (Str.code c) - 48.

(** Digits with single underscores between them. *)
Fixpoint int_digits (acc : Z) (after_digit : bool) (s : list ascii)
  : option Z :=
  match s with
  | [] => if after_digit then Some acc else None
  | c :: s' =>
      if Str.isdigit c then int_digits (10 * acc + digit_value c) true s'
      else if bool_decide (c = "_"%char) && after_digit
           then int_digits acc false s'
           else None
  end.

(** The default of [sys.int_max_str_digits]: [int] refuses a text that has
    more decimal digits. *)
Definition int_max_str_digits : Z := 4300.

(** [int(s)] in base ten. *)
Definition int (s : string) : result Z :=
  let body := reverse (int_lstrip (reverse (int_lstrip (Str.chars s)))) in
  let parsed :=
    match body with
    | c :: rest =>
        if bool_decide (c = "-"%char) then Z.opp <$> int_digits 0 false rest
        else if bool_decide (c = "+"%char) then int_digits 0 false rest
        else int_digits 0 false body
    | [] => None
    end in
  match parsed with
  | Some n =>
      if int_max_str_digits
         <? Z.of_nat (length (filter (λ c, Str.isdigit c = true) body))
      then raise ValueError
      else ok n
  | None => raise ValueError
  end.

End Semver.

(** [re.Pattern.match] wants a [str]. *)
Definition SEMVER_PATTERN_match (v : value) : result bool :=
  match v with
  | VStr s => ok (Semver.matches s)
  | VInt _ => raise TypeError
  end.

Notation "'let?' x := m 'in' k" := (rbind m (λ x, k))
  (at level 10, x name, m at level 100, k at level 200).

(** [a, b, c = v.split(".")] *)
Definition split_in_three (v : value) : result (string * string * string) :=
  match v with
  | VStr s =>
      match Str.split_on "." s with
      | [a; b; c] => ok (a, b, c)
      | _ => raise ValueError
      end
  | VInt _ => raise AttributeError
  end.

(** One [if] block of [add_semver_details]: when the field [field] matches
    the pattern, its three numbers are written under [k1], [k2] and [k3];
    each assignment writes into the dict. The two blocks of the function
    differ in these four names only. *)
Definition add_details (field k1 k2 k3 : string) (app : dict) : result dict :=
  let? v := Dict.item field app in
  let? m := SEMVER_PATTERN_match v in
  if m : bool then
    let? v := Dict.item field app in
    let? parts := split_in_three v in
    let '(major, minor, patch) := parts in
    let? n := Semver.int major in
    let app := Dict.set k1 (VInt n) app in
    let? n := Semver.int minor in
    let app := Dict.set k2 (VInt n) app in
    let? n := Semver.int patch in
    ok (Dict.set k3 (VInt n) app)
  else ok app.

(** The body of [add_semver_details], on the dict it is given. *)
Definition annotate (app : dict) : result dict :=
  let? app :=
    add_details "Version" "current_major" "current_minor" "current_patch" app in
  add_details "Available" "available_major" "available_minor" "available_patch"
    app.

(** The condition of the comprehension in [get_applications_using_semver];
    [or] does not look at [Available] when [Version] matches. *)
Definition uses_semver (app : dict) : result bool :=
  let? version := Dict.item "Version" app in
  let? m := SEMVER_PATTERN_match version in
  if m : bool then ok true
  else
    let? available := Dict.item "Available" app in
    SEMVER_PATTERN_match available.

(** ** The heap of dicts *)

Abbreviation ref := nat (only parsing).
Abbreviation heap := (list dict) (only parsing).

Definition M (A : Type) : Type := heap → result (A * heap).

Definition ret {A} (a : A) : M A := λ h, ok (a, h).

Definition bind {A B} (m : M A) (k : A → M B) : M B :=
  λ h, match m h with
       | inl e => inl e
       | inr (a, h') => k a h'
       end.

Notation "'let!' x := m 'in' k" := (bind m (λ x, k))
  (at level 10, x name, m at level 100, k at level 200).

(** Read the dict a reference names, and compute on it. *)
Definition reading {A} (r : ref) (f : dict → result A) : M A :=
  λ h, match h !! r with
       | Some d => match f d with inl e => inl e | inr a => inr (a, h) end
       | None => raise DanglingReference
       end.

(** Replace the contents of the dict a reference names. *)
Definition store (r : ref) (d : dict) : M unit :=
  λ h, ok (tt, <[r := d]> h).

(** [add_semver_details(app)]: the dict is changed in place and the same
    reference is returned. *)
Definition add_semver_details (app : ref) : M ref :=
  let! d := reading app annotate in
  let! _ := store app d in
  ret app.

Fixpoint get_applications_using_semver (applications : list ref)
  : M (list ref) :=
  match applications with
  | [] => ret []
  | app :: rest =>
      let! keep := reading app uses_semver in
      if keep : bool then
        let! x := add_semver_details app in
        let! xs := get_applications_using_semver rest in
        ret (x :: xs)
      else get_applications_using_semver rest
  end.

(** A comprehension [[app for app in apps if cond(app)]] whose condition
    only reads the dicts. *)
Fixpoint select (cond : dict → result bool) (apps : list ref) : M (list ref) :=
  match apps with
  | [] => ret []
  | app :: rest =>
      let! keep := reading app cond in
      let! xs := select cond rest in
      ret (if keep : bool then app :: xs else xs)
  end.

(** ** The upgrade classifier *)

(** [a == b] on values: a [str] and an [int] are never equal. *)
Definition py_eq (a b : value) : bool :=
  match a, b with
  | VStr s, VStr t => bool_decide (s = t)
  | VInt m, VInt n => bool_decide (m = n)
  | _, _ => false
  end.

(** [a < b] on values: numbers by size, strings by code points, and a
    [TypeError] for a [str] against an [int]. *)
Definition py_lt (a b : value) : result bool :=
  match a, b with
  | VStr s, VStr t => ok (String.ltb s t)
  | VInt m, VInt n => ok (m <? n)
  | _, _ => raise TypeError
  end.

(** [app[j] == app[k]] and [app[j] < app[k]]. *)
Definition items_eq (j k : string) (app : dict) : result bool :=
  let? a := Dict.item j app in
  let? b := Dict.item k app in
  ok (py_eq a b).

Definition items_lt (j k : string) (app : dict) : result bool :=
  let? a := Dict.item j app in
  let? b := Dict.item k app in
  py_lt a b.

(** [a and b], where [b] is evaluated only when [a] is true. *)
Definition and_then (a : result bool) (b : result bool) : result bool :=
  let? x := a in if x : bool then b else ok false.

Infix "&&&" := and_then (at level 40, left associativity).

Definition has_both_majors (app : dict) : result bool :=
  ok (Dict.mem "current_major" app) &&& ok (Dict.mem "available_major" app).

(** The conditions of the four comprehensions of [get_apps_to_upgrade]. *)
Definition has_patch_upgrade (app : dict) : result bool :=
  has_both_majors app
  &&& items_eq "current_major" "available_major" app
  &&& items_eq "current_minor" "available_minor" app
  &&& items_lt "current_patch" "available_patch" app.

Definition has_minor_upgrade (app : dict) : result bool :=
  has_both_majors app
  &&& items_eq "current_major" "available_major" app
  &&& items_lt "current_minor" "available_minor" app.

Definition has_major_upgrade (app : dict) : result bool :=
  has_both_majors app
  &&& items_lt "current_major" "available_major" app.

Definition has_unknown_version (app : dict) : result bool :=
  let? v := Dict.item "Version" app in
  match v with
  | VStr s => ok (bool_decide (Str.lower s = "unknown"))
  | VInt _ => raise AttributeError
  end.

Definition get_apps_to_upgrade (applications : list ref)
    (upgrade_level : string) (upgrade_unknowns : bool) : M (list ref) :=
  let! applications_using_semver :=
    get_applications_using_semver applications in
  if bool_decide (Str.lower upgrade_level = "all") then ret applications
  else
    let! apps_with_patch_upgrades :=
      select has_patch_upgrade applications_using_semver in
    let! apps_with_minor_upgrades :=
      select has_minor_upgrade applications_using_semver in
    let! apps_with_major_upgrades :=
      select has_major_upgrade applications_using_semver in
    let! apps_with_unknown_current_version :=
      select has_unknown_version applications_using_semver in
    let apps_to_upgrade :=
      if bool_decide (upgrade_level = "patch") then apps_with_patch_upgrades
      else if bool_decide (upgrade_level = "minor") then
        apps_with_minor_upgrades ++ apps_with_patch_upgrades
      else if bool_decide (upgrade_level = "major") then
        apps_with_major_upgrades ++ apps_with_minor_upgrades
          ++ apps_with_patch_upgrades
      else [] in
    ret (if upgrade_unknowns
         then apps_to_upgrade ++ apps_with_unknown_current_version
         else apps_to_upgrade).

Definition get_allowed_updates : gset string := {[ "Python.Python.3" ]}.

Definition get_blocked_updates : gset string :=
  {[ "EvanCzaplicki.Elm"; "VMware.WorkstationPro"; "CoreyButler.NVMforWindows" ]}.

(** [app["Id"] in ids], for a set of strings: an [int] is in none. *)
Definition id_in (ids : gset string) (app : dict) : result bool :=
  let? v := Dict.item "Id" app in
  match v with
  | VStr s => ok (bool_decide (s ∈ ids))
  | VInt _ => ok false
  end.

Definition id_not_in (ids : gset string) (app : dict) : result bool :=
  let? b := id_in ids app in ok (negb b).

(** The allow-list and the block-list are constants of the source; the
    pipeline is written over any two sets and closed with those constants
    in [main_pipeline]. *)
Section Policy.

Variables allowed_applications blocked_applications : gset string.

Definition add_allowed_updates (apps_to_upgrade applications : list ref)
  : M (list ref) :=
  let! allowed_applications_with_upgrades_available :=
    select (id_in allowed_applications) applications in
  ret (apps_to_upgrade ++ allowed_applications_with_upgrades_available).

Definition remove_blocked_updates (apps_to_upgrade : list ref)
  : M (list ref) :=
  select (id_not_in blocked_applications) apps_to_upgrade.

(** The first two steps of [main] after parsing: the semantic-version
    filter, then the level selection on what it kept. *)
Definition level_selection (applications : list ref)
    (upgrade_level : string) (upgrade_unknowns : bool) : M (list ref) :=
  let! applications_using_semver :=
    get_applications_using_semver applications in
  get_apps_to_upgrade applications_using_semver upgrade_level
    upgrade_unknowns.

(** [main] from the parsed records to the list handed to [upgrade_app]. *)
Definition classify (applications : list ref)
    (upgrade_level : string) (upgrade_unknowns : bool) : M (list ref) :=
  let! apps_to_upgrade :=
    level_selection applications upgrade_level upgrade_unknowns in
  let! apps_to_upgrade := add_allowed_updates apps_to_upgrade applications in
  remove_blocked_updates apps_to_upgrade.

(** [main] from the text of [winget upgrade]: the parser builds one dict
    per row, the level read from the environment is lowered, and the
    result is the list of references with the heap they point into. *)
Definition pipeline (output : string) (upgrade_level : string)
    (upgrade_unknowns : bool) : result (list ref * heap) :=
  let? applications := extract_applications_from_table output in
  classify (seq 0 (length applications)) (Str.lower upgrade_level)
    upgrade_unknowns applications.

End Policy.

Definition main_pipeline : string → string → bool → result (list ref * heap) :=
  pipeline get_allowed_updates get_blocked_updates.

(** The dicts of a result, read from the heap. *)
Definition contents (h : heap) (refs : list ref) : list dict :=
  omap (λ r, h !! r) refs.

(** ** The program around the classifier *)

(** What [main] can meet besides the exceptions of the parser and of the
    classifier: the exceptions of [os] and [subprocess] that the source
    names, the [UnboundLocalError] of a local read before it is assigned,
    and one value for every other subclass of [Exception]. *)
Inductive failure : Type :=
  | Raised (e : exn)
  | PermissionError
  | FileNotFoundError (message : string)
  | CalledProcessError
  | TimeoutExpired
  | UnboundLocalError (name : string)
  | OtherException.

(** [str(default)] for a [bool]. *)
Definition str_of_bool (b : bool) : string := if b then "True" else "False".

(** [os.environ.get(key, str(default)).lower() == "true"] *)
Definition get_bool_env_var (environ : gmap string string) (key : string)
    (default_ : bool) : bool :=
  bool_decide
    (Str.lower (default (str_of_bool default_) (environ !! key)) = "true").

(** [s.startswith(t)] and [s.endswith(t)]. *)
Definition startswith (s t : string) : bool :=
  Str.is_prefix (Str.chars t) (Str.chars s).

Definition endswith (s t : string) : bool :=
  Str.is_prefix (reverse (Str.chars t)) (reverse (Str.chars s)).

(** The backslash, and the directory of the packaged applications. *)
Definition backslash : string := String "092"%char "".

Definition winapps_dir_path : string :=
  ("C:" ++ backslash ++ "Program Files" ++ backslash ++ "WindowsApps")%string.

(** [os.path.join(a, b, c)] of Windows, for parts none of which ends with
    a separator and a [b] and a [c] that start with neither a separator
    nor a drive, as are the parts [get_winget_exe_path] joins: the three
    parts with a backslash between them. *)
Definition path_join (a b c : string) : string :=
  (a ++ backslash ++ b ++ backslash ++ c)%string.

(** The condition of the comprehension in [get_winget_exe_path]. *)
Definition is_installer_dir (dir_ : string) : bool :=
  startswith dir_ "Microsoft.DesktopAppInstaller"
  && endswith dir_ "x64__8wekyb3d8bbwe".

(** [get_winget_exe_path], given what [os.listdir] answers: the body of the
    [try], then the two handlers. *)
Definition get_winget_exe_path (listdir : string → failure + list string)
  : failure + string :=
  let body : failure + string :=
    match listdir winapps_dir_path with
    | inl e => inl e
    | inr names =>
        match filter (λ dir_, is_installer_dir dir_ = true) names with
        | dir_path :: _ => inr (path_join winapps_dir_path dir_path "winget.exe")
        | [] => inl (Raised IndexError)
        end
    end in
  match body with
  | inl PermissionError => inl PermissionError
  | inl (Raised IndexError) =>
      inl (FileNotFoundError "Unable to locate winget executable")
  | r => r
  end.

(** One call of [subprocess]: the argument list and the time-out. *)
Record call : Type := Call { argv : list string; timeout : option Z }.

(** The two calls of [get_applications_available_to_upgrade] and the call
    of [upgrade_app]. *)
Definition list_call (winget_exe_path : string) : call :=
  Call [winget_exe_path; "list"; "--accept-source-agreements"; "-n"; "1"]
    (Some 15).

Definition upgrade_listing_call (winget_exe_path : string) : call :=
  Call [winget_exe_path; "upgrade"] None.

Definition upgrade_call (winget_exe_path __id : string) : call :=
  Call [winget_exe_path; "upgrade"; "--silent"; "--id"; __id;
        "--accept-package-agreements"; "--accept-source-agreements"]
    (Some 250).

(** The three exceptions that [get_applications_available_to_upgrade] and
    [upgrade_app] catch and log. *)
Definition logged (e : failure) : bool :=
  match e with
  | FileNotFoundError _ | CalledProcessError | TimeoutExpired => true
  | _ => false
  end.

(** The program runs in a world [W] it changes by the processes it starts:
    [spawn] is what a call does to the world and what it answers, the text
    of its output or an exception; the environment and the listing of the
    directory are read once. A computation threads the world and the list
    of the calls made so far, and keeps both when it raises. Logging is
    not modelled. *)
Section Program.

Variable W : Type.
Variable environ : gmap string string.
Variable listdir : string → failure + list string.
Variable spawn : call → W → (failure + string) * W.

Definition IO (A : Type) : Type :=
  W * list call → (failure + A) * (W * list call).

Definition io_ret {A} (a : A) : IO A := λ s, (inr a, s).

Definition io_raise {A} (e : failure) : IO A := λ s, (inl e, s).

Definition io_bind {A B} (m : IO A) (k : A → IO B) : IO B :=
  λ s, match m s with
       | (inl e, s') => (inl e, s')
       | (inr a, s') => k a s'
       end.

Notation "'let*' x := m 'in' k" := (io_bind m (λ x, k))
  (at level 10, x name, m at level 100, k at level 200).

(** A step of the parser or of the classifier inside the program. *)
Definition lift {A} (r : result A) : IO A :=
  match r with
  | inl e => io_raise (Raised e)
  | inr a => io_ret a
  end.

(** [try: body] with one handler for the exceptions [catches] accepts. *)
Definition try_except {A} (body : IO A) (catches : failure → bool)
    (handler : IO A) : IO A :=
  λ s, match body s with
       | (inl e, s') => if catches e then handler s' else (inl e, s')
       | r => r
       end.

(** [subprocess.check_output] with its output decoded, and
    [subprocess.run] whose answer is dropped. *)
Definition subprocess (c : call) : IO string :=
  λ s, let '(r, w') := spawn c s.1 in (r, (w', s.2 ++ [c])).

(** The text of [winget upgrade], or [None] after a logged exception. *)
Definition get_applications_available_to_upgrade (winget_exe_path : string)
  : IO (option string) :=
  try_except
    (let* _ := subprocess (list_call winget_exe_path) in
     let* output := subprocess (upgrade_listing_call winget_exe_path) in
     io_ret (Some output))
    logged
    (io_ret None).

Definition upgrade_app (app : dict) (winget_exe_path : string) : IO unit :=
  let* __id := lift (Dict.item "Id" app) in
  let* _ := lift (Dict.item "Id" app) in
  let* _ := lift (Dict.item "Version" app) in
  let* _ := lift (Dict.item "Available" app) in
  try_except
    (match __id with
     | VStr s =>
         let* _ := subprocess (upgrade_call winget_exe_path s) in io_ret tt
     | VInt _ => io_raise (Raised TypeError)
     end)
    logged
    (io_ret tt).

(** [for app in apps_to_upgrade: upgrade_app(app, winget_exe_path)] *)
Fixpoint upgrade_apps (h : heap) (apps_to_upgrade : list ref)
    (winget_exe_path : string) : IO unit :=
  match apps_to_upgrade with
  | [] => io_ret tt
  | app :: rest =>
      let* _ :=
        match h !! app with
        | Some d => upgrade_app d winget_exe_path
        | None => io_raise (Raised DanglingReference)
        end in
      upgrade_apps h rest winget_exe_path
  end.

(** The body of the [try] of [main] from the line after the assignment of
    [winget_exe_path]; [None.split] is an [AttributeError]; [pipeline]
    lowers the level as [main] does. *)
Definition main_after_path (winget_exe_path : string) : IO unit :=
  let WINGET_DEBUG := get_bool_env_var environ "WINGET_DEBUG" false in
  let upgrade_level := default "patch" (environ !! "WINGET_UPGRADE_LEVEL") in
  let upgrade_unknowns :=
    get_bool_env_var environ "WINGET_UPGRADE_UNKNOWN_VERSIONS" false in
  let* upgradable_applications_table :=
    get_applications_available_to_upgrade winget_exe_path in
  let* classified :=
    lift (match upgradable_applications_table with
          | Some output => main_pipeline output upgrade_level upgrade_unknowns
          | None => raise AttributeError
          end) in
  if WINGET_DEBUG then io_ret tt
  else upgrade_apps classified.2 classified.1 winget_exe_path.

(** The three handlers of [main]; the last two read the local
    [winget_exe_path], which has a value only when the assignment was
    reached. *)
Definition main_except (winget_exe_path : option string) (e : failure)
  : IO unit :=
  let read_local : IO unit :=
    match winget_exe_path with
    | Some _ => io_ret tt
    | None => io_raise (UnboundLocalError "winget_exe_path")
    end in
  match e with
  | PermissionError => io_ret tt
  | FileNotFoundError _ => read_local
  | _ => read_local
  end.

Definition main : IO unit :=
  λ s, match get_winget_exe_path listdir with
       | inl e => main_except None e s
       | inr winget_exe_path =>
           match main_after_path winget_exe_path s with
           | (inl e, s') => main_except (Some winget_exe_path) e s'
           | r => r
           end
       end.

End Program.

(** * Notions used in the statements *)

(** What a condition answers on the dict of a reference, as a boolean that
    is false when the reference dangles or the condition raises. *)
Definition test (cond : dict → result bool) (h : heap) (r : ref) : bool :=
  match h !! r with
  | Some d => match cond d with inr b => b | inl _ => false end
  | None => false
  end.

(** The three numbers [add_semver_details] reads from a matching field. *)
Definition version_numbers (s : string) : result (Z * Z * Z) :=
  let? parts := split_in_three (VStr s) in
  let '(major, minor, patch) := parts in
  let? a := Semver.int major in
  let? b := Semver.int minor in
  let? c := Semver.int patch in
  ok (a, b, c).

Definition write3 (k1 k2 k3 : string) (n : Z * Z * Z) (d : dict) : dict :=
  let '(a, b, c) := n in
  Dict.set k3 (VInt c) (Dict.set k2 (VInt b) (Dict.set k1 (VInt a) d)).

Definition current_keys : list string :=
  ["current_major"; "current_minor"; "current_patch"].
Definition available_keys : list string :=
  ["available_major"; "available_minor"; "available_patch"].
Definition semver_keys : list string := current_keys ++ available_keys.

(** Does the dict of a reference pass the filter? *)
Definition qualifies (h : heap) (r : ref) : bool := test uses_semver h r.

(** [annotated apps h h']: [h'] is [h] where the dict of every reference of
    [apps] that passes the filter has been annotated, in place; every other
    dict is as it was. *)
Definition annotated (apps : list ref) (h h' : heap) : Prop :=
  length h' = length h ∧
  ∀ i d, h !! i = Some d →
    if bool_decide (i ∈ apps) && qualifies h i
    then ∃ d', annotate d = inr d' ∧ h' !! i = Some d'
    else h' !! i = Some d.

(** What [get_apps_to_upgrade] builds below level [all], from the references
    [sem] the semantic-version filter kept and the heap it left. *)
Definition chosen (h : heap) (sem : list ref) (upgrade_level : string)
    (upgrade_unknowns : bool) : list ref :=
  let patch := filter (λ r, test has_patch_upgrade h r = true) sem in
  let minor := filter (λ r, test has_minor_upgrade h r = true) sem in
  let major := filter (λ r, test has_major_upgrade h r = true) sem in
  let unknown := filter (λ r, test has_unknown_version h r = true) sem in
  let by_level :=
    if bool_decide (upgrade_level = "patch") then patch
    else if bool_decide (upgrade_level = "minor") then minor ++ patch
    else if bool_decide (upgrade_level = "major") then major ++ minor ++ patch
    else [] in
  if upgrade_unknowns then by_level ++ unknown else by_level.

(** The references [main] hands to the allow-list step. *)
Definition selection (h h' : heap) (apps : list ref) (level : string)
    (unk : bool) : list ref :=
  let sem := filter (λ r, qualifies h r = true) apps in
  if bool_decide (Str.lower level = "all") then sem
  else chosen h' sem level unk.

(** A record as the parser builds it for the header of [winget upgrade]. *)
Definition record (name id version available : string) : dict :=
  [("Name", VStr name); ("Id", VStr id); ("Version", VStr version);
   ("Available", VStr available); ("Source", VStr "winget")].

(** The shape of the parser's dicts: every value is a [str]. *)
Definition all_str (d : dict) : bool :=
  forallb (λ kv, match kv.2 with VStr _ => true | VInt _ => false end) d.

Definition parsed_shape (h : heap) : bool := forallb all_str h.

(** The text of a table: every line is followed by the separator, so the
    text ends with an empty line. *)
Definition table (lines : list string) : string :=
  foldr (λ line rest, (line ++ CRLF ++ rest)%string) "" lines.

(** A listing of four applications: the header line, the separator line,
    the data lines and the summary line. *)
Definition sample_header : string :=
  "Name    Id                 Version  Available  Source".

Definition sample_separator : string :=
  "-----------------------------------------------------".

Definition sample_rows : list string :=
  [ "Foo     Foo.Foo            1.0.0    1.0.1      winget";
    "Bar     Bar.Bar            2021a    2022b      winget";
    "Python  Python.Python.3    3.9      3.10       winget";
    "Elm     EvanCzaplicki.Elm  0.19.0   0.19.1     winget" ].

Definition sample_output : string :=
  table (sample_header :: sample_separator :: sample_rows
           ++ ["4 upgrades available."]).

(** A patch upgrade next to a record without semantic versions. *)
Definition two_records : heap :=
  [record "Foo" "Foo.Foo" "1.0.0" "1.0.1";
   record "Bar" "Bar.Bar" "2021a" "2022b"].

(** The keys of a dict filled from a list of labels: each label once, at
    the place of its first occurrence. *)
Definition add_key (acc : list string) (k : string) : list string :=
  if decide (k ∈ acc) then acc else acc ++ [k].

Definition first_occurrences (labels : list string) : list string :=
  foldl add_key [] labels.

(** What [add_semver_details] leaves under the three derived keys of a
    field: the three numbers of the field when it matches the pattern, and
    what was there when it does not. *)
Definition carries (field : string) (keys : list string) (d d' : dict)
  : Prop :=
  ∀ s, Dict.get field d = Some (VStr s) →
    if Semver.matches s
    then ∃ a b c,
           version_numbers s = inr (a, b, c)
           ∧ (λ k, Dict.get k d') <$> keys
             = [Some (VInt a); Some (VInt b); Some (VInt c)]
    else (λ k, Dict.get k d') <$> keys = (λ k, Dict.get k d) <$> keys.

(** The derived keys [add_semver_details] assigns in a dict, in the order
    of the assignments. *)
Definition written_keys (d : dict) : list string :=
  match Dict.get "Version" d with
  | Some (VStr s) => if Semver.matches s then current_keys else []
  | _ => []
  end
  ++ match Dict.get "Available" d with
     | Some (VStr s) => if Semver.matches s then available_keys else []
     | _ => []
     end.

(** The decimal digits of a text, and a text one of whose parts between
    the dots has more digits than [int] takes. *)
Definition digits (s : list ascii) : list ascii :=
  filter (λ c, Str.isdigit c = true) s.

Definition long_number (s : string) : bool :=
  existsb (λ part,
             Semver.int_max_str_digits
             <? Z.of_nat (length (digits (Str.chars part))))
    (Str.split_on "." s).

(** A version whose minor number has 4301 digits. *)
Definition long_version : string :=
  Str.of_chars
    (Str.chars "1." ++ replicate 4301 "1"%char ++ Str.chars ".0").

(** A dict none of whose texts is longer than the number of digits [int]
    takes. *)
Definition short_fields (d : dict) : bool :=
  forallb (λ kv, match kv.2 with
                 | VStr s =>
                     Z.of_nat (length (Str.chars s))
                     <=? Semver.int_max_str_digits
                 | VInt _ => true
                 end) d.

(** A record as the parser builds it under a header that has the columns
    [Id], [Version] and [Available] and no column named like a derived
    field, from a row of 4300 characters at most. *)
Definition well_formed (d : dict) : Prop :=
  all_str d = true
  ∧ is_Some (Dict.get "Id" d)
  ∧ is_Some (Dict.get "Version" d)
  ∧ is_Some (Dict.get "Available" d)
  ∧ (∀ k, k ∈ semver_keys → Dict.get k d = None)
  ∧ short_fields d = true.

(** Such a record, annotated or not. *)
Definition settled (d : dict) : Prop :=
  ∃ d0, well_formed d0 ∧ (d = d0 ∨ annotate d0 = inr d).

(** The references of a result of the pipeline, without the heap. *)
Definition references (r : result (list ref * heap)) : result (list ref) :=
  let? x := r in ok x.1.

(** The heap a result of the pipeline points into, and the dicts of the
    result read from it. *)
Definition final_heap (r : result (list ref * heap)) : result heap :=
  let? x := r in ok x.2.

Definition result_contents (r : result (list ref * heap))
  : result (list dict) :=
  let? x := r in ok (contents x.2 x.1).

(** The records of the sample listing, and what [add_semver_details] makes
    of a record with the numbers of its two versions. *)
Definition sample_records : list dict :=
  [ record "Foo" "Foo.Foo" "1.0.0" "1.0.1";
    record "Bar" "Bar.Bar" "2021a" "2022b";
    record "Python" "Python.Python.3" "3.9" "3.10";
    record "Elm" "EvanCzaplicki.Elm" "0.19.0" "0.19.1" ].

Definition with_numbers (d : dict) (current available : Z * Z * Z) : dict :=
  d ++ [ ("current_major", VInt current.1.1);
         ("current_minor", VInt current.1.2);
         ("current_patch", VInt current.2);
         ("available_major", VInt available.1.1);
         ("available_minor", VInt available.1.2);
         ("available_patch", VInt available.2) ].

(** A world for the examples: nothing changes in it, the listing command
    answers the sample listing and every upgrade runs out of time. *)
Definition sample_listdir (path : string) : failure + list string :=
  inr ["Microsoft.DesktopAppInstaller_1.0_neutral__8wekyb3d8bbwe";
       "Microsoft.DesktopAppInstaller_1.21.3482.0_x64__8wekyb3d8bbwe";
       "Microsoft.WindowsStore_22310_x64__8wekyb3d8bbwe"].

Definition sample_winget_exe_path : string :=
  path_join winapps_dir_path
    "Microsoft.DesktopAppInstaller_1.21.3482.0_x64__8wekyb3d8bbwe"
    "winget.exe".

Definition sample_spawn (c : call) (w : unit) : (failure + string) * unit :=
  (if bool_decide (timeout c = Some 250) then inl TimeoutExpired
   else inr sample_output, w).

(** The sixteen spellings of [true]. *)
Definition spellings_of_true : list string :=
  c1 ← ["t"; "T"]; c2 ← ["r"; "R"]; c3 ← ["u"; "U"]; c4 ← ["e"; "E"];
  [(c1 ++ c2 ++ c3 ++ c4)%string].

(** An answer of a process after which [upgrade_app] returns: the process
    ran, or one of the three logged exceptions was raised. *)
Definition passes (r : failure + string) : bool :=
  match r with
  | inl e => logged e
  | inr _ => true
  end.

(** The identifiers of the records of a list, read from the heap. *)
Definition identifiers (h : heap) (refs : list ref) (ids : list string)
  : Prop :=
  Forall2 (λ r id, ∃ d, h !! r = Some d ∧ Dict.get "Id" d = Some (VStr id))
    refs ids.

(** * Properties *)

(** ** Dicts *)

Module DictFacts.

Lemma get_set_eq k v d : Dict.get k (Dict.set k v d) = Some v.
Proof.
  induction d as [|[k' v'] d IH]; simpl.
  - by rewrite bool_decide_eq_true_2.
  - case_bool_decide; simpl.
    + by rewrite bool_decide_eq_true_2.
    + by rewrite bool_decide_eq_false_2.
Qed.

Lemma get_set_ne k k' v d :
  k ≠ k' → Dict.get k' (Dict.set k v d) = Dict.get k' d.
Proof.
  intros Hne. induction d as [|[k0 v0] d IH]; simpl.
  - by rewrite bool_decide_eq_false_2.
  - case_bool_decide as Hk; simpl.
    + subst k0. by rewrite !bool_decide_eq_false_2.
    + by rewrite IH.
Qed.

Lemma set_same k v d : Dict.get k d = Some v → Dict.set k v d = d.
Proof.
  induction d as [|[k0 v0] d IH]; simpl; [done|].
  case_bool_decide; [by intros [= ->] | by intros ->%IH].
Qed.

Lemma get_Some_keys k v d : Dict.get k d = Some v → k ∈ Dict.keys d.
Proof.
  induction d as [|[k0 v0] d IH]; simpl; [done|].
  case_bool_decide as Hk.
  - subst. intros _. apply list_elem_of_here.
  - intros ?%IH. by apply list_elem_of_further.
Qed.

Lemma get_None_keys k d : Dict.get k d = None → k ∉ Dict.keys d.
Proof.
  induction d as [|[k0 v0] d IH]; simpl.
  - intros _. apply not_elem_of_nil.
  - case_bool_decide as Hk; [done|]. intros ?%IH.
    rewrite not_elem_of_cons. split; [congruence | done].
Qed.

(** A written key that is present keeps its place; a new one goes last. *)
Lemma keys_set k v d :
  Dict.keys (Dict.set k v d)
  = if decide (k ∈ Dict.keys d) then Dict.keys d else Dict.keys d ++ [k].
Proof.
  induction d as [|[k0 v0] d IH]; [done|]. cbn [Dict.set Dict.keys fmap list_fmap fst].
  case_bool_decide as Hk.
  - subst. rewrite decide_True; [done | apply list_elem_of_here].
  - cbn [fmap list_fmap fst].
    + unfold Dict.keys in IH. rewrite IH. destruct (decide (k ∈ d.*1)) as [Hin|Hin].
      * rewrite decide_True; [done | by apply list_elem_of_further].
      * rewrite decide_False; [done|].
        rewrite not_elem_of_cons. split; [congruence | done].
Qed.

Lemma keys_set_prefix k v d : Dict.keys d `prefix_of` Dict.keys (Dict.set k v d).
Proof.
  rewrite keys_set. case_decide; [done | by apply prefix_app_r].
Qed.

Lemma item_inr k d v : Dict.item k d = inr v ↔ Dict.get k d = Some v.
Proof.
  unfold Dict.item, ok, raise. destruct (Dict.get k d); split; congruence.
Qed.

Lemma mem_true k d : Dict.mem k d = true ↔ is_Some (Dict.get k d).
Proof.
  unfold Dict.mem. destruct (Dict.get k d); split; done || by intros [? ?].
Qed.

End DictFacts.

(** ** The heap monad *)

Lemma rbind_inr {A B} (m : result A) (k : A → result B) b :
  rbind m k = inr b ↔ ∃ a, m = inr a ∧ k a = inr b.
Proof.
  destruct m as [e|a]; simpl; split.
  - done.
  - by intros (? & ? & ?).
  - eauto.
  - by intros (? & [= ->] & ?).
Qed.

Lemma bind_inr {A B} (m : M A) (k : A → M B) h b h2 :
  bind m k h = inr (b, h2) ↔ ∃ a h1, m h = inr (a, h1) ∧ k a h1 = inr (b, h2).
Proof.
  unfold bind. destruct (m h) as [e|[a h1]]; split.
  - done.
  - by intros (? & ? & ? & ?).
  - eauto.
  - by intros (? & ? & [= -> ->] & ?).
Qed.

Lemma ret_inr {A} (a b : A) h h' : ret a h = inr (b, h') ↔ b = a ∧ h' = h.
Proof. unfold ret, ok. split; [by intros [= -> ->] | by intros [-> ->]]. Qed.

Lemma reading_inr {A} r (f : dict → result A) h a h' :
  reading r f h = inr (a, h') ↔ h' = h ∧ ∃ d, h !! r = Some d ∧ f d = inr a.
Proof.
  unfold reading. destruct (h !! r) as [d|]; simpl.
  - destruct (f d) as [e|a'] eqn:Hf; split.
    + done.
    + intros (_ & ? & [= <-] & ?). congruence.
    + intros [= -> ->]. eauto.
    + intros (-> & ? & [= <-] & ?). congruence.
  - split; [done | by intros (_ & ? & ? & _)].
Qed.

Lemma test_true cond h r :
  test cond h r = true ↔ ∃ d, h !! r = Some d ∧ cond d = inr true.
Proof.
  unfold test. destruct (h !! r) as [d|]; [|split; [done | by intros (? & ? & _)]].
  destruct (cond d) as [e|b] eqn:Hc; split.
  - done.
  - intros (? & [= <-] & ?). congruence.
  - intros ->. eauto.
  - intros (? & [= <-] & ?). congruence.
Qed.

(** A comprehension that returns leaves the heap as it was and returns the
    references whose dict passes the condition, in order. *)
Lemma select_inr cond apps h res h' :
  select cond apps h = inr (res, h') →
  h' = h ∧ res = filter (λ r, test cond h r = true) apps.
Proof.
  revert res h'. induction apps as [|a apps IH]; intros res h'; simpl.
  - by intros [-> ->]%ret_inr.
  - intros (keep & h1 & (-> & d & Hd & Hc)%reading_inr
            & (xs & h2 & [-> ->]%IH & [-> ->]%ret_inr)%bind_inr)%bind_inr.
    split; [done|].
    assert (test cond h a = keep) as Ht by (unfold test; by rewrite Hd, Hc).
    destruct keep.
    + by rewrite filter_cons_True.
    + rewrite filter_cons_False; [done | by rewrite Ht].
Qed.

(** ** Annotation of one dict *)

(** [add_details] read as one case analysis on the field. *)
Lemma add_details_eq field k1 k2 k3 d :
  add_details field k1 k2 k3 d
  = match Dict.get field d with
    | Some (VStr s) =>
        if Semver.matches s
        then let? n := version_numbers s in ok (write3 k1 k2 k3 n d)
        else ok d
    | Some (VInt _) => raise TypeError
    | None => raise (KeyError field)
    end.
Proof.
  unfold add_details, version_numbers, Dict.item.
  destruct (Dict.get field d) as [[s|z]|]; simpl; try done.
  destruct (Semver.matches s); simpl; [|done].
  destruct (Str.split_on "." s) as [|x [|y [|z [|? ?]]]]; simpl; try done.
  destruct (Semver.int x) as [|a]; simpl; [done|].
  destruct (Semver.int y) as [|b]; simpl; [done|].
  by destruct (Semver.int z) as [|c].
Qed.

Lemma add_details_inr field k1 k2 k3 d d' :
  add_details field k1 k2 k3 d = inr d' ↔
  ∃ s, Dict.get field d = Some (VStr s) ∧
       if Semver.matches s
       then ∃ n, version_numbers s = inr n ∧ d' = write3 k1 k2 k3 n d
       else d' = d.
Proof.
  rewrite add_details_eq. split.
  - destruct (Dict.get field d) as [[s|z]|]; try done.
    intros Hs. exists s. split; [done|].
    destruct (Semver.matches s).
    + apply rbind_inr in Hs as (n & Hn & [= <-]). eauto.
    + by injection Hs.
  - intros (s & -> & Hs). destruct (Semver.matches s).
    + destruct Hs as (n & -> & ->). done.
    + by subst.
Qed.

Lemma write3_get_other k1 k2 k3 n d k :
  k ∉ [k1; k2; k3] → Dict.get k (write3 k1 k2 k3 n d) = Dict.get k d.
Proof.
  intros Hk. destruct n as [[a b] c]. unfold write3.
  rewrite !not_elem_of_cons in Hk. destruct Hk as (? & ? & ? & _).
  by rewrite !DictFacts.get_set_ne.
Qed.

Lemma write3_keys_prefix k1 k2 k3 n d :
  Dict.keys d `prefix_of` Dict.keys (write3 k1 k2 k3 n d).
Proof.
  destruct n as [[a b] c]. unfold write3.
  etrans; [apply DictFacts.keys_set_prefix|].
  etrans; apply DictFacts.keys_set_prefix.
Qed.

Lemma add_details_get_other field k1 k2 k3 d d' k :
  add_details field k1 k2 k3 d = inr d' →
  k ∉ [k1; k2; k3] → Dict.get k d' = Dict.get k d.
Proof.
  intros (s & _ & Hs)%add_details_inr Hk.
  destruct (Semver.matches s); [|by subst].
  destruct Hs as (n & _ & ->). by apply write3_get_other.
Qed.

Lemma add_details_keys_prefix field k1 k2 k3 d d' :
  add_details field k1 k2 k3 d = inr d' → Dict.keys d `prefix_of` Dict.keys d'.
Proof.
  intros (s & _ & Hs)%add_details_inr.
  destruct (Semver.matches s); [|by subst].
  destruct Hs as (n & _ & ->). apply write3_keys_prefix.
Qed.

(** Writing the numbers a dict already holds changes nothing. *)
Lemma write3_same k1 k2 k3 a b c d :
  Dict.get k1 d = Some (VInt a) → Dict.get k2 d = Some (VInt b) →
  Dict.get k3 d = Some (VInt c) → write3 k1 k2 k3 (a, b, c) d = d.
Proof.
  intros H1 H2 H3. unfold write3.
  rewrite (DictFacts.set_same k1) by done.
  rewrite (DictFacts.set_same k2) by done.
  by rewrite (DictFacts.set_same k3).
Qed.

Lemma write3_get k1 k2 k3 a b c d :
  k1 ≠ k2 → k1 ≠ k3 → k2 ≠ k3 →
  Dict.get k1 (write3 k1 k2 k3 (a, b, c) d) = Some (VInt a)
  ∧ Dict.get k2 (write3 k1 k2 k3 (a, b, c) d) = Some (VInt b)
  ∧ Dict.get k3 (write3 k1 k2 k3 (a, b, c) d) = Some (VInt c).
Proof.
  intros. unfold write3. repeat split.
  - rewrite !DictFacts.get_set_ne by done. apply DictFacts.get_set_eq.
  - rewrite DictFacts.get_set_ne by done. apply DictFacts.get_set_eq.
  - apply DictFacts.get_set_eq.
Qed.

Lemma annotate_inr d d' :
  annotate d = inr d' ↔
  ∃ d1,
    add_details "Version" "current_major" "current_minor" "current_patch" d
    = inr d1
    ∧ add_details "Available" "available_major" "available_minor"
        "available_patch" d1 = inr d'.
Proof. apply rbind_inr. Qed.

(** Annotation writes the six derived fields and nothing else. *)
Lemma annotate_get_other d d' k :
  annotate d = inr d' → k ∉ semver_keys → Dict.get k d' = Dict.get k d.
Proof.
  intros (d1 & H1 & H2)%annotate_inr Hk.
  unfold semver_keys, current_keys, available_keys in Hk.
  rewrite (add_details_get_other _ _ _ _ _ _ _ H2),
    (add_details_get_other _ _ _ _ _ _ _ H1); [done| |].
  - intros Hin. apply Hk, elem_of_app. by left.
  - intros Hin. apply Hk, elem_of_app. by right.
Qed.

Lemma annotate_keys_prefix d d' :
  annotate d = inr d' → Dict.keys d `prefix_of` Dict.keys d'.
Proof.
  intros (d1 & H1 & H2)%annotate_inr.
  etrans; [exact (add_details_keys_prefix _ _ _ _ _ _ H1)|].
  exact (add_details_keys_prefix _ _ _ _ _ _ H2).
Qed.

(** Annotating an annotated dict changes nothing: the same numbers are
    written over themselves. *)
Lemma annotate_idempotent d d' : annotate d = inr d' → annotate d' = inr d'.
Proof.
  intros (d1 & H1 & H2)%annotate_inr.
  apply annotate_inr. exists d'.
  pose proof H1 as (sv & Hv & Hsv)%add_details_inr.
  pose proof H2 as (sa & Ha & Hsa)%add_details_inr.
  split; apply add_details_inr.
  - exists sv. split.
    + rewrite (add_details_get_other _ _ _ _ _ _ "Version" H2) by by compute_done.
      by rewrite (add_details_get_other _ _ _ _ _ _ "Version" H1) by by compute_done.
    + destruct (Semver.matches sv); [|done].
      destruct Hsv as ([[a b] c] & Hn & Hd1). exists (a, b, c). split; [done|].
      destruct (write3_get "current_major" "current_minor" "current_patch"
                  a b c d) as (G1 & G2 & G3); [done..|].
      rewrite <-Hd1 in G1, G2, G3.
      symmetry. apply write3_same.
      * by rewrite (add_details_get_other _ _ _ _ _ _ "current_major" H2)
          by by compute_done.
      * by rewrite (add_details_get_other _ _ _ _ _ _ "current_minor" H2)
          by by compute_done.
      * by rewrite (add_details_get_other _ _ _ _ _ _ "current_patch" H2)
          by by compute_done.
  - exists sa. split.
    + by rewrite (add_details_get_other _ _ _ _ _ _ "Available" H2)
        by by compute_done.
    + destruct (Semver.matches sa); [|done].
      destruct Hsa as ([[a b] c] & Hn & Hd'). exists (a, b, c). split; [done|].
      destruct (write3_get "available_major" "available_minor" "available_patch"
                  a b c d1) as (G1 & G2 & G3); [done..|].
      rewrite <-Hd' in G1, G2, G3.
      symmetry. by apply write3_same.
Qed.

(** The condition of the semantic-version filter looks at [Version] and
    [Available] only. *)
Lemma uses_semver_ext d d' :
  Dict.get "Version" d' = Dict.get "Version" d →
  Dict.get "Available" d' = Dict.get "Available" d →
  uses_semver d' = uses_semver d.
Proof. unfold uses_semver, Dict.item. by intros -> ->. Qed.

Lemma annotate_uses_semver d d' :
  annotate d = inr d' → uses_semver d' = uses_semver d.
Proof.
  intros H. apply uses_semver_ext; apply (annotate_get_other _ _ _ H);
    by compute_done.
Qed.

(** ** The semantic-version filter on the heap *)

Lemma annotated_qualifies apps h h' r :
  annotated apps h h' → qualifies h' r = qualifies h r.
Proof.
  intros [Hlen Hh]. unfold qualifies, test.
  destruct (h !! r) as [d|] eqn:Hd.
  - specialize (Hh r d Hd).
    destruct (bool_decide (r ∈ apps) && qualifies h r).
    + destruct Hh as (d' & Ha & ->). by rewrite (annotate_uses_semver _ _ Ha).
    + by rewrite Hh.
  - apply lookup_ge_None in Hd. by rewrite (lookup_ge_None_2 h' r) by lia.
Qed.

Lemma get_applications_using_semver_inr apps h res h' :
  get_applications_using_semver apps h = inr (res, h') →
  res = filter (λ r, qualifies h r = true) apps ∧ annotated apps h h'.
Proof.
  revert h res h'. induction apps as [|a apps IH]; intros h res h'; simpl.
  - intros [-> ->]%ret_inr. split; [done|]. split; [done|].
    intros i d Hd. by rewrite bool_decide_eq_false_2 by apply not_elem_of_nil.
  - intros (keep & h0 & (-> & da & Hda & Hkeep)%reading_inr & Hrest)%bind_inr.
    assert (qualifies h a = keep) as Hqa
      by (unfold qualifies, test; by rewrite Hda, Hkeep).
    destruct keep.
    + apply bind_inr in Hrest as (x & h1 & Hadd & Hrest).
      apply bind_inr in Hrest as (xs & h2 & Hxs & [-> ->]%ret_inr).
      unfold add_semver_details in Hadd.
      apply bind_inr in Hadd as (da' & h0 & (-> & da0 & Hda0 & Hann)%reading_inr
                                 & Hadd).
      apply bind_inr in Hadd as ([] & h0 & [= <-] & [-> ->]%ret_inr).
      assert (da0 = da) as -> by congruence.
      apply IH in Hxs as [-> [Hlen Hh]].
      assert (a < length h)%nat as Hlt by by eapply lookup_lt_Some.
      assert (∀ r, qualifies (<[a:=da']> h) r = qualifies h r) as Hq.
      { intros r. unfold qualifies, test.
        destruct (decide (r = a)) as [->|Hne].
        - rewrite list_lookup_insert_eq, Hda by done.
          by rewrite (annotate_uses_semver _ _ Hann).
        - by rewrite list_lookup_insert_ne. }
      split.
      * rewrite filter_cons_True by done. f_equal.
        apply list_filter_iff. intros r. by rewrite Hq.
      * split; [by rewrite Hlen, length_insert|].
        intros i d Hd. destruct (decide (i = a)) as [->|Hne].
        -- assert (d = da) as -> by congruence.
           rewrite bool_decide_eq_true_2, Hqa by apply list_elem_of_here.
           simpl. exists da'. split; [done|].
           specialize (Hh a da'). rewrite list_lookup_insert_eq in Hh by done.
           specialize (Hh eq_refl).
           destruct (bool_decide (a ∈ apps) && qualifies (<[a:=da']> h) a);
             [|done].
           destruct Hh as (d'' & Hann' & ->).
           rewrite (annotate_idempotent _ _ Hann) in Hann'. congruence.
        -- specialize (Hh i d). rewrite list_lookup_insert_ne in Hh by done.
           specialize (Hh Hd). rewrite Hq in Hh.
           replace (bool_decide (i ∈ a :: apps)) with (bool_decide (i ∈ apps));
             [done|].
           apply bool_decide_ext. rewrite elem_of_cons.
           split; [by right | by intros [?|?]].
    + apply IH in Hrest as [-> [Hlen Hh]]. split.
      * rewrite filter_cons_False; [done | by rewrite Hqa].
      * split; [done|]. intros i d Hd. specialize (Hh i d Hd).
        destruct (decide (i = a)) as [->|Hne].
        -- rewrite Hqa, andb_false_r in *. done.
        -- replace (bool_decide (i ∈ a :: apps)) with (bool_decide (i ∈ apps));
             [done|].
           apply bool_decide_ext. rewrite elem_of_cons.
           split; [by right | by intros [?|?]].
Qed.

(** Annotating a second time what the first pass kept leaves the heap as
    the first pass left it. *)
Lemma annotated_again apps h h1 h2 :
  annotated apps h h1 →
  annotated (filter (λ r, qualifies h r = true) apps) h1 h2 →
  h2 = h1.
Proof.
  intros H1 [Hlen2 H2]. pose proof H1 as [Hlen1 Hh1].
  apply list_eq. intros i.
  destruct (h1 !! i) as [d1|] eqn:Hd1;
    [|apply lookup_ge_None; apply lookup_ge_None in Hd1; lia].
  specialize (H2 i d1 Hd1).
  destruct (bool_decide _ && _) eqn:Hc; [|done].
  apply andb_true_iff in Hc as [Hin Hq].
  apply bool_decide_eq_true in Hin. apply list_elem_of_filter in Hin as [Hqi Hin].
  destruct H2 as (d2 & Hann2 & ->).
  destruct (h !! i) as [d|] eqn:Hd.
  - specialize (Hh1 i d Hd).
    rewrite bool_decide_eq_true_2, Hqi in Hh1 by done. simpl in Hh1.
    destruct Hh1 as (d' & Hann & Hd'). assert (d' = d1) as -> by congruence.
    rewrite (annotate_idempotent _ _ Hann) in Hann2. congruence.
  - unfold qualifies, test in Hqi. by rewrite Hd in Hqi.
Qed.

(** ** The level selection *)

Lemma get_apps_to_upgrade_inr apps level unk h sel h' :
  get_apps_to_upgrade apps level unk h = inr (sel, h') →
  annotated apps h h'
  ∧ sel = if bool_decide (Str.lower level = "all") then apps
          else chosen h' (filter (λ r, qualifies h r = true) apps) level unk.
Proof.
  unfold get_apps_to_upgrade.
  intros (sem & h1 & [-> Hann]%get_applications_using_semver_inr & Hsel)%bind_inr.
  destruct (bool_decide (Str.lower level = "all")).
  - by apply ret_inr in Hsel as [-> ->].
  - apply bind_inr in Hsel as (p & ? & [-> ->]%select_inr & Hsel).
    apply bind_inr in Hsel as (mi & ? & [-> ->]%select_inr & Hsel).
    apply bind_inr in Hsel as (ma & ? & [-> ->]%select_inr & Hsel).
    apply bind_inr in Hsel as (u & ? & [-> ->]%select_inr & Hsel).
    by apply ret_inr in Hsel as [-> ->].
Qed.

Section PolicyFacts.

Variables allowed blocked : gset string.

Lemma level_selection_inr apps level unk h sel h' :
  level_selection apps level unk h = inr (sel, h') →
  annotated apps h h' ∧ sel = selection h h' apps level unk.
Proof.
  unfold level_selection, selection.
  intros (sem & h1 & [-> Hann]%get_applications_using_semver_inr
          & [Hann2 ->]%get_apps_to_upgrade_inr)%bind_inr.
  assert (h' = h1) as -> by by eapply annotated_again.
  split; [done|]. case_bool_decide; [done|]. f_equal.
  rewrite list_filter_filter. apply list_filter_iff. intros r.
  rewrite (annotated_qualifies _ _ _ r Hann). tauto.
Qed.

(** The final list of [main], when it is reached. *)
Lemma classify_inr apps level unk h res h' :
  classify allowed blocked apps level unk h = inr (res, h') →
  annotated apps h h'
  ∧ res = filter (λ r, test (id_not_in blocked) h' r = true)
            (selection h h' apps level unk
             ++ filter (λ r, test (id_in allowed) h' r = true) apps).
Proof.
  unfold classify, add_allowed_updates, remove_blocked_updates.
  intros (sel & h1 & [Hann ->]%level_selection_inr & Hrest)%bind_inr.
  apply bind_inr in Hrest as (added & h2 & Hadd & [-> ->]%select_inr).
  apply bind_inr in Hadd as (al & h3 & [-> ->]%select_inr & [-> ->]%ret_inr).
  done.
Qed.

End PolicyFacts.

(** What classification leaves in the heap for one dict of the input. *)
Lemma annotated_lookup apps h h' r d :
  annotated apps h h' → h !! r = Some d →
  ∃ d', h' !! r = Some d'
        ∧ (∀ k, k ∉ semver_keys → Dict.get k d' = Dict.get k d)
        ∧ Dict.keys d `prefix_of` Dict.keys d'
        ∧ if bool_decide (r ∈ apps) && qualifies h r
          then annotate d = inr d' else d' = d.
Proof.
  intros [_ Hh] Hd. specialize (Hh r d Hd).
  destruct (bool_decide (r ∈ apps) && qualifies h r).
  - destruct Hh as (d' & Hann & Hd'). exists d'. repeat split; try done.
    + intros k Hk. by apply annotate_get_other.
    + by apply annotate_keys_prefix.
  - by exists d.
Qed.

(** The numbers annotation leaves under the derived keys. *)
Lemma annotate_current d d' s :
  annotate d = inr d' → Dict.get "Version" d = Some (VStr s) →
  Semver.matches s = true →
  ∃ a b c, version_numbers s = inr (a, b, c)
           ∧ Dict.get "current_major" d' = Some (VInt a)
           ∧ Dict.get "current_minor" d' = Some (VInt b)
           ∧ Dict.get "current_patch" d' = Some (VInt c).
Proof.
  intros (d1 & H1 & H2)%annotate_inr Hv Hm.
  apply add_details_inr in H1 as (s' & Hv' & Hs).
  assert (s' = s) as -> by congruence. rewrite Hm in Hs.
  destruct Hs as ([[a b] c] & Hn & ->). exists a, b, c. split; [done|].
  rewrite !(add_details_get_other _ _ _ _ _ _ _ H2) by by compute_done.
  by apply write3_get.
Qed.

Lemma annotate_available d d' s :
  annotate d = inr d' → Dict.get "Available" d = Some (VStr s) →
  Semver.matches s = true →
  ∃ a b c, version_numbers s = inr (a, b, c)
           ∧ Dict.get "available_major" d' = Some (VInt a)
           ∧ Dict.get "available_minor" d' = Some (VInt b)
           ∧ Dict.get "available_patch" d' = Some (VInt c).
Proof.
  intros (d1 & H1 & H2)%annotate_inr Hv Hm.
  apply add_details_inr in H2 as (s' & Hv' & Hs).
  rewrite (add_details_get_other _ _ _ _ _ _ _ H1) in Hv' by by compute_done.
  assert (s' = s) as -> by congruence. rewrite Hm in Hs.
  destruct Hs as ([[a b] c] & Hn & ->). exists a, b, c. split; [done|].
  by apply write3_get.
Qed.

(** A string the pattern matches starts with a digit: it is not
    ["unknown"], in any case of its letters. *)
Lemma matches_not_unknown s :
  Semver.matches s = true → Str.lower s ≠ "unknown".
Proof.
  destruct s as [|c s]; [done|].
  unfold Semver.matches, Str.lower. simpl.
  destruct (Str.isdigit c) eqn:Hc; [|done]. intros _.
  unfold Str.of_chars. simpl. intros [= Hl _].
  revert Hc Hl. by destruct c as [[] [] [] [] [] [] [] []].
Qed.

(** The level selection keeps references the filter kept. *)
Lemma chosen_subseteq h sem level unk : chosen h sem level unk ⊆ sem.
Proof.
  intros r. unfold chosen.
  repeat case_bool_decide; destruct unk;
    rewrite ?elem_of_app, ?list_elem_of_filter, ?elem_of_nil; tauto.
Qed.

Lemma selection_subseteq h h' apps level unk r :
  r ∈ selection h h' apps level unk → r ∈ apps ∧ qualifies h r = true.
Proof.
  unfold selection. case_bool_decide.
  - rewrite list_elem_of_filter. tauto.
  - intros Hr%chosen_subseteq. apply list_elem_of_filter in Hr. tauto.
Qed.

(** ** Conditions on one record *)

(** The value of a field the conditions read is the same before and after
    classification. *)
Lemma classified_field apps h h' r d d' k :
  annotated apps h h' → h !! r = Some d → h' !! r = Some d' →
  k ∉ semver_keys → Dict.get k d' = Dict.get k d.
Proof.
  intros Hann Hd Hd' Hk.
  destruct (annotated_lookup _ _ _ _ _ Hann Hd) as (d'' & Hd'' & Hget & _).
  assert (d'' = d') as -> by congruence. by apply Hget.
Qed.

Lemma id_in_true ids d :
  id_in ids d = inr true ↔ ∃ s, Dict.get "Id" d = Some (VStr s) ∧ s ∈ ids.
Proof.
  unfold id_in, Dict.item. destruct (Dict.get "Id" d) as [[s|n]|]; simpl.
  - split.
    + intros [= Hs%bool_decide_eq_true]. eauto.
    + intros (? & [= <-] & Hs). unfold ok. by rewrite bool_decide_eq_true_2.
  - split; [done | by intros (? & [=] & _)].
  - split; [done | by intros (? & [=] & _)].
Qed.

Lemma id_not_in_true ids d :
  id_not_in ids d = inr true ↔
  ∃ v, Dict.get "Id" d = Some v ∧ ∀ s, v = VStr s → s ∉ ids.
Proof.
  unfold id_not_in, id_in, Dict.item.
  destruct (Dict.get "Id" d) as [[s|n]|]; simpl.
  - split.
    + intros [= Hs%negb_true_iff%bool_decide_eq_false].
      exists (VStr s). split; [done|]. by intros ? [= <-].
    + intros (? & [= <-] & Hs). unfold ok.
      by rewrite bool_decide_eq_false_2 by by apply Hs.
  - split; [|done]. intros _. exists (VInt n). split; [done|]. by intros ? [=].
  - split; [done | by intros (? & [=] & _)].
Qed.

(** With the same three numbers on both sides no strict inequality holds. *)
Lemma equal_numbers_no_upgrade d a b c :
  Dict.get "current_major" d = Some (VInt a) →
  Dict.get "current_minor" d = Some (VInt b) →
  Dict.get "current_patch" d = Some (VInt c) →
  Dict.get "available_major" d = Some (VInt a) →
  Dict.get "available_minor" d = Some (VInt b) →
  Dict.get "available_patch" d = Some (VInt c) →
  has_patch_upgrade d = inr false
  ∧ has_minor_upgrade d = inr false
  ∧ has_major_upgrade d = inr false.
Proof.
  intros H1 H2 H3 H4 H5 H6.
  unfold has_patch_upgrade, has_minor_upgrade, has_major_upgrade,
    has_both_majors, items_eq, items_lt, Dict.mem, Dict.item.
  rewrite H1, H2, H3, H4, H5, H6. simpl.
  rewrite !bool_decide_eq_true_2 by done. simpl.
  by rewrite !Z.ltb_irrefl.
Qed.

Lemma test_false cond h r d :
  h !! r = Some d → cond d = inr false → test cond h r = false.
Proof. intros Hd Hc. unfold test. by rewrite Hd, Hc. Qed.

Lemma all_str_get d k n : all_str d = true → Dict.get k d ≠ Some (VInt n).
Proof.
  induction d as [|[k0 v0] d IH]; simpl; [done|].
  intros [Hv Hd]%andb_true_iff. case_bool_decide.
  - intros [= ->]. done.
  - by apply IH.
Qed.

Lemma parsed_shape_lookup h r d :
  parsed_shape h = true → h !! r = Some d → all_str d = true.
Proof.
  unfold parsed_shape. rewrite forallb_forall. intros Hh Hd.
  apply Hh, list_elem_of_In. by eapply list_elem_of_lookup_2.
Qed.

(** A record with no number under [current_major], annotated from its
    [Available] field alone, passes none of the three level conditions. *)
Lemma no_current_no_upgrade d a :
  (∀ n, Dict.get "current_major" d ≠ Some (VInt n)) →
  Dict.get "available_major" d = Some (VInt a) →
  has_patch_upgrade d ≠ inr true
  ∧ has_minor_upgrade d ≠ inr true
  ∧ has_major_upgrade d ≠ inr true.
Proof.
  intros Hc Ha.
  unfold has_patch_upgrade, has_minor_upgrade, has_major_upgrade,
    has_both_majors, items_eq, items_lt, Dict.mem, Dict.item.
  rewrite Ha. destruct (Dict.get "current_major" d) as [[x|n]|]; simpl.
  - done.
  - by destruct (Hc n).
  - done.
Qed.

Lemma lower_all_twice level :
  Str.lower level = "all" → Str.lower (Str.lower level) = "all".
Proof. by intros ->. Qed.

(** ** The parser *)

Global Instance of_chars_inj : Inj (=) (=) Str.of_chars.
Proof.
  intros l1 l2 H. unfold Str.of_chars in H.
  rewrite <-(list_ascii_of_string_of_list_ascii l1),
    <-(list_ascii_of_string_of_list_ascii l2). by rewrite H.
Qed.

Lemma keys_fill_record row cols rec :
  Dict.keys (fill_record row cols rec) = foldl add_key (Dict.keys rec) cols.*1.
Proof.
  revert rec. induction cols as [|[key start] cols IH]; intros rec; [done|].
  cbn [fill_record]. rewrite IH, DictFacts.keys_set. done.
Qed.

Lemma foldl_add_key_NoDup acc labels :
  NoDup (acc ++ labels) → foldl add_key acc labels = acc ++ labels.
Proof.
  revert acc. induction labels as [|k labels IH]; intros acc Hnd; simpl.
  - by rewrite app_nil_r.
  - unfold add_key at 2. rewrite decide_False.
    + rewrite IH, <-app_assoc; [done|]. by rewrite <-app_assoc.
    + apply NoDup_app in Hnd as (_ & Hd & _). intros Hin.
      apply (Hd k Hin), list_elem_of_here.
Qed.

Lemma get_headers_labels rows cols :
  get_headers_and_their_starting_positions rows = inr cols →
  ∃ header_row, head rows = Some header_row
                ∧ cols.*1 = Str.of_chars <$> header_labels header_row.
Proof.
  unfold get_headers_and_their_starting_positions.
  destruct rows as [|header_row rows]; [done|].
  destruct (header_labels header_row) as [|h0 hs] eqn:Hl; [done|].
  intros [= <-]. exists header_row. split; [done|].
  rewrite Hl. simpl. f_equal. clear Hl.
  induction hs as [|x hs IH]; [done|]. simpl. by rewrite <-IH.
Qed.

Lemma head_drop_last_two {A} (l : list A) x :
  head (drop_last_two l) = Some x → head l = Some x.
Proof.
  unfold drop_last_two. destruct l as [|y l]; [by rewrite take_nil|].
  destruct (length (y :: l) - 2)%nat; [done|]. done.
Qed.

(** The parser raises nothing else, and only in these two cases. *)
Lemma extract_applications_from_table_raises output e :
  extract_applications_from_table output = inl e →
  e = IndexError
  ∧ ((length (Str.split_on CRLF output) < 3)%nat
     ∨ ∃ header_row,
         head (Str.split_on CRLF output) = Some header_row
         ∧ header_labels header_row = []).
Proof.
  unfold extract_applications_from_table, drop_last_two.
  destruct (Str.split_on CRLF output) as [|row rows] eqn:Hs.
  - intros [= <-]. split; [done|]. left. simpl. lia.
  - destruct (length (row :: rows) - 2)%nat eqn:Hn.
    + intros [= <-]. split; [done|]. left. lia.
    + simpl. destruct (header_labels row) eqn:Hl; [|done].
      intros [= <-]. split; [done|]. right. by exists row.
Qed.

(** A slice that starts at or after the end of the string is empty. *)
Lemma slice_past_end s lo hi :
  Z.of_nat (length s) ≤ lo → Str.slice s lo hi = [].
Proof.
  intros Hlo. unfold Str.slice, Str.clamp.
  replace (lo <? 0) with false by lia.
  rewrite Z.min_r, Nat2Z.id by done.
  by rewrite drop_all, take_nil.
Qed.

Lemma fill_record_get_other row cols rec k :
  k ∉ cols.*1 → Dict.get k (fill_record row cols rec) = Dict.get k rec.
Proof.
  revert rec. induction cols as [|[key start] cols IH]; intros rec Hk; [done|].
  cbn [fill_record]. apply not_elem_of_cons in Hk as [Hne Hk].
  rewrite IH by done. by apply DictFacts.get_set_ne.
Qed.

(** Columns that all start at or after the end of the row are all empty. *)
Lemma fill_record_all_empty row cols rec k :
  Forall (λ c, Z.of_nat (length row) ≤ c.2) cols →
  k ∈ cols.*1 →
  Dict.get k (fill_record row cols rec) = Some (VStr "").
Proof.
  revert rec. induction cols as [|[key start] cols IH]; intros rec Hall Hk.
  - by apply elem_of_nil in Hk.
  - cbn [fill_record]. apply Forall_cons in Hall as [Hstart Hall].
    destruct (decide (k ∈ cols.*1)) as [Hin|Hin]; [by apply IH|].
    rewrite fill_record_get_other by done.
    apply elem_of_cons in Hk as [->|Hk]; [|done].
    rewrite DictFacts.get_set_eq, slice_past_end by done. done.
Qed.

(** The columns from the [p]-th on are filled last. *)
Lemma fill_record_drop row cols rec p :
  ∃ rec', fill_record row cols rec = fill_record row (drop p cols) rec'.
Proof.
  revert cols rec. induction p as [|p IH]; intros cols rec.
  - exists rec. by rewrite drop_0.
  - destruct cols as [|[key start] cols]; [by exists rec|].
    cbn [fill_record]. apply IH.
Qed.

Lemma row_record_empty_from cols row p key :
  Forall (λ c, Z.of_nat (length (Str.chars row)) ≤ c.2) (drop p cols) →
  key ∈ (drop p cols).*1 →
  Dict.get key (row_record cols row) = Some (VStr "").
Proof.
  intros Hall Hk. unfold row_record.
  destruct (fill_record_drop (Str.chars row) cols [] p) as [rec' ->].
  by apply fill_record_all_empty.
Qed.

(** ** The records of the parser *)

Lemma all_str_set k s d :
  all_str d = true → all_str (Dict.set k (VStr s) d) = true.
Proof.
  induction d as [|[k0 v0] d IH]; simpl; [done|].
  intros [Hv Hd]%andb_true_iff. case_bool_decide; simpl.
  - done.
  - by rewrite Hv, IH.
Qed.

Lemma all_str_fill_record row cols rec :
  all_str rec = true → all_str (fill_record row cols rec) = true.
Proof.
  revert rec. induction cols as [|[key start] cols IH]; intros rec Hrec; [done|].
  cbn [fill_record]. by apply IH, all_str_set.
Qed.

(** Every value of every record the parser returns is a [str]: the records
    have the shape the statement on unknown versions asks for. *)
Lemma extract_parsed_shape output records :
  extract_applications_from_table output = inr records →
  parsed_shape records = true.
Proof.
  unfold extract_applications_from_table.
  intros (cols & _ & [= <-])%rbind_inr.
  unfold parsed_shape. apply forallb_forall. intros d Hd.
  apply list_elem_of_In, list_elem_of_fmap in Hd as (row & -> & _).
  by apply all_str_fill_record.
Qed.

(** ** The scenarios of the specification *)

(** One row with a minor upgrade: selected at level [minor], not at level
    [patch]. *)
Example minor_upgrade_scenario :
  let output :=
    table [ "Name  Id       Version  Available  Source";
            "-----------------------------------------";
            "Foo   Foo.Foo  1.0.0    1.1.0      winget";
            "1 upgrades available." ] in
  references (main_pipeline output "minor" false) = inr [0%nat]
  ∧ references (main_pipeline output "patch" false) = inr [].
Proof. split; vm_compute; reflexivity. Qed.

(** The sample listing at the four levels, with the switch off: the
    allow-listed [Python.Python.3] is always there, the blocked
    [EvanCzaplicki.Elm] never. *)
Example sample_levels :
  references (main_pipeline sample_output "patch" false) = inr [0; 2]%nat
  ∧ references (main_pipeline sample_output "minor" false) = inr [0; 2]%nat
  ∧ references (main_pipeline sample_output "major" false) = inr [0; 2]%nat
  ∧ references (main_pipeline sample_output "all" false) = inr [0; 2]%nat.
Proof. repeat split; vm_compute; reflexivity. Qed.

(** ** The pattern, the split at the dots and [int] agree *)

Module SemverFacts.

Lemma digit_not_special c :
  Str.isdigit c = true →
  c ≠ "."%char ∧ c ≠ "-"%char ∧ c ≠ "+"%char ∧ c ≠ "_"%char
  ∧ Semver.int_space c = false.
Proof. by destruct c as [[] [] [] [] [] [] [] []]. Qed.

Lemma skip_digits_spec s :
  ∃ ds, forallb Str.isdigit ds = true ∧ s = ds ++ Semver.skip_digits s.
Proof.
  induction s as [|c s (ds & Hds & IH)]; [by exists []|]. simpl.
  destruct (Str.isdigit c) eqn:Hc.
  - exists (c :: ds). simpl. rewrite Hc, Hds. split; [done|]. by f_equal.
  - by exists [].
Qed.

Lemma digits1_spec s r :
  Semver.digits1 s = Some r →
  ∃ c ds, forallb Str.isdigit (c :: ds) = true ∧ s = (c :: ds) ++ r.
Proof.
  destruct s as [|c s]; [done|]. simpl.
  destruct (Str.isdigit c) eqn:Hc; [|done]. intros [= <-].
  destruct (skip_digits_spec s) as (ds & Hds & Hs).
  exists c, ds. simpl. rewrite Hc, Hds. split; [done|]. by f_equal.
Qed.

Lemma dot_spec s r : Semver.dot s = Some r → s = "."%char :: r.
Proof.
  destruct s as [|c s]; [done|]. simpl. case_bool_decide; [|done].
  intros [= <-]. by subst.
Qed.

Lemma at_end_spec s :
  Semver.at_end s = true → s = [] ∨ s = ["010"%char].
Proof.
  destruct s as [|c [|? ?]]; simpl; [by left| |done].
  intros ->%bool_decide_eq_true. by right.
Qed.

(** The strings the pattern matches: three runs of digits between two
    dots, and possibly a line feed at the end. *)
Lemma matches_shape s :
  Semver.matches s = true →
  ∃ c1 d1 c2 d2 c3 d3 t,
    forallb Str.isdigit (c1 :: d1) = true
    ∧ forallb Str.isdigit (c2 :: d2) = true
    ∧ forallb Str.isdigit (c3 :: d3) = true
    ∧ (t = [] ∨ t = ["010"%char])
    ∧ Str.chars s
      = (c1 :: d1) ++ "."%char :: (c2 :: d2) ++ "."%char :: (c3 :: d3) ++ t.
Proof.
  unfold Semver.matches.
  destruct (Semver.digits1 (Str.chars s)) as [r1|] eqn:H1; [|done].
  destruct (Semver.dot r1) as [r2|] eqn:H2; [|done].
  destruct (Semver.digits1 r2) as [r3|] eqn:H3; [|done].
  destruct (Semver.dot r3) as [r4|] eqn:H4; [|done].
  destruct (Semver.digits1 r4) as [r5|] eqn:H5; [|done].
  intros Ht%at_end_spec.
  apply digits1_spec in H1 as (c1 & d1 & Hd1 & E1).
  apply digits1_spec in H3 as (c2 & d2 & Hd2 & E3).
  apply digits1_spec in H5 as (c3 & d3 & Hd3 & E5).
  apply dot_spec in H2, H4. subst r1 r2 r3 r4.
  exists c1, d1, c2, d2, c3, d3, r5. by rewrite E1.
Qed.

(** Splitting at the dots: a run without a dot is read into the current
    piece. *)
Lemma split_dot_run ds cur rest :
  Forall (λ c, c ≠ "."%char) ds →
  Str.split_go ["."%char] 0 cur (ds ++ rest)
  = Str.split_go ["."%char] 0 (cur ++ ds) rest.
Proof.
  revert cur. induction ds as [|c ds IH]; intros cur Hds.
  - by rewrite app_nil_r.
  - apply Forall_cons in Hds as [Hc Hds]. simpl.
    rewrite bool_decide_eq_false_2 by done. simpl.
    rewrite IH by done. by rewrite <-app_assoc.
Qed.

Lemma split_dot_here cur rest :
  Str.split_go ["."%char] 0 cur ("."%char :: rest)
  = cur :: Str.split_go ["."%char] 0 [] rest.
Proof. done. Qed.

Lemma digits_no_dot ds :
  forallb Str.isdigit ds = true → Forall (λ c, c ≠ "."%char) ds.
Proof.
  rewrite forallb_forall, Forall_forall. intros H c Hc.
  apply digit_not_special, H. by apply list_elem_of_In.
Qed.

Lemma int_digits_total ds acc b :
  forallb Str.isdigit ds = true → ds ≠ [] ∨ b = true →
  ∃ n, Semver.int_digits acc b ds = Some n.
Proof.
  revert acc b. induction ds as [|c ds IH]; intros acc b Hds Hne.
  - destruct Hne as [?| ->]; [done|]. by exists acc.
  - simpl in *. apply andb_true_iff in Hds as [Hc Hds]. rewrite Hc.
    apply IH; [done | by right].
Qed.

Lemma int_lstrip_digit c s :
  Str.isdigit c = true → Semver.int_lstrip (c :: s) = c :: s.
Proof. intros (_ & _ & _ & _ & Hc)%digit_not_special. simpl. by rewrite Hc. Qed.

Lemma digits_all ds : forallb Str.isdigit ds = true → digits ds = ds.
Proof.
  unfold digits. induction ds as [|c ds IH]; simpl; [done|].
  intros [Hc Hds]%andb_true_iff. by rewrite filter_cons_True, IH.
Qed.

Lemma digits_of_run ds t :
  forallb Str.isdigit ds = true → t = [] ∨ t = ["010"%char] →
  digits (ds ++ t) = ds.
Proof.
  intros Hds Ht. unfold digits. rewrite filter_app.
  fold (digits ds). rewrite digits_all by done.
  destruct Ht as [-> | ->]; by rewrite ?app_nil_r.
Qed.

(** [int] reads a run of digits, with or without a line feed after it,
    unless the run is longer than the limit. *)
Lemma int_run c ds t :
  forallb Str.isdigit (c :: ds) = true → t = [] ∨ t = ["010"%char] →
  if Semver.int_max_str_digits <? Z.of_nat (length (c :: ds))
  then Semver.int (Str.of_chars ((c :: ds) ++ t)) = inl ValueError
  else ∃ n, Semver.int (Str.of_chars ((c :: ds) ++ t)) = inr n.
Proof.
  intros Hds Ht. unfold Semver.int, Str.chars, Str.of_chars.
  rewrite list_ascii_of_string_of_list_ascii.
  pose proof Hds as [Hc _]%andb_true_iff.
  change ((c :: ds) ++ t) with (c :: (ds ++ t)).
  rewrite int_lstrip_digit by done.
  assert (Semver.int_lstrip (reverse (c :: ds ++ t)) = reverse (c :: ds)) as ->.
  { change (c :: ds ++ t) with ((c :: ds) ++ t). rewrite reverse_app.
    assert (∃ x r, reverse (c :: ds) = x :: r ∧ Str.isdigit x = true)
      as (x & r & Hr & Hx).
    { destruct (reverse (c :: ds)) as [|x r] eqn:Hr.
      - apply (f_equal length) in Hr. by rewrite length_reverse in Hr.
      - exists x, r. split; [done|].
        rewrite forallb_forall in Hds. apply Hds, list_elem_of_In.
        rewrite <-elem_of_reverse, Hr. apply list_elem_of_here. }
    rewrite Hr. destruct Ht as [-> | ->]; simpl.
    - by apply int_lstrip_digit.
    - by apply int_lstrip_digit. }
  rewrite reverse_involutive.
  destruct (digit_not_special c Hc) as (_ & Hm & Hp & _).
  rewrite !bool_decide_eq_false_2 by done.
  destruct (int_digits_total (c :: ds) 0 false Hds) as [n ->]; [by left|].
  fold (digits (c :: ds)). rewrite digits_all by done.
  destruct (Semver.int_max_str_digits <? Z.of_nat (length (c :: ds)));
    [done | by exists n].
Qed.

(** The three parts of a string the pattern matches. *)
Lemma matches_split s :
  Semver.matches s = true →
  ∃ c1 d1 c2 d2 c3 d3 t,
    forallb Str.isdigit (c1 :: d1) = true
    ∧ forallb Str.isdigit (c2 :: d2) = true
    ∧ forallb Str.isdigit (c3 :: d3) = true
    ∧ (t = [] ∨ t = ["010"%char])
    ∧ Str.chars s
      = (c1 :: d1) ++ "."%char :: (c2 :: d2) ++ "."%char :: (c3 :: d3) ++ t
    ∧ Str.split_on "." s
      = [Str.of_chars (c1 :: d1); Str.of_chars (c2 :: d2);
         Str.of_chars ((c3 :: d3) ++ t)].
Proof.
  intros (c1 & d1 & c2 & d2 & c3 & d3 & t & H1 & H2 & H3 & Ht & Hs)%matches_shape.
  exists c1, d1, c2, d2, c3, d3, t. repeat split; try done.
  unfold Str.split_on.
  change (Str.chars ".") with ["."%char]. rewrite Hs.
  rewrite split_dot_run, split_dot_here by by apply digits_no_dot.
  rewrite split_dot_run, split_dot_here by by apply digits_no_dot.
  rewrite split_dot_run by by apply digits_no_dot.
  assert (Str.split_go ["."%char] 0 ([] ++ c3 :: d3) t = [(c3 :: d3) ++ t]) as ->.
  { destruct Ht as [-> | ->]; [by rewrite app_nil_r | done]. }
  done.
Qed.

(** A string the pattern matches has its three numbers, unless one of
    them is too long for [int]. *)
Lemma version_numbers_outcome s :
  Semver.matches s = true →
  if long_number s then version_numbers s = inl ValueError
  else ∃ n, version_numbers s = inr n.
Proof.
  intros (c1 & d1 & c2 & d2 & c3 & d3 & t & H1 & H2 & H3 & Ht & _ & Hs)%matches_split.
  unfold long_number, version_numbers, split_in_three. rewrite Hs.
  cbn [existsb rbind ok]. unfold Str.chars, Str.of_chars.
  rewrite !list_ascii_of_string_of_list_ascii.
  rewrite (digits_all (c1 :: d1)), (digits_all (c2 :: d2)),
    (digits_of_run (c3 :: d3) t) by done.
  pose proof (int_run c1 d1 [] H1 (or_introl eq_refl)) as Ha.
  pose proof (int_run c2 d2 [] H2 (or_introl eq_refl)) as Hb.
  pose proof (int_run c3 d3 t H3 Ht) as Hc.
  rewrite !app_nil_r in Ha, Hb. unfold Str.of_chars in Ha, Hb, Hc.
  destruct (Semver.int_max_str_digits <? Z.of_nat (length (c1 :: d1))).
  { by rewrite Ha. }
  destruct Ha as [a ->]. cbn [rbind orb].
  destruct (Semver.int_max_str_digits <? Z.of_nat (length (c2 :: d2))).
  { by rewrite Hb. }
  destruct Hb as [b ->]. cbn [rbind orb].
  destruct (Semver.int_max_str_digits <? Z.of_nat (length (c3 :: d3))).
  { by rewrite Hc. }
  destruct Hc as [c ->]. cbn [rbind orb]. by exists (a, b, c).
Qed.

Lemma version_numbers_total s :
  Semver.matches s = true → long_number s = false →
  ∃ n, version_numbers s = inr n.
Proof.
  intros Hm Hl. pose proof (version_numbers_outcome s Hm) as H.
  by rewrite Hl in H.
Qed.

(** A matching string of 4300 characters at most has no long number. *)
Lemma short_not_long s :
  Semver.matches s = true →
  Z.of_nat (length (Str.chars s)) ≤ Semver.int_max_str_digits →
  long_number s = false.
Proof.
  intros (c1 & d1 & c2 & d2 & c3 & d3 & t & H1 & H2 & H3 & Ht & Hc & Hs)%matches_split
    Hlen.
  unfold long_number. rewrite Hs. cbn [existsb].
  unfold Str.chars, Str.of_chars in *.
  rewrite !list_ascii_of_string_of_list_ascii.
  rewrite (digits_all (c1 :: d1)), (digits_all (c2 :: d2)),
    (digits_of_run (c3 :: d3) t) by done.
  rewrite Hc in Hlen. rewrite !length_app in Hlen. simpl in Hlen.
  rewrite !length_app in Hlen. simpl in Hlen.
  rewrite length_app in Hlen.
  rewrite orb_false_r, !orb_false_iff, !Z.ltb_ge. simpl length. lia.
Qed.

End SemverFacts.

(** ** The classifier returns on the records of a well-formed table *)

Lemma all_str_get_Some d k :
  all_str d = true → is_Some (Dict.get k d) → ∃ s, Dict.get k d = Some (VStr s).
Proof.
  intros Hd [[s|n] Hv]; [by exists s|]. by apply all_str_get with (k := k) (n := n) in Hd.
Qed.

Lemma short_fields_get d k s :
  short_fields d = true → Dict.get k d = Some (VStr s) →
  Z.of_nat (length (Str.chars s)) ≤ Semver.int_max_str_digits.
Proof.
  induction d as [|[k0 v0] d IH]; simpl; [done|].
  intros [Hv Hd]%andb_true_iff. case_bool_decide.
  - intros [= ->]. by apply Z.leb_le.
  - by apply IH.
Qed.

Lemma add_details_total field k1 k2 k3 d s :
  Dict.get field d = Some (VStr s) →
  (Semver.matches s = true → long_number s = false) →
  ∃ d', add_details field k1 k2 k3 d = inr d'.
Proof.
  intros Hs Hl. rewrite add_details_eq, Hs.
  destruct (Semver.matches s) eqn:Hm; [|by eexists].
  destruct (SemverFacts.version_numbers_total s Hm (Hl eq_refl)) as [n ->].
  by eexists.
Qed.

Lemma annotate_total d sv sa :
  Dict.get "Version" d = Some (VStr sv) →
  Dict.get "Available" d = Some (VStr sa) →
  (Semver.matches sv = true → long_number sv = false) →
  (Semver.matches sa = true → long_number sa = false) →
  ∃ d', annotate d = inr d'.
Proof.
  intros Hv Ha Hlv Hla. unfold annotate.
  destruct (add_details_total "Version" "current_major" "current_minor"
              "current_patch" d sv Hv Hlv) as [d1 H1].
  rewrite H1. simpl. apply (add_details_total _ _ _ _ _ sa); [|done].
  by rewrite (add_details_get_other _ _ _ _ _ _ _ H1) by by compute_done.
Qed.

Lemma settled_fields d :
  settled d →
  ∃ id sv sa,
    Dict.get "Id" d = Some (VStr id)
    ∧ Dict.get "Version" d = Some (VStr sv)
    ∧ Dict.get "Available" d = Some (VStr sa).
Proof.
  intros (d0 & (Hstr & Hid & Hv & Ha & _ & _) & Hd).
  apply (all_str_get_Some _ _ Hstr) in Hid as [id Hid], Hv as [sv Hv],
    Ha as [sa Ha].
  exists id, sv, sa. destruct Hd as [-> | Hann]; [done|].
  by rewrite !(annotate_get_other _ _ _ Hann) by by compute_done.
Qed.

Lemma settled_annotate d : settled d → ∃ d', annotate d = inr d' ∧ settled d'.
Proof.
  intros Hd. pose proof Hd as (d0 & Hwf & [-> | Hann]).
  - destruct (settled_fields _ Hd) as (_ & sv & sa & _ & Hv & Ha).
    pose proof Hwf as (_ & _ & _ & _ & _ & Hshort).
    destruct (annotate_total _ _ _ Hv Ha) as [d' Hd'].
    + intros Hm. apply SemverFacts.short_not_long; [done|].
      by eapply short_fields_get.
    + intros Hm. apply SemverFacts.short_not_long; [done|].
      by eapply short_fields_get.
    + exists d'. split; [done|]. exists d0. eauto.
  - exists d. split; [by eapply annotate_idempotent | done].
Qed.

Lemma settled_uses_semver d : settled d → ∃ b, uses_semver d = inr b.
Proof.
  intros (_ & sv & sa & _ & Hv & Ha)%settled_fields.
  unfold uses_semver, Dict.item. rewrite Hv. simpl.
  destruct (Semver.matches sv); [by eexists|]. rewrite Ha. by eexists.
Qed.

(** Under three derived keys a settled record holds three numbers, or
    nothing at all. *)
Lemma add_details_numbers field k1 k2 k3 d d' :
  k1 ≠ k2 → k1 ≠ k3 → k2 ≠ k3 →
  add_details field k1 k2 k3 d = inr d' →
  Dict.get k1 d = None →
  (∃ a b c, Dict.get k1 d' = Some (VInt a) ∧ Dict.get k2 d' = Some (VInt b)
            ∧ Dict.get k3 d' = Some (VInt c))
  ∨ Dict.get k1 d' = None.
Proof.
  intros ? ? ? (s & _ & Hs)%add_details_inr Hnone.
  destruct (Semver.matches s); [|right; by subst].
  destruct Hs as ([[a b] c] & _ & ->). left. exists a, b, c.
  by apply write3_get.
Qed.

Lemma settled_numbers d :
  settled d →
  ((∃ a b c, Dict.get "current_major" d = Some (VInt a)
             ∧ Dict.get "current_minor" d = Some (VInt b)
             ∧ Dict.get "current_patch" d = Some (VInt c))
   ∨ Dict.get "current_major" d = None)
  ∧ ((∃ a b c, Dict.get "available_major" d = Some (VInt a)
               ∧ Dict.get "available_minor" d = Some (VInt b)
               ∧ Dict.get "available_patch" d = Some (VInt c))
     ∨ Dict.get "available_major" d = None).
Proof.
  intros (d0 & (_ & _ & _ & _ & Hnone & _) & [-> | Hann]).
  - split; right; apply Hnone; by compute_done.
  - apply annotate_inr in Hann as (d1 & H1 & H2). split.
    + rewrite !(add_details_get_other _ _ _ _ _ _ _ H2) by by compute_done.
      eapply add_details_numbers; [| | |exact H1|]; [done..|].
      apply Hnone. by compute_done.
    + eapply add_details_numbers; [| | |exact H2|]; [done..|].
      rewrite (add_details_get_other _ _ _ _ _ _ _ H1) by by compute_done.
      apply Hnone. by compute_done.
Qed.

Lemma settled_conditions d :
  settled d →
  (∃ b, has_patch_upgrade d = inr b)
  ∧ (∃ b, has_minor_upgrade d = inr b)
  ∧ (∃ b, has_major_upgrade d = inr b)
  ∧ (∃ b, has_unknown_version d = inr b)
  ∧ ∀ ids, (∃ b, id_in ids d = inr b) ∧ (∃ b, id_not_in ids d = inr b).
Proof.
  intros Hd.
  destruct (settled_fields _ Hd) as (id & sv & sa & Hid & Hv & Ha).
  destruct (settled_numbers _ Hd) as [Hc Hav].
  unfold has_patch_upgrade, has_minor_upgrade, has_major_upgrade,
    has_unknown_version, id_not_in, id_in, has_both_majors, items_eq,
    items_lt, Dict.mem, Dict.item.
  rewrite Hid, Hv.
  destruct Hc as [(a & b & c & C1 & C2 & C3) | C1];
    destruct Hav as [(a' & b' & c' & A1 & A2 & A3) | A1];
    rewrite ?C1, ?C2, ?C3, ?A1, ?A2, ?A3; simpl;
    repeat split; repeat case_bool_decide; simpl; by eexists.
Qed.

Lemma select_returns cond apps h :
  Forall (λ r, ∃ d b, h !! r = Some d ∧ cond d = inr b) apps →
  ∃ res, select cond apps h = inr (res, h).
Proof.
  induction apps as [|a apps IH]; intros Hall; [by exists []|].
  apply Forall_cons in Hall as [(d & b & Hd & Hc) Hall].
  destruct (IH Hall) as [res Hres]. simpl. unfold bind, reading.
  rewrite Hd, Hc, Hres. by eexists.
Qed.

Lemma settled_lookup h r :
  Forall settled h → (r < length h)%nat → ∃ d, h !! r = Some d ∧ settled d.
Proof.
  intros Hh Hr. destruct (lookup_lt_is_Some_2 h r Hr) as [d Hd].
  exists d. split; [done|]. by eapply Forall_lookup_1.
Qed.

Lemma get_applications_using_semver_returns apps h :
  Forall settled h → Forall (λ r, (r < length h)%nat) apps →
  ∃ res h',
    get_applications_using_semver apps h = inr (res, h')
    ∧ Forall settled h' ∧ length h' = length h.
Proof.
  revert h. induction apps as [|a apps IH]; intros h Hh Happs.
  - by exists [], h.
  - apply Forall_cons in Happs as [Ha Happs].
    destruct (settled_lookup _ _ Hh Ha) as (d & Hd & Hsd).
    destruct (settled_uses_semver _ Hsd) as [keep Hkeep].
    simpl. unfold bind at 1. unfold reading. rewrite Hd, Hkeep.
    destruct keep.
    + destruct (settled_annotate _ Hsd) as (d' & Hann & Hsd').
      unfold add_semver_details, bind, reading, store, ret. rewrite Hd, Hann.
      simpl.
      destruct (IH (<[a:=d']> h)) as (res & h' & Hres & Hh' & Hlen).
      * apply Forall_insert; done.
      * by rewrite length_insert.
      * rewrite Hres. exists (a :: res), h'.
        rewrite length_insert in Hlen. done.
    + by apply IH.
Qed.

Lemma valid_filter (P : nat → Prop) `{!∀ r, Decision (P r)} (n : nat) l :
  Forall (λ r, (r < n)%nat) l → Forall (λ r, (r < n)%nat) (filter P l).
Proof.
  rewrite !Forall_forall. intros Hl r [_ Hr]%list_elem_of_filter. by apply Hl.
Qed.

Lemma select_settled_returns cond apps h :
  (∀ d, settled d → ∃ b, cond d = inr b) →
  Forall settled h → Forall (λ r, (r < length h)%nat) apps →
  ∃ res,
    select cond apps h = inr (res, h)
    ∧ Forall (λ r, (r < length h)%nat) res.
Proof.
  intros Hcond Hh Happs.
  destruct (select_returns cond apps h) as [res Hres].
  - eapply Forall_impl; [exact Happs|]. intros r Hr. simpl in Hr.
    destruct (settled_lookup _ _ Hh Hr) as (d & Hd & Hsd).
    destruct (Hcond d Hsd) as [b Hb]. by exists d, b.
  - exists res. split; [done|].
    apply select_inr in Hres as [_ ->]. by apply valid_filter.
Qed.

Lemma get_apps_to_upgrade_returns apps level unk h :
  Forall settled h → Forall (λ r, (r < length h)%nat) apps →
  ∃ sel h',
    get_apps_to_upgrade apps level unk h = inr (sel, h')
    ∧ Forall settled h' ∧ length h' = length h
    ∧ Forall (λ r, (r < length h')%nat) sel.
Proof.
  intros Hh Happs.
  destruct (get_applications_using_semver_returns apps h Hh Happs)
    as (sem & h1 & Hsem & Hh1 & Hlen).
  unfold get_apps_to_upgrade, bind. rewrite Hsem.
  case_bool_decide.
  { exists apps, h1. by rewrite Hlen. }
  assert (Forall (λ r, (r < length h1)%nat) sem) as Hvalid.
  { apply get_applications_using_semver_inr in Hsem as [-> _].
    rewrite Hlen. by apply valid_filter. }
  destruct (select_settled_returns has_patch_upgrade sem h1)
    as (p & -> & Hp); [by intros d (? & _)%settled_conditions|done..|].
  destruct (select_settled_returns has_minor_upgrade sem h1)
    as (mi & -> & Hmi); [by intros d (_ & ? & _)%settled_conditions|done..|].
  destruct (select_settled_returns has_major_upgrade sem h1)
    as (ma & -> & Hma);
    [by intros d (_ & _ & ? & _)%settled_conditions|done..|].
  destruct (select_settled_returns has_unknown_version sem h1)
    as (u & -> & Hu);
    [by intros d (_ & _ & _ & ? & _)%settled_conditions|done..|].
  eexists _, h1. split; [done|]. split; [done|]. split; [done|].
  repeat case_bool_decide; destruct unk; rewrite ?Forall_app;
    repeat split; done || apply Forall_nil_2.
Qed.

Section Returns.

Variables allowed blocked : gset string.

(** On a heap of well-formed records the classifier returns. *)
Lemma classify_returns apps level unk h :
  Forall well_formed h → Forall (λ r, (r < length h)%nat) apps →
  ∃ res h', classify allowed blocked apps level unk h = inr (res, h').
Proof.
  intros Hwf Happs.
  assert (Forall settled h) as Hh.
  { eapply Forall_impl; [exact Hwf|]. intros d Hd. exists d. eauto. }
  destruct (get_applications_using_semver_returns apps h Hh Happs)
    as (sem & h1 & Hsem & Hh1 & Hlen1).
  assert (Forall (λ r, (r < length h1)%nat) sem) as Hvalid.
  { apply get_applications_using_semver_inr in Hsem as [-> _].
    rewrite Hlen1. by apply valid_filter. }
  destruct (get_apps_to_upgrade_returns sem level unk h1 Hh1 Hvalid)
    as (sel & h2 & Hsel & Hh2 & Hlen2 & Hvsel).
  unfold classify, level_selection, add_allowed_updates,
    remove_blocked_updates, bind.
  rewrite Hsem, Hsel.
  destruct (select_settled_returns (id_in allowed) apps h2)
    as (al & -> & Hal).
  { intros d (_ & _ & _ & _ & Hid)%settled_conditions. apply Hid. }
  { done. }
  { by rewrite Hlen2, Hlen1. }
  unfold ret, ok.
  destruct (select_settled_returns (id_not_in blocked) (sel ++ al) h2)
    as (res & -> & _).
  { intros d (_ & _ & _ & _ & Hid)%settled_conditions. apply Hid. }
  { done. }
  { by apply Forall_app. }
  by eexists _, _.
Qed.

End Returns.

Lemma fill_record_get_in row cols rec k :
  k ∈ cols.*1 → is_Some (Dict.get k (fill_record row cols rec)).
Proof.
  revert rec. induction cols as [|[key start] cols IH]; intros rec Hk.
  - by apply elem_of_nil in Hk.
  - cbn [fill_record].
    destruct (decide (k ∈ cols.*1)) as [Hin|Hin]; [by apply IH|].
    rewrite fill_record_get_other by done.
    apply elem_of_cons in Hk as [->|Hk]; [|done].
    by rewrite DictFacts.get_set_eq.
Qed.

Section PipelineReturns.

Variables allowed blocked : gset string.

(** On a table the parser accepts, whose header line has the columns [Id],
    [Version] and [Available] and no column named like a derived field,
    and none of whose fields is longer than the number of digits [int]
    takes, the whole pipeline returns, at every level and with the switch
    on or off: the statements above that start from a returned result are
    about every such table. *)
Theorem pipeline_returns (output level : string) (unk : bool)
    (records : list dict) (header_row : string) :
  extract_applications_from_table output = inr records →
  head (Str.split_on CRLF output) = Some header_row →
  "Id" ∈ Str.of_chars <$> header_labels header_row →
  "Version" ∈ Str.of_chars <$> header_labels header_row →
  "Available" ∈ Str.of_chars <$> header_labels header_row →
  (∀ k, k ∈ semver_keys → k ∉ Str.of_chars <$> header_labels header_row) →
  forallb short_fields records = true →
  ∃ res h', pipeline allowed blocked output level unk = inr (res, h').
Proof.
  intros Hrec Hhead Hid Hv Ha Hnone Hshort.
  unfold pipeline. rewrite Hrec. simpl. apply classify_returns.
  - rewrite forallb_forall in Hshort.
    unfold extract_applications_from_table in Hrec.
    apply rbind_inr in Hrec as (cols & Hcols & [= <-]).
    apply get_headers_labels in Hcols as (header_row' & Hhead' & Hl).
    apply head_drop_last_two in Hhead'.
    assert (header_row' = header_row) as -> by congruence.
    rewrite <-Hl in Hid, Hv, Ha, Hnone.
    apply Forall_fmap, Forall_forall. intros row Hrow.
    assert (short_fields (row_record cols row) = true) as Hs.
    { apply Hshort, list_elem_of_In, list_elem_of_fmap. eauto. }
    unfold row_record in *.
    split; [by apply all_str_fill_record|].
    repeat split; try done; try by apply fill_record_get_in.
    intros k Hk. by rewrite fill_record_get_other by by apply Hnone.
  - apply Forall_forall. intros r Hr%elem_of_seq. lia.
Qed.

End PipelineReturns.

(** The sample listing is such a table. *)
Example sample_returns level unk :
  ∃ res h', main_pipeline sample_output level unk = inr (res, h').
Proof.
  destruct (extract_applications_from_table sample_output) as [e|records] eqn:E;
    [by vm_compute in E|].
  assert (Str.of_chars <$> header_labels sample_header
          = ["Name"; "Id"; "Version"; "Available"; "Source"]) as Hlabels
    by (vm_compute; reflexivity).
  apply (pipeline_returns _ _ _ _ _ records sample_header); [done|done|..];
    rewrite ?Hlabels.
  - rewrite !elem_of_cons. tauto.
  - rewrite !elem_of_cons. tauto.
  - rewrite !elem_of_cons. tauto.
  - apply Forall_forall.
    repeat constructor; rewrite !not_elem_of_cons;
      repeat split; done || apply not_elem_of_nil.
  - vm_compute in E. injection E as <-. vm_compute; reflexivity.
Qed.

(** ** What annotation writes *)

Lemma write3_keys k1 k2 k3 n d :
  Dict.keys (write3 k1 k2 k3 n d) = foldl add_key (Dict.keys d) [k1; k2; k3].
Proof.
  destruct n as [[a b] c]. unfold write3. by rewrite !DictFacts.keys_set.
Qed.

(** An annotated dict holds, under the derived keys of each of the two
    fields, the numbers of the field when it matches and what it held
    before when it does not; its keys are those it had, followed by the
    derived keys that were assigned and that it did not have. *)
Lemma annotate_carries d d' :
  annotate d = inr d' →
  carries "Version" current_keys d d'
  ∧ carries "Available" available_keys d d'
  ∧ Dict.keys d' = foldl add_key (Dict.keys d) (written_keys d).
Proof.
  intros Hann. pose proof Hann as (d1 & H1 & H2)%annotate_inr.
  pose proof H1 as (sv & Hv & Hsv)%add_details_inr.
  pose proof H2 as (sa & Ha & Hsa)%add_details_inr.
  assert (Dict.get "Available" d = Some (VStr sa)) as Ha'
    by by rewrite <-(add_details_get_other _ _ _ _ _ _ _ H1) by by compute_done.
  split; [|split].
  - intros s Hs. assert (s = sv) as -> by congruence.
    unfold current_keys. cbn [fmap list_fmap].
    rewrite !(add_details_get_other _ _ _ _ _ _ _ H2) by by compute_done.
    destruct (Semver.matches sv).
    + destruct Hsv as ([[a b] c] & Hn & ->). exists a, b, c. split; [done|].
      destruct (write3_get "current_major" "current_minor" "current_patch"
                  a b c d) as (G1 & G2 & G3); [done..|].
      by rewrite G1, G2, G3.
    + by subst d1.
  - intros s Hs. assert (s = sa) as -> by congruence.
    unfold available_keys. cbn [fmap list_fmap].
    destruct (Semver.matches sa).
    + destruct Hsa as ([[a b] c] & Hn & ->). exists a, b, c. split; [done|].
      destruct (write3_get "available_major" "available_minor"
                  "available_patch" a b c d1) as (G1 & G2 & G3); [done..|].
      by rewrite G1, G2, G3.
    + subst d'.
      by rewrite !(add_details_get_other _ _ _ _ _ _ _ H1) by by compute_done.
  - unfold written_keys. rewrite Hv, Ha', foldl_app.
    assert (Dict.keys d1
            = foldl add_key (Dict.keys d)
                (if Semver.matches sv then current_keys else [])) as <-.
    { destruct (Semver.matches sv); [|by subst d1].
      destruct Hsv as (n & _ & ->). apply write3_keys. }
    destruct (Semver.matches sa); [|by subst d'].
    destruct Hsa as (n & _ & ->). apply write3_keys.
Qed.

(** A dict that passes the filter gets one triple of derived keys at
    least. *)
Lemma uses_semver_written d : uses_semver d = inr true → written_keys d ≠ [].
Proof.
  unfold uses_semver, written_keys, Dict.item.
  destruct (Dict.get "Version" d) as [[sv|n]|]; simpl; [|done..].
  destruct (Semver.matches sv); [done|].
  destruct (Dict.get "Available" d) as [[sa|n]|]; simpl; [|done..].
  by intros [= ->].
Qed.

(** A header line with a column named like a derived field: the value the
    parser read under it is overwritten by the number. *)
Example derived_column_is_overwritten :
  result_contents
    (main_pipeline
       (table ["Id       Version  Available  current_major";
               "--------------------------------------------";
               "Foo.Foo  1.0.0    1.0.1      zzz";
               "1 upgrades available."]) "all" false)
  = inr [[("Id", VStr "Foo.Foo"); ("Version", VStr "1.0.0");
          ("Available", VStr "1.0.1"); ("current_major", VInt 1);
          ("current_minor", VInt 0); ("current_patch", VInt 0);
          ("available_major", VInt 1); ("available_minor", VInt 0);
          ("available_patch", VInt 1)]].
Proof. vm_compute; reflexivity. Qed.

(** * The claims *)

(** ** Unknown versions *)

(** C1, as the code has it. For a record of the parser whose [Version] is
    ["unknown"] in any case of its letters, whose [Available] matches the
    pattern and whose identifier is in neither list: at every level but
    [all], the record is in the final list exactly when the
    unknown-version switch is on; at level [all] it is in the final list
    whatever the switch, like every record that passed the
    semantic-version filter. *)
Theorem unknown_version_switch (allowed blocked : gset string)
    (apps : list ref) (level : string) (unk : bool) (h h' : heap)
    (res : list ref) (r : ref) (d : dict) (version available id : string) :
  classify allowed blocked apps level unk h = inr (res, h') →
  parsed_shape h = true →
  r ∈ apps →
  h !! r = Some d →
  Dict.get "Version" d = Some (VStr version) →
  Str.lower version = "unknown" →
  Dict.get "Available" d = Some (VStr available) →
  Semver.matches available = true →
  Dict.get "Id" d = Some (VStr id) →
  id ∉ allowed →
  id ∉ blocked →
  (Str.lower level ≠ "all" → (r ∈ res ↔ unk = true))
  ∧ (Str.lower level = "all" → r ∈ res).
Proof.
  intros [Hann ->]%classify_inr Hshape Hin Hd Hv Hu Ha Hma Hid Hna Hnb.
  assert (Semver.matches version = false) as Hmv.
  { destruct (Semver.matches version) eqn:Hm; [|done].
    by apply matches_not_unknown in Hm. }
  assert (uses_semver d = inr true) as Hq.
  { unfold uses_semver, Dict.item. rewrite Hv. simpl. rewrite Hmv, Ha. simpl.
    by rewrite Hma. }
  assert (qualifies h r = true) as Hqr by (apply test_true; eauto).
  destruct (annotated_lookup _ _ _ _ _ Hann Hd) as (d' & Hd' & Hget & _ & Hd'').
  rewrite bool_decide_eq_true_2, Hqr in Hd'' by done. simpl in Hd''.
  assert (test (id_not_in blocked) h' r = true) as Hkeep.
  { apply test_true. exists d'. split; [done|]. apply id_not_in_true.
    exists (VStr id). rewrite (Hget "Id") by by compute_done.
    split; [done|]. by intros ? [= <-]. }
  assert (test (id_in allowed) h' r = false) as Hnot.
  { destruct (test (id_in allowed) h' r) eqn:Ht; [|done].
    apply test_true in Ht as (d0 & Hd0 & (s & Hs & Hsa)%id_in_true).
    assert (d0 = d') as -> by congruence.
    rewrite (Hget "Id"), Hid in Hs by by compute_done.
    by injection Hs as <-. }
  assert (test has_unknown_version h' r = true) as Hunk.
  { apply test_true. exists d'. split; [done|].
    unfold has_unknown_version, Dict.item.
    rewrite (Hget "Version"), Hv by by compute_done. simpl. unfold ok.
    by rewrite bool_decide_eq_true_2. }
  destruct (annotate_available _ _ _ Hd'' Ha Hma) as (a & b & c & _ & A1 & _).
  assert (∀ n, Dict.get "current_major" d' ≠ Some (VInt n)) as Hcur.
  { intros n.
    apply annotate_inr in Hd'' as (d1 & H1 & H2).
    rewrite (add_details_get_other _ _ _ _ _ _ _ H2) by by compute_done.
    apply add_details_inr in H1 as (s & Hs & Hd1).
    assert (s = version) as -> by congruence. rewrite Hmv in Hd1. subst d1.
    apply all_str_get. by eapply parsed_shape_lookup. }
  destruct (no_current_no_upgrade _ _ Hcur A1) as (P & Mi & Ma).
  assert (∀ cond, cond d' ≠ inr true → test cond h' r = false) as Hfalse.
  { intros cond Hc. unfold test. rewrite Hd'.
    destruct (cond d') as [|[]]; done. }
  apply Hfalse in P, Mi, Ma.
  assert (r ∈ filter (λ r, qualifies h r = true) apps) as Hsem
    by by apply list_elem_of_filter.
  split; intros Hlevel.
  - rewrite list_elem_of_filter, elem_of_app, !list_elem_of_filter.
    unfold selection. rewrite bool_decide_eq_false_2 by done.
    unfold chosen.
    repeat case_bool_decide; destruct unk;
      rewrite ?elem_of_app, ?list_elem_of_filter, ?elem_of_nil;
      rewrite ?P, ?Mi, ?Ma, ?Hunk, ?Hnot, ?Hkeep; intuition discriminate.
  - apply list_elem_of_filter. split; [done|]. apply elem_of_app. left.
    unfold selection. by rewrite bool_decide_eq_true_2.
Qed.

(** [Unknown] against [2.0.0] at level [minor] with the switch on. *)
Lemma unknown_version_switch_witness :
  ∃ res h',
    classify get_allowed_updates get_blocked_updates [0%nat] "minor" true
      [record "Unk" "Unk.U" "Unknown" "2.0.0"] = inr (res, h')
    ∧ (Str.lower "minor" ≠ "all" → (0%nat ∈ res ↔ true = true))
    ∧ (Str.lower "minor" = "all" → 0%nat ∈ res).
Proof.
  eexists _, _. split; [vm_compute; reflexivity|].
  eapply (unknown_version_switch get_allowed_updates get_blocked_updates
            [0%nat] "minor" true [record "Unk" "Unk.U" "Unknown" "2.0.0"] _ _
            0%nat (record "Unk" "Unk.U" "Unknown" "2.0.0")
            "Unknown" "2.0.0" "Unk.U").
  - vm_compute; reflexivity.
  - reflexivity.
  - apply list_elem_of_here.
  - reflexivity.
  - reflexivity.
  - vm_compute; reflexivity.
  - reflexivity.
  - vm_compute; reflexivity.
  - reflexivity.
  - vm_compute; discriminate.
  - vm_compute; discriminate.
Defined.

(** C1 as stated fails at level [all]: the record [Unknown], [2.0.0], whose
    identifier is in neither list, is in the final list with the
    unknown-version switch off. *)
Lemma unknown_version_at_level_all :
  references
    (classify get_allowed_updates get_blocked_updates [0%nat] "all" false
       [record "Unk" "Unk.U" "Unknown" "2.0.0"])
  = inr [0%nat]
  ∧ Str.lower "Unknown" = "unknown"
  ∧ Semver.matches "2.0.0" = true
  ∧ ("Unk.U" ∉ get_allowed_updates)
  ∧ ("Unk.U" ∉ get_blocked_updates).
Proof.
  repeat split; try (vm_compute; reflexivity); vm_compute; discriminate.
Qed.

(** ** Level [all] *)

(** C2, as the code has it. At level [all] the final list of the pipeline
    holds a parsed record exactly when its identifier is not in the
    block-list and either its [Version] or [Available] field matches the
    pattern or its identifier is in the allow-list. (A record of which
    neither field matches is dropped by the semantic-version filter [main]
    runs before the level is looked at.) Every field of a parsed record but
    the six derived names is as the parser read it. A record that passed
    the filter is what [add_semver_details] makes of it: for each of
    [Version] and [Available] that matches the pattern, its three numbers
    stand under the three derived keys of the field, one of the two at
    least, and its keys are the header-row keys followed by the derived
    keys that are not among them; a record that did not pass the filter is
    as the parser built it. *)
Theorem level_all_result (allowed blocked : gset string)
    (output level : string) (unk : bool) (res : list ref) (h' : heap) :
  pipeline allowed blocked output level unk = inr (res, h') →
  Str.lower level = "all" →
  ∃ records,
    extract_applications_from_table output = inr records
    ∧ ∀ r d id,
        records !! r = Some d →
        Dict.get "Id" d = Some (VStr id) →
        (r ∈ res ↔
           (id ∉ blocked) ∧ (uses_semver d = inr true ∨ id ∈ allowed))
        ∧ ∃ d', h' !! r = Some d'
                ∧ (∀ k, k ∉ semver_keys → Dict.get k d' = Dict.get k d)
                ∧ (uses_semver d = inr true →
                   annotate d = inr d'
                   ∧ carries "Version" current_keys d d'
                   ∧ carries "Available" available_keys d d'
                   ∧ written_keys d ≠ []
                   ∧ Dict.keys d'
                     = foldl add_key (Dict.keys d) (written_keys d))
                ∧ (uses_semver d ≠ inr true → d' = d).
Proof.
  unfold pipeline.
  intros (records & Hrec & [Hann ->]%classify_inr)%rbind_inr Hall%lower_all_twice.
  exists records. split; [done|]. intros r d id Hd Hid.
  destruct (annotated_lookup _ _ _ _ _ Hann Hd) as (d' & Hd' & Hget & _ & Hd'').
  assert (r ∈ seq 0 (length records)) as Hin.
  { apply elem_of_seq. apply lookup_lt_Some in Hd. lia. }
  assert (qualifies records r = true ↔ uses_semver d = inr true) as Hq.
  { unfold qualifies. rewrite test_true. split.
    - intros (d0 & Hd0 & ?). congruence.
    - eauto. }
  split; [|exists d'; split; [done|]; split; [done|]; split].
  2:{ intros Hu. pose proof Hu as Hqr%Hq.
      rewrite bool_decide_eq_true_2, Hqr in Hd'' by done. simpl in Hd''.
      destruct (annotate_carries _ _ Hd'') as (Hcv & Hca & Hk).
      repeat split; try done. by apply uses_semver_written. }
  2:{ intros Hu. destruct (qualifies records r) eqn:Hqr.
      - by destruct Hu; apply Hq.
      - by rewrite andb_false_r in Hd''. }
  assert (test (id_not_in blocked) h' r = true ↔ id ∉ blocked) as Hbl.
  { rewrite test_true. split.
    - intros (d0 & Hd0 & (v & Hv & Hs)%id_not_in_true).
      assert (d0 = d') as -> by congruence.
      rewrite (Hget "Id"), Hid in Hv by by compute_done.
      apply Hs. congruence.
    - intros Hs. exists d'. split; [done|]. apply id_not_in_true.
      exists (VStr id). rewrite (Hget "Id") by by compute_done.
      split; [done|]. by intros ? [= <-]. }
  assert (test (id_in allowed) h' r = true ↔ id ∈ allowed) as Hal.
  { rewrite test_true. split.
    - intros (d0 & Hd0 & (s & Hs & Hsa)%id_in_true).
      assert (d0 = d') as -> by congruence.
      rewrite (Hget "Id"), Hid in Hs by by compute_done. congruence.
    - intros Hs. exists d'. split; [done|]. apply id_in_true.
      exists id. by rewrite (Hget "Id") by by compute_done. }
  rewrite list_elem_of_filter, elem_of_app, Hbl. unfold selection.
  rewrite bool_decide_eq_true_2 by done.
  rewrite !list_elem_of_filter, Hal, Hq. tauto.
Qed.

(** The sample listing at level [all]: [Foo.Foo] (a version that matches)
    and [Python.Python.3] (on the allow-list) are in the result. *)
Lemma level_all_result_witness :
  ∃ res h' records,
    main_pipeline sample_output "ALL" false = inr (res, h')
    ∧ extract_applications_from_table sample_output = inr records
    ∧ ∀ r d id,
        records !! r = Some d →
        Dict.get "Id" d = Some (VStr id) →
        (r ∈ res ↔
           (id ∉ get_blocked_updates)
           ∧ (uses_semver d = inr true ∨ id ∈ get_allowed_updates))
        ∧ ∃ d', h' !! r = Some d'
                ∧ (∀ k, k ∉ semver_keys → Dict.get k d' = Dict.get k d)
                ∧ (uses_semver d = inr true →
                   annotate d = inr d'
                   ∧ carries "Version" current_keys d d'
                   ∧ carries "Available" available_keys d d'
                   ∧ written_keys d ≠ []
                   ∧ Dict.keys d'
                     = foldl add_key (Dict.keys d) (written_keys d))
                ∧ (uses_semver d ≠ inr true → d' = d).
Proof.
  eexists _, _, _. split; [vm_compute; reflexivity|].
  split; [vm_compute; reflexivity|].
  edestruct (level_all_result get_allowed_updates get_blocked_updates
               sample_output "ALL" false)
    as (records & Hrec & H).
  - vm_compute; reflexivity.
  - vm_compute; reflexivity.
  - vm_compute in Hrec. injection Hrec as <-. exact H.
Defined.

(** C2 as stated fails: in the sample listing the record [Bar.Bar], whose
    versions [2021a] and [2022b] do not match the pattern and whose
    identifier is not in the block-list, is parsed and is not in the result
    at level [all]; and the record [Foo.Foo], which is in the result, holds
    six fields more than the parser gave it. *)
Lemma level_all_drops_other_versions :
  extract_applications_from_table sample_output = inr sample_records
  ∧ ("Bar.Bar" ∉ get_blocked_updates)
  ∧ references (main_pipeline sample_output "all" false) = inr [0; 2]%nat
  ∧ result_contents (main_pipeline sample_output "all" false)
    = inr [ with_numbers (record "Foo" "Foo.Foo" "1.0.0" "1.0.1")
              (1, 0, 0) (1, 0, 1);
            record "Python" "Python.Python.3" "3.9" "3.10" ].
Proof.
  repeat split; try (vm_compute; reflexivity); vm_compute; discriminate.
Qed.

(** ** The block-list *)

(** C3. Whatever the records, the level, the unknown-version switch and the
    two lists, a record whose identifier is in the block-list is not in the
    final list of the pipeline, also when the identifier is in the
    allow-list: the block-list is subtracted last. *)
Theorem block_list_wins (allowed blocked : gset string) (apps : list ref)
    (level : string) (unk : bool) (h h' : heap) (res : list ref)
    (r : ref) (d : dict) (s : string) :
  classify allowed blocked apps level unk h = inr (res, h') →
  h !! r = Some d →
  Dict.get "Id" d = Some (VStr s) →
  s ∈ blocked →
  r ∉ res.
Proof.
  intros [Hann ->]%classify_inr Hd Hid Hs [Ht _]%list_elem_of_filter.
  apply test_true in Ht as (d' & Hd' & (v & Hv & Hns)%id_not_in_true).
  rewrite (classified_field _ _ _ _ _ _ "Id" Hann Hd Hd') in Hv
    by by compute_done.
  apply (Hns s); [congruence | done].
Qed.

(** An identifier in both lists and a patch upgrade, at level [patch]. *)
Lemma block_list_wins_witness :
  ∃ res h',
    classify {[ "Foo.Foo" ]} {[ "Foo.Foo" ]} [0%nat] "patch" true
      [record "Foo" "Foo.Foo" "1.0.0" "1.0.1"] = inr (res, h')
    ∧ 0%nat ∉ res.
Proof.
  eexists _, _. split; [vm_compute; reflexivity|].
  eapply (block_list_wins {[ "Foo.Foo" ]} {[ "Foo.Foo" ]} [0%nat] "patch" true
           [record "Foo" "Foo.Foo" "1.0.0" "1.0.1"]
           _ _ 0%nat (record "Foo" "Foo.Foo" "1.0.0" "1.0.1") "Foo.Foo").
  - vm_compute; reflexivity.
  - reflexivity.
  - reflexivity.
  - vm_compute; reflexivity.
Defined.

(** ** Annotation and the parsed records *)

(** C4, as the code has it. Classification writes into the dicts the parser
    built, and makes no copy: after it a record that passed the
    semantic-version filter is what [add_semver_details] makes of it.
    Every field but the six derived names is unchanged; for each of
    [Version] and [Available] that matches the pattern, the three numbers
    of the field stand under its three derived keys, and one of the two
    matches at least; the keys are those the record had, in their order,
    followed by the derived keys that were assigned and that it did not
    have. Every other record is as it was, and no record is added or
    removed. *)
Theorem annotation_in_place (allowed blocked : gset string) (apps : list ref)
    (level : string) (unk : bool) (h h' : heap) (res : list ref) :
  classify allowed blocked apps level unk h = inr (res, h') →
  length h' = length h
  ∧ ∀ r d,
      h !! r = Some d →
      if bool_decide (r ∈ apps) && qualifies h r
      then ∃ d', h' !! r = Some d'
                 ∧ annotate d = inr d'
                 ∧ (∀ k, k ∉ semver_keys → Dict.get k d' = Dict.get k d)
                 ∧ carries "Version" current_keys d d'
                 ∧ carries "Available" available_keys d d'
                 ∧ written_keys d ≠ []
                 ∧ Dict.keys d `prefix_of` Dict.keys d'
                 ∧ Dict.keys d'
                   = foldl add_key (Dict.keys d) (written_keys d)
      else h' !! r = Some d.
Proof.
  intros [Hann _]%classify_inr. split; [apply Hann|].
  intros r d Hd.
  destruct (annotated_lookup _ _ _ _ _ Hann Hd) as (d' & Hd' & Hget & Hpre & Hc).
  destruct (bool_decide (r ∈ apps) && qualifies h r) eqn:Hq.
  - apply andb_true_iff in Hq as [_ Hq].
    apply test_true in Hq as (d0 & Hd0 & Hu).
    assert (d0 = d) as -> by congruence.
    destruct (annotate_carries _ _ Hc) as (Hcv & Hca & Hk).
    exists d'. repeat split; try done. by apply uses_semver_written.
  - by subst.
Qed.

Lemma annotation_in_place_witness :
  ∃ res h',
    classify get_allowed_updates get_blocked_updates [0; 1]%nat "patch" false
      two_records = inr (res, h')
    ∧ length h' = length two_records
    ∧ ∀ r d,
        two_records !! r = Some d →
        if bool_decide (r ∈ [0; 1]%nat) && qualifies two_records r
        then ∃ d', h' !! r = Some d'
                   ∧ annotate d = inr d'
                   ∧ (∀ k, k ∉ semver_keys → Dict.get k d' = Dict.get k d)
                   ∧ carries "Version" current_keys d d'
                   ∧ carries "Available" available_keys d d'
                   ∧ written_keys d ≠ []
                   ∧ Dict.keys d `prefix_of` Dict.keys d'
                   ∧ Dict.keys d'
                     = foldl add_key (Dict.keys d) (written_keys d)
        else h' !! r = Some d.
Proof.
  eexists _, _. split; [vm_compute; reflexivity|].
  eapply (annotation_in_place get_allowed_updates get_blocked_updates
            [0; 1]%nat "patch" false two_records).
  vm_compute; reflexivity.
Defined.

(** C4 as stated fails: after the pipeline has run on the sample listing,
    the dicts the parser built for [Foo.Foo] and [EvanCzaplicki.Elm] hold
    the five keys of the header row and six keys more. *)
Lemma parsed_record_is_annotated :
  extract_applications_from_table sample_output = inr sample_records
  ∧ final_heap (main_pipeline sample_output "patch" false)
    = inr [ with_numbers (record "Foo" "Foo.Foo" "1.0.0" "1.0.1")
              (1, 0, 0) (1, 0, 1);
            record "Bar" "Bar.Bar" "2021a" "2022b";
            record "Python" "Python.Python.3" "3.9" "3.10";
            with_numbers (record "Elm" "EvanCzaplicki.Elm" "0.19.0" "0.19.1")
              (0, 19, 0) (0, 19, 1) ]
  ∧ Dict.keys (record "Foo" "Foo.Foo" "1.0.0" "1.0.1")
    = ["Name"; "Id"; "Version"; "Available"; "Source"]
  ∧ Dict.keys (with_numbers (record "Foo" "Foo.Foo" "1.0.0" "1.0.1")
                 (1, 0, 0) (1, 0, 1))
    = ["Name"; "Id"; "Version"; "Available"; "Source";
       "current_major"; "current_minor"; "current_patch";
       "available_major"; "available_minor"; "available_patch"].
Proof. repeat split; vm_compute; reflexivity. Qed.

(** ** Malformed tables *)

(** C5. When the text has fewer than two lines, or its first line has no
    printable label, the parser raises and returns no record. The exception
    is Python's [IndexError], from [rows[0]] or from [headers[0]]: it is the
    only one the parser raises, and what the specification calls
    [MalformedTableError]. *)
Theorem malformed_table_fails (output : string) :
  (length (Str.split_on CRLF output) < 2)%nat
  ∨ (∃ header_row,
        head (Str.split_on CRLF output) = Some header_row
        ∧ header_labels header_row = []) →
  extract_applications_from_table output = inl IndexError.
Proof.
  unfold extract_applications_from_table, drop_last_two.
  intros [Hlen|(header_row & Hhead & Hl)].
  - replace (length (Str.split_on CRLF output) - 2)%nat with 0%nat by lia.
    by rewrite take_0.
  - destruct (Str.split_on CRLF output) as [|row rows]; [done|].
    injection Hhead as ->.
    destruct (length (header_row :: rows) - 2)%nat; [done|].
    simpl. by rewrite Hl.
Qed.

(** The empty text, and a table whose header line is blank. *)
Lemma malformed_table_fails_witness :
  extract_applications_from_table "" = inl IndexError
  ∧ extract_applications_from_table
      (table ["   "; "-----"; "Foo  1.0.0"; "1 upgrades available."])
    = inl IndexError.
Proof.
  split.
  - apply (malformed_table_fails ""). left. vm_compute. lia.
  - apply (malformed_table_fails
             (table ["   "; "-----"; "Foo  1.0.0"; "1 upgrades available."])).
    right. exists "   ". split; vm_compute; reflexivity.
Defined.

(** ** The keys of a record *)

(** C6, as the code has it. The keys of every record the parser returns are
    the printable labels of the header line, each once, in the order of
    their first occurrences; when the labels are pairwise different these
    are the [k] labels themselves, in their order. (A label that occurs
    twice gives one key.) *)
Theorem record_keys (output : string) (records : list dict) :
  extract_applications_from_table output = inr records →
  ∃ header_row,
    head (Str.split_on CRLF output) = Some header_row
    ∧ ∀ record,
        record ∈ records →
        Dict.keys record
        = first_occurrences (Str.of_chars <$> header_labels header_row)
        ∧ (NoDup (header_labels header_row) →
           Dict.keys record = Str.of_chars <$> header_labels header_row
           ∧ length (Dict.keys record) = length (header_labels header_row)).
Proof.
  unfold extract_applications_from_table.
  intros (cols & Hcols & [= <-])%rbind_inr.
  apply get_headers_labels in Hcols as (header_row & Hhead & Hl).
  exists header_row. split; [by apply head_drop_last_two|].
  intros record (row & -> & _)%list_elem_of_fmap.
  unfold row_record. rewrite keys_fill_record, Hl. split; [done|].
  intros Hnd. rewrite foldl_add_key_NoDup.
  - simpl. split; [done|]. by rewrite length_fmap.
  - simpl. by apply (NoDup_fmap_2 Str.of_chars).
Qed.

Lemma record_keys_witness :
  ∃ records header_row,
    extract_applications_from_table sample_output = inr records
    ∧ head (Str.split_on CRLF sample_output) = Some header_row
    ∧ ∀ record,
        record ∈ records →
        Dict.keys record
        = first_occurrences (Str.of_chars <$> header_labels header_row)
        ∧ (NoDup (header_labels header_row) →
           Dict.keys record = Str.of_chars <$> header_labels header_row
           ∧ length (Dict.keys record) = length (header_labels header_row)).
Proof.
  eexists _, _. split; [vm_compute; reflexivity|].
  edestruct (record_keys sample_output) as (header_row & Hhead & H);
    [vm_compute; reflexivity|].
  vm_compute in Hhead. injection Hhead as <-.
  split; [vm_compute; reflexivity|]. exact H.
Defined.

(** C6 as stated fails: the header line [Id Id] has two labels, and the
    record of the row has one key. *)
Lemma repeated_label_one_key :
  header_labels "Id Id" = [Str.chars "Id"; Str.chars "Id"]
  ∧ extract_applications_from_table
      (table ["Id Id"; "-----"; "Foo Bar"; "1 upgrades available."])
    = inr [[("Id", VStr "Foo Bar")]].
Proof. split; vm_compute; reflexivity. Qed.

(** ** Equal versions *)

(** C7. A record whose [Version] and [Available] both match the pattern and
    give the same three numbers is not selected by [get_apps_to_upgrade] at
    level [patch], [minor] or [major] (at any level but [all]), with or
    without the unknown-version switch. *)
Theorem equal_versions_never_selected (apps : list ref) (level : string)
    (unk : bool) (h h' : heap) (sel : list ref) (r : ref) (d : dict)
    (version available : string) :
  get_apps_to_upgrade apps level unk h = inr (sel, h') →
  Str.lower level ≠ "all" →
  h !! r = Some d →
  Dict.get "Version" d = Some (VStr version) →
  Dict.get "Available" d = Some (VStr available) →
  Semver.matches version = true →
  Semver.matches available = true →
  version_numbers version = version_numbers available →
  r ∉ sel.
Proof.
  intros [Hann ->]%get_apps_to_upgrade_inr Hlevel Hd Hv Ha Hmv Hma Heq Hr.
  rewrite bool_decide_eq_false_2 in Hr by done.
  pose proof (chosen_subseteq _ _ _ _ _ Hr) as [Hq Hin]%list_elem_of_filter.
  destruct (annotated_lookup _ _ _ _ _ Hann Hd) as (d' & Hd' & Hget & _ & Hd'').
  rewrite bool_decide_eq_true_2, Hq in Hd'' by done. simpl in Hd''.
  destruct (annotate_current _ _ _ Hd'' Hv Hmv) as (a & b & c & Hn & C1 & C2 & C3).
  destruct (annotate_available _ _ _ Hd'' Ha Hma)
    as (a' & b' & c' & Hn' & A1 & A2 & A3).
  assert (a' = a ∧ b' = b ∧ c' = c) as (-> & -> & ->)
    by (rewrite Heq, Hn' in Hn; by injection Hn).
  destruct (equal_numbers_no_upgrade _ _ _ _ C1 C2 C3 A1 A2 A3) as (P & Mi & Ma).
  assert (has_unknown_version d' = inr false) as U.
  { unfold has_unknown_version, Dict.item.
    rewrite (Hget "Version"), Hv by by compute_done. simpl. unfold ok.
    by rewrite bool_decide_eq_false_2 by by apply matches_not_unknown. }
  apply (test_false _ _ _ _ Hd') in P, Mi, Ma, U.
  unfold chosen in Hr.
  repeat case_bool_decide; destruct unk;
    rewrite ?elem_of_app, ?list_elem_of_filter, ?elem_of_nil in Hr;
    rewrite ?P, ?Mi, ?Ma, ?U in Hr; intuition discriminate.
Qed.

(** [1.2.3] against [1.2.3] at level [major] with the switch on. *)
Lemma equal_versions_never_selected_witness :
  ∃ sel h',
    get_apps_to_upgrade [0%nat] "major" true
      [record "Foo" "Foo.Foo" "1.2.3" "1.2.3"] = inr (sel, h')
    ∧ 0%nat ∉ sel.
Proof.
  eexists _, _. split; [vm_compute; reflexivity|].
  eapply (equal_versions_never_selected [0%nat] "major" true
            [record "Foo" "Foo.Foo" "1.2.3" "1.2.3"] _ _ 0%nat
            (record "Foo" "Foo.Foo" "1.2.3" "1.2.3") "1.2.3" "1.2.3").
  - vm_compute; reflexivity.
  - vm_compute; discriminate.
  - reflexivity.
  - reflexivity.
  - reflexivity.
  - vm_compute; reflexivity.
  - vm_compute; reflexivity.
  - reflexivity.
Defined.

(** ** The three levels *)

(** C8. On the same records and with the same unknown-version switch,
    [get_apps_to_upgrade] either raises the same exception at the three
    levels, or returns at the three of them, and then every record selected
    at level [patch] is selected at level [minor], and every record selected
    at level [minor] is selected at level [major]. *)
Theorem level_monotonicity (apps : list ref) (unk : bool) (h : heap) :
  (∃ e,
      get_apps_to_upgrade apps "patch" unk h = inl e
      ∧ get_apps_to_upgrade apps "minor" unk h = inl e
      ∧ get_apps_to_upgrade apps "major" unk h = inl e)
  ∨ (∃ patch minor major h',
        get_apps_to_upgrade apps "patch" unk h = inr (patch, h')
        ∧ get_apps_to_upgrade apps "minor" unk h = inr (minor, h')
        ∧ get_apps_to_upgrade apps "major" unk h = inr (major, h')
        ∧ patch ⊆ minor ∧ minor ⊆ major).
Proof.
  unfold get_apps_to_upgrade, bind.
  destruct (get_applications_using_semver apps h) as [e|[sem h1]];
    [left; by exists e|].
  replace (bool_decide (Str.lower "patch" = "all")) with false by done.
  replace (bool_decide (Str.lower "minor" = "all")) with false by done.
  replace (bool_decide (Str.lower "major" = "all")) with false by done.
  destruct (select has_patch_upgrade sem h1) as [e|[p h2]];
    [left; by exists e|].
  destruct (select has_minor_upgrade sem h2) as [e|[mi h3]];
    [left; by exists e|].
  destruct (select has_major_upgrade sem h3) as [e|[ma h4]];
    [left; by exists e|].
  destruct (select has_unknown_version sem h4) as [e|[u h5]];
    [left; by exists e|].
  right. eexists _, _, _, _. repeat split.
  - intros r. simpl. destruct unk; rewrite ?elem_of_app; tauto.
  - intros r. simpl. destruct unk; rewrite ?elem_of_app; tauto.
Qed.

(** ** Rows and records *)

(** C9, as the code has it. For a text that splits at the line separators
    into a header line with a printable label, a separator line, [N] data
    lines and two more lines, the parser returns [N] records, the [j]-th
    from the [j]-th data line. A data line no longer than the start offset
    of a column and of every column after it gives the empty string for all
    of them; when the start offsets do not decrease from left to right,
    that is every data line no longer than the start offset of the column. *)
Theorem one_record_per_row (output header_row separator t1 t2 : string)
    (data : list string) :
  Str.split_on CRLF output = header_row :: separator :: data ++ [t1; t2] →
  header_labels header_row ≠ [] →
  ∃ cols,
    get_headers_and_their_starting_positions [header_row] = inr cols
    ∧ extract_applications_from_table output = inr (row_record cols <$> data)
    ∧ length (row_record cols <$> data) = length data
    ∧ (∀ row p key,
         row ∈ data →
         Forall (λ c, Z.of_nat (length (Str.chars row)) ≤ c.2) (drop p cols) →
         key ∈ (drop p cols).*1 →
         Dict.get key (row_record cols row) = Some (VStr ""))
    ∧ (StronglySorted Z.le cols.*2 →
       ∀ row p label start key,
         row ∈ data →
         cols !! p = Some (label, start) →
         Z.of_nat (length (Str.chars row)) ≤ start →
         key ∈ (drop p cols).*1 →
         Dict.get key (row_record cols row) = Some (VStr "")).
Proof.
  intros Hsplit Hlabels.
  destruct (get_headers_and_their_starting_positions [header_row])
    as [e|cols] eqn:Hcols.
  { unfold get_headers_and_their_starting_positions in Hcols.
    by destruct (header_labels header_row). }
  exists cols. split; [done|]. split; [|split; [|split]].
  - unfold extract_applications_from_table. rewrite Hsplit.
    replace (drop_last_two (header_row :: separator :: data ++ [t1; t2]))
      with (header_row :: separator :: data).
    + unfold get_headers_and_their_starting_positions in *.
      destruct (header_labels header_row); [done|]. simpl.
      by injection Hcols as <-.
    + unfold drop_last_two.
      change (header_row :: separator :: data ++ [t1; t2])
        with ((header_row :: separator :: data) ++ [t1; t2]).
      rewrite length_app. simpl length.
      replace (S (S (length data)) + 2 - 2)%nat
        with (length (header_row :: separator :: data)) by (simpl; lia).
      by rewrite take_app_length.
  - by rewrite length_fmap.
  - intros row p key _. apply row_record_empty_from.
  - intros Hsorted row p label start key _ Hp Hlen.
    apply row_record_empty_from.
    assert (drop p cols = (label, start) :: drop (S p) cols) as Hdrop
      by by apply drop_S.
    rewrite Hdrop.
    rewrite <-(take_drop p cols), fmap_app, Hdrop, fmap_cons in Hsorted.
    apply StronglySorted_app_1_r, StronglySorted_inv in Hsorted as [_ Hall].
    apply Forall_cons. split; [done|].
    rewrite Forall_fmap in Hall. eapply Forall_impl; [exact Hall|].
    intros [k s] Hs. simpl in *. lia.
Qed.

(** The sample listing: four data lines, four records. *)
Lemma one_record_per_row_witness :
  ∃ cols,
    extract_applications_from_table sample_output
    = inr (row_record cols <$> sample_rows)
    ∧ length (row_record cols <$> sample_rows) = length sample_rows.
Proof.
  destruct (one_record_per_row sample_output sample_header sample_separator
              "4 upgrades available." "" sample_rows)
    as (cols & _ & Hrec & Hlen & _).
  - vm_compute; reflexivity.
  - vm_compute; discriminate.
  - exists cols. split; [exact Hrec | exact Hlen].
Defined.

(** C9 as stated fails in its last part: under the header line [xb cc b]
    the label [b] is first found inside [xb], so the columns start at 0, 3
    and 1; the data line [pq], shorter than the start offset of [cc], gives
    the empty string for [cc] and [q] for the column [b] after it. *)
Lemma short_row_fills_later_column :
  get_headers_and_their_starting_positions ["xb cc b"]
  = inr [("xb", 0); ("cc", 3); ("b", 1)]
  ∧ Z.of_nat (length (Str.chars "pq")) < 3
  ∧ extract_applications_from_table
      (table ["xb cc b"; "-------"; "pq"; "1 upgrades available."])
    = inr [[("xb", VStr "pq"); ("cc", VStr ""); ("b", VStr "q")]].
Proof. repeat split; vm_compute; reflexivity. Qed.

(** ** Allow-listed and selected *)

(** C10, as the code has it. A record that the level selection of [main]
    returns (at level [all]: a record that passed the semantic-version
    filter), whose identifier is in the allow-list and not in the
    block-list, is in the final list twice at least: once from the level
    selection and once more from the allow-list step, which reads the
    parsed records again. *)
Theorem allowed_and_selected_twice (allowed blocked : gset string)
    (apps : list ref) (level : string) (unk : bool) (h h1 h' : heap)
    (sel res : list ref) (r : ref) (d : dict) (id : string) :
  classify allowed blocked apps level unk h = inr (res, h') →
  level_selection apps level unk h = inr (sel, h1) →
  r ∈ sel →
  h !! r = Some d →
  Dict.get "Id" d = Some (VStr id) →
  id ∈ allowed →
  id ∉ blocked →
  ∃ l1 l2 l3, res = l1 ++ r :: l2 ++ r :: l3.
Proof.
  intros Hc Hsel Hr Hd Hid Hal Hnb.
  pose proof Hc as [Hann ->]%classify_inr.
  unfold classify in Hc.
  apply bind_inr in Hc as (sel' & h1' & Hsel' & Hrest).
  assert (sel' = sel) as -> by congruence.
  assert (h1' = h1) as -> by congruence.
  apply bind_inr in Hrest as (added & h2 & Hadd & [Hh2 _]%select_inr).
  unfold add_allowed_updates in Hadd.
  apply bind_inr in Hadd as (al & h3 & [Hh3 _]%select_inr & [_ Hh2']%ret_inr).
  assert (h1 = h') as -> by congruence.
  apply level_selection_inr in Hsel' as [_ Hsel'].
  rewrite <-Hsel'.
  destruct (annotated_lookup _ _ _ _ _ Hann Hd) as (d' & Hd' & Hget & _).
  assert (test (id_not_in blocked) h' r = true) as Hkeep.
  { apply test_true. exists d'. split; [done|]. apply id_not_in_true.
    exists (VStr id). rewrite (Hget "Id") by by compute_done.
    split; [done|]. by intros ? [= <-]. }
  assert (r ∈ filter (λ r, test (id_in allowed) h' r = true) apps) as Hra.
  { apply list_elem_of_filter. split.
    - apply test_true. exists d'. split; [done|]. apply id_in_true.
      exists id. by rewrite (Hget "Id") by by compute_done.
    - rewrite Hsel' in Hr. by apply selection_subseteq in Hr as [? _]. }
  apply list_elem_of_split in Hr as (s1 & s2 & ->).
  apply list_elem_of_split in Hra as (a1 & a2 & ->).
  set (P := λ x, test (id_not_in blocked) h' x = true).
  exists (filter P s1), (filter P s2 ++ filter P a1), (filter P a2).
  rewrite !filter_app, !(filter_cons_True P r) by done.
  by rewrite <-!app_assoc.
Qed.

(** An allow-listed application with a patch upgrade, at level [patch]. *)
Lemma allowed_and_selected_twice_witness :
  ∃ h',
    classify get_allowed_updates get_blocked_updates [0%nat] "patch" false
      [record "Python" "Python.Python.3" "3.9.1" "3.9.2"]
    = inr ([0; 0]%nat, h')
    ∧ ∃ l1 l2 l3, [0; 0]%nat = l1 ++ 0%nat :: l2 ++ 0%nat :: l3.
Proof.
  eexists. split; [vm_compute; reflexivity|].
  eapply (allowed_and_selected_twice get_allowed_updates get_blocked_updates
            [0%nat] "patch" false
            [record "Python" "Python.Python.3" "3.9.1" "3.9.2"]).
  - vm_compute; reflexivity.
  - vm_compute; reflexivity.
  - apply list_elem_of_here.
  - reflexivity.
  - reflexivity.
  - vm_compute; reflexivity.
  - vm_compute; discriminate.
Defined.

(** C10 as stated fails at level [all]: in the sample listing the record of
    [Python.Python.3], on the allow-list and not on the block-list, is in
    the final list once, because its versions [3.9] and [3.10] do not match
    the pattern. *)
Lemma allowed_once_at_level_all :
  extract_applications_from_table sample_output = inr sample_records
  ∧ sample_records !! 2%nat
    = Some (record "Python" "Python.Python.3" "3.9" "3.10")
  ∧ "Python.Python.3" ∈ get_allowed_updates
  ∧ ("Python.Python.3" ∉ get_blocked_updates)
  ∧ references (main_pipeline sample_output "all" false) = inr [0; 2]%nat.
Proof.
  repeat split; try (vm_compute; reflexivity); vm_compute; discriminate.
Qed.

(** * Further properties of the code *)

(** ** The parser: errors, fields, texts *)

(** The rows the parser reads when the text splits into a header line, a
    separator line, data lines and two more lines. *)
Lemma extract_of_lines output header_row separator t1 t2 data cols :
  Str.split_on CRLF output = header_row :: separator :: data ++ [t1; t2] →
  get_headers_and_their_starting_positions [header_row] = inr cols →
  extract_applications_from_table output = inr (row_record cols <$> data).
Proof.
  intros Hsplit Hcols. unfold extract_applications_from_table. rewrite Hsplit.
  replace (drop_last_two (header_row :: separator :: data ++ [t1; t2]))
    with (header_row :: separator :: data).
  - unfold get_headers_and_their_starting_positions in *.
    destruct (header_labels header_row); [done|]. simpl.
    by injection Hcols as <-.
  - unfold drop_last_two.
    change (header_row :: separator :: data ++ [t1; t2])
      with ((header_row :: separator :: data) ++ [t1; t2]).
    rewrite length_app. simpl length.
    replace (S (S (length data)) + 2 - 2)%nat
      with (length (header_row :: separator :: data)) by (simpl; lia).
    by rewrite take_app_length.
Qed.

(** X1. The parser raises [IndexError] and nothing else, and it raises
    exactly when the text has fewer than three lines (nothing is left after
    the last two are dropped) or its first line has no printable label. *)
Theorem parser_raises_exactly (output : string) (e : exn) :
  extract_applications_from_table output = inl e ↔
  e = IndexError
  ∧ ((length (Str.split_on CRLF output) < 3)%nat
     ∨ ∃ header_row,
         head (Str.split_on CRLF output) = Some header_row
         ∧ header_labels header_row = []).
Proof.
  split; [apply extract_applications_from_table_raises|].
  unfold extract_applications_from_table, drop_last_two.
  intros [-> [Hlen|(header_row & Hhead & Hl)]].
  - replace (length (Str.split_on CRLF output) - 2)%nat with 0%nat by lia.
    by rewrite take_0.
  - destruct (Str.split_on CRLF output) as [|row rows]; [done|].
    injection Hhead as ->.
    destruct (length (header_row :: rows) - 2)%nat; [done|].
    simpl. by rewrite Hl.
Qed.

(** Under pairwise different labels, what a column holds. *)
Lemma fill_record_lookup row cols rec i key start :
  NoDup cols.*1 → cols !! i = Some (key, start) →
  Dict.get key (fill_record row cols rec)
  = Some (VStr (Str.of_chars
                  (Str.strip (Str.slice row start (snd <$> cols !! S i))))).
Proof.
  revert i rec. induction cols as [|[k0 s0] cols IH]; intros i rec Hnd Hi.
  - done.
  - apply NoDup_cons in Hnd as [Hk0 Hnd]. cbn [fill_record].
    destruct i as [|i].
    + injection Hi as -> ->.
      rewrite fill_record_get_other, DictFacts.get_set_eq by done.
      by destruct cols as [|[? ?] ?].
    + by apply IH.
Qed.

(** X2. Under a header line whose labels are pairwise different, the field
    of a record under the [i]-th label is the slice of its data line from
    the start offset of that column to the start offset of the next one
    (to the end of the line for the last column), without the white space
    around it. *)
Theorem field_is_trimmed_slice (output header_row separator t1 t2 : string)
    (data : list string) (cols : list (string * Z)) (j i : nat)
    (row key : string) (start : Z) :
  Str.split_on CRLF output = header_row :: separator :: data ++ [t1; t2] →
  get_headers_and_their_starting_positions [header_row] = inr cols →
  NoDup cols.*1 →
  data !! j = Some row →
  cols !! i = Some (key, start) →
  ∃ records record,
    extract_applications_from_table output = inr records
    ∧ records !! j = Some record
    ∧ Dict.get key record
      = Some (VStr (Str.of_chars
                      (Str.strip
                         (Str.slice (Str.chars row) start
                            (snd <$> cols !! S i))))).
Proof.
  intros Hsplit Hcols Hnd Hrow Hi.
  exists (row_record cols <$> data), (row_record cols row).
  split; [by eapply extract_of_lines|].
  split; [by rewrite list_lookup_fmap, Hrow|].
  by apply fill_record_lookup.
Qed.

(** The version of [Foo.Foo] in the sample listing. *)
Lemma field_is_trimmed_slice_witness :
  ∃ records record,
    extract_applications_from_table sample_output = inr records
    ∧ records !! 0%nat = Some record
    ∧ Dict.get "Version" record
      = Some (VStr (Str.of_chars
                      (Str.strip
                         (Str.slice
                            (Str.chars
                               "Foo     Foo.Foo            1.0.0    1.0.1      winget")
                            27 (Some 36))))).
Proof.
  apply (field_is_trimmed_slice sample_output sample_header sample_separator
           "4 upgrades available." "" sample_rows
           [("Name", 0); ("Id", 8); ("Version", 27); ("Available", 36);
            ("Source", 47)] 0 2
           "Foo     Foo.Foo            1.0.0    1.0.1      winget"
           "Version" 27).
  - vm_compute; reflexivity.
  - vm_compute; reflexivity.
  - simpl. repeat constructor; rewrite ?not_elem_of_cons;
      repeat split; done || apply not_elem_of_nil.
  - reflexivity.
  - reflexivity.
Defined.

Lemma lstrip_head s c :
  head (Str.lstrip s) = Some c → Str.isspace c = false.
Proof.
  induction s as [|x s IH]; simpl; [done|].
  destruct (Str.isspace x) eqn:Hx; [done|]. simpl. by intros [= <-].
Qed.

Lemma lstrip_last s :
  Str.lstrip s ≠ [] → last (Str.lstrip s) = last s.
Proof.
  induction s as [|x s IH]; simpl; [done|].
  destruct (Str.isspace x); [|done].
  intros Hne. rewrite IH by done.
  destruct s; [done|]. done.
Qed.

(** What [strip] returns has no white space at either end. *)
Lemma strip_ends s :
  (∀ c, head (Str.strip s) = Some c → Str.isspace c = false)
  ∧ (∀ c, last (Str.strip s) = Some c → Str.isspace c = false).
Proof.
  unfold Str.strip. split; intros c.
  - rewrite head_reverse. intros Hc.
    assert (Str.lstrip (reverse (Str.lstrip s)) ≠ []) as Hne
      by (intros E; by rewrite E in Hc).
    rewrite lstrip_last, last_reverse in Hc by done.
    by apply lstrip_head in Hc.
  - rewrite last_reverse. apply lstrip_head.
Qed.

Lemma dict_set_Forall (P : value → Prop) k v d :
  Forall (λ kv, P kv.2) d → P v → Forall (λ kv, P kv.2) (Dict.set k v d).
Proof.
  intros Hd Hv. induction Hd as [|[k0 v0] d H0 Hd IH]; simpl.
  - by constructor.
  - case_bool_decide; constructor; done.
Qed.

Lemma dict_get_Forall (P : value → Prop) k v d :
  Forall (λ kv, P kv.2) d → Dict.get k d = Some v → P v.
Proof.
  intros Hd. induction Hd as [|[k0 v0] d H0 Hd IH]; simpl; [done|].
  case_bool_decide; [by intros [= <-] | done].
Qed.

Lemma fill_record_Forall (P : value → Prop) row cols rec :
  (∀ s, P (VStr (Str.of_chars (Str.strip s)))) →
  Forall (λ kv, P kv.2) rec →
  Forall (λ kv, P kv.2) (fill_record row cols rec).
Proof.
  intros HP. revert rec.
  induction cols as [|[key start] cols IH]; intros rec Hrec; [done|].
  cbn [fill_record]. by apply IH, dict_set_Forall.
Qed.

(** X3. Every field of every record the parser returns is a string with no
    white space at its beginning or at its end. *)
Theorem values_are_trimmed (output : string) (records : list dict)
    (record : dict) (key : string) (v : value) :
  extract_applications_from_table output = inr records →
  record ∈ records →
  Dict.get key record = Some v →
  ∃ s, v = VStr s
       ∧ (∀ c, head (Str.chars s) = Some c → Str.isspace c = false)
       ∧ (∀ c, last (Str.chars s) = Some c → Str.isspace c = false).
Proof.
  unfold extract_applications_from_table.
  intros (cols & _ & [= <-])%rbind_inr (row & -> & _)%list_elem_of_fmap Hv.
  eapply (dict_get_Forall
            (λ v, ∃ s, v = VStr s
                       ∧ (∀ c, head (Str.chars s) = Some c
                               → Str.isspace c = false)
                       ∧ (∀ c, last (Str.chars s) = Some c
                               → Str.isspace c = false)));
    [|exact Hv].
  unfold row_record.
  apply (fill_record_Forall
           (λ v, ∃ s, v = VStr s
                      ∧ (∀ c, head (Str.chars s) = Some c
                              → Str.isspace c = false)
                      ∧ (∀ c, last (Str.chars s) = Some c
                              → Str.isspace c = false)));
    [|constructor].
  intros s. eexists. split; [done|].
  unfold Str.chars, Str.of_chars. rewrite list_ascii_of_string_of_list_ascii.
  apply strip_ends.
Qed.

(** The name of [Foo.Foo] in the sample listing. *)
Lemma values_are_trimmed_witness :
  ∃ s, VStr "Foo" = VStr s
       ∧ (∀ c, head (Str.chars s) = Some c → Str.isspace c = false)
       ∧ (∀ c, last (Str.chars s) = Some c → Str.isspace c = false).
Proof.
  apply (values_are_trimmed sample_output sample_records
           (record "Foo" "Foo.Foo" "1.0.0" "1.0.1") "Name" (VStr "Foo")).
  - vm_compute; reflexivity.
  - apply list_elem_of_here.
  - reflexivity.
Defined.

(** Characters of a text made of two texts. *)
Lemma chars_append s1 s2 :
  Str.chars (s1 ++ s2)%string = Str.chars s1 ++ Str.chars s2.
Proof. induction s1 as [|c s1 IH]; simpl; [done|]. by rewrite <-IH. Qed.

Lemma of_chars_chars s : Str.of_chars (Str.chars s) = s.
Proof. apply string_of_list_ascii_of_string. Qed.

(** Splitting at the line separators: a run without a carriage return is
    read into the current piece, and a separator closes the piece. *)
Lemma split_crlf_line line cur rest :
  "013"%char ∉ line →
  Str.split_go (Str.chars CRLF) 0 cur (line ++ Str.chars CRLF ++ rest)
  = (cur ++ line) :: Str.split_go (Str.chars CRLF) 0 [] rest.
Proof.
  revert cur. induction line as [|c line IH]; intros cur Hline.
  - by rewrite app_nil_r.
  - apply not_elem_of_cons in Hline as [Hc Hline].
    cbn [app Str.split_go]. cbn [Str.is_prefix Str.chars CRLF list_ascii_of_string].
    rewrite bool_decide_eq_false_2 by done. cbn [andb].
    rewrite IH by done. by rewrite <-app_assoc.
Qed.

Lemma split_table lines :
  Forall (λ line, "013"%char ∉ Str.chars line) lines →
  Str.split_on CRLF (table lines) = lines ++ [""].
Proof.
  unfold Str.split_on. intros Hlines.
  induction Hlines as [|line lines Hline Hlines IH]; [done|].
  cbn [table foldr]. fold (table lines).
  rewrite !chars_append, split_crlf_line by done.
  rewrite fmap_cons, IH. simpl. by rewrite of_chars_chars.
Qed.

(** X4. A text made of a header line with a printable label, a separator
    line, data lines and a summary line, each followed by a carriage return
    and a line feed and none holding a carriage return, is parsed into one
    record per data line, in order. *)
Theorem parse_of_table (header_row separator summary : string)
    (data : list string) :
  Forall (λ line, "013"%char ∉ Str.chars line)
    (header_row :: separator :: data ++ [summary]) →
  header_labels header_row ≠ [] →
  ∃ cols,
    get_headers_and_their_starting_positions [header_row] = inr cols
    ∧ extract_applications_from_table
        (table (header_row :: separator :: data ++ [summary]))
      = inr (row_record cols <$> data).
Proof.
  intros Hlines Hlabels.
  destruct (get_headers_and_their_starting_positions [header_row])
    as [e|cols] eqn:Hcols.
  { unfold get_headers_and_their_starting_positions in Hcols.
    by destruct (header_labels header_row). }
  exists cols. split; [done|].
  apply (extract_of_lines _ header_row separator summary ""); [|done].
  rewrite split_table by done. simpl. by rewrite <-app_assoc.
Qed.

Lemma parse_of_table_witness :
  ∃ cols,
    get_headers_and_their_starting_positions [sample_header] = inr cols
    ∧ extract_applications_from_table sample_output
      = inr (row_record cols <$> sample_rows).
Proof.
  apply (parse_of_table sample_header sample_separator
           "4 upgrades available." sample_rows).
  - compute_done.
  - vm_compute; discriminate.
Defined.

(** ** The pattern and the annotation *)

Lemma skip_digits_run ds rest :
  forallb Str.isdigit ds = true →
  Semver.skip_digits (ds ++ rest) = Semver.skip_digits rest.
Proof.
  induction ds as [|c ds IH]; [done|]. simpl.
  intros [-> Hds]%andb_true_iff. by apply IH.
Qed.

Lemma digits1_run c ds rest :
  forallb Str.isdigit (c :: ds) = true →
  Semver.digits1 ((c :: ds) ++ rest) = Some (Semver.skip_digits rest).
Proof.
  simpl. intros [-> Hds]%andb_true_iff. by rewrite skip_digits_run.
Qed.

(** X5. The strings [SEMVER_PATTERN] matches are exactly three non-empty
    runs of decimal digits with a dot between them, and possibly one line
    feed after the last run; nothing else, no sign, no space, no fourth
    number. *)
Theorem pattern_matches_exactly (s : string) :
  Semver.matches s = true ↔
  ∃ c1 d1 c2 d2 c3 d3 t,
    forallb Str.isdigit (c1 :: d1) = true
    ∧ forallb Str.isdigit (c2 :: d2) = true
    ∧ forallb Str.isdigit (c3 :: d3) = true
    ∧ (t = [] ∨ t = ["010"%char])
    ∧ Str.chars s
      = (c1 :: d1) ++ "."%char :: (c2 :: d2) ++ "."%char :: (c3 :: d3) ++ t.
Proof.
  split; [apply SemverFacts.matches_shape|].
  intros (c1 & d1 & c2 & d2 & c3 & d3 & t & H1 & H2 & H3 & Ht & Hs).
  unfold Semver.matches. rewrite Hs.
  rewrite digits1_run by done. cbn [Semver.skip_digits].
  replace (Str.isdigit ".") with false by done. cbn [Semver.dot].
  rewrite bool_decide_eq_true_2 by done.
  rewrite digits1_run by done. cbn [Semver.skip_digits].
  replace (Str.isdigit ".") with false by done. cbn [Semver.dot].
  rewrite bool_decide_eq_true_2 by done.
  rewrite digits1_run by done.
  by destruct Ht as [-> | ->].
Qed.

(** One block of [add_semver_details] on a field that is a string: it
    raises when the field matches and holds a number too long for [int],
    and returns otherwise. *)
Lemma add_details_outcome field k1 k2 k3 d s :
  Dict.get field d = Some (VStr s) →
  if Semver.matches s && long_number s
  then add_details field k1 k2 k3 d = inl ValueError
  else ∃ d', add_details field k1 k2 k3 d = inr d'.
Proof.
  intros Hs. rewrite add_details_eq, Hs.
  destruct (Semver.matches s) eqn:Hm; [|by eexists]. simpl.
  pose proof (SemverFacts.version_numbers_outcome s Hm) as Hn.
  destruct (long_number s); [by rewrite Hn|].
  destruct Hn as [n ->]. by eexists.
Qed.

(** X6. What [add_semver_details] does is decided by the two fields it
    reads, [Version] first: it raises [KeyError] for a missing field,
    [TypeError] for one that is not a string, [ValueError] for one that
    matches the pattern and holds a number of more digits than [int]
    takes, and returns in every other case; once the pattern has matched,
    the split at the dots never raises and the three [int] conversions
    raise for that reason only. *)
Theorem annotate_outcome (d : dict) :
  match Dict.get "Version" d with
  | None => annotate d = inl (KeyError "Version")
  | Some (VInt _) => annotate d = inl TypeError
  | Some (VStr sv) =>
      if Semver.matches sv && long_number sv
      then annotate d = inl ValueError
      else
        match Dict.get "Available" d with
        | None => annotate d = inl (KeyError "Available")
        | Some (VInt _) => annotate d = inl TypeError
        | Some (VStr sa) =>
            if Semver.matches sa && long_number sa
            then annotate d = inl ValueError
            else ∃ d', annotate d = inr d'
        end
  end.
Proof.
  destruct (Dict.get "Version" d) as [[sv|n]|] eqn:Hv.
  - pose proof (add_details_outcome "Version" "current_major" "current_minor"
                  "current_patch" d sv Hv) as H1.
    unfold annotate.
    destruct (Semver.matches sv && long_number sv); [by rewrite H1|].
    destruct H1 as [d1 H1]. rewrite H1. simpl.
    assert (Dict.get "Available" d1 = Dict.get "Available" d) as Ha
      by by rewrite (add_details_get_other _ _ _ _ _ _ _ H1) by by compute_done.
    destruct (Dict.get "Available" d) as [[sa|n]|] eqn:Ha'.
    + by apply (add_details_outcome _ _ _ _ _ sa).
    + by rewrite add_details_eq, Ha.
    + by rewrite add_details_eq, Ha.
  - unfold annotate. by rewrite add_details_eq, Hv.
  - unfold annotate. by rewrite add_details_eq, Hv.
Qed.

(** A version with a number of 4301 digits matches the pattern and makes
    [add_semver_details] raise. *)
Example long_number_raises :
  Semver.matches long_version = true
  ∧ long_number long_version = true
  ∧ annotate [("Version", VStr long_version); ("Available", VStr "1.0.1")]
    = inl ValueError.
Proof. repeat split; vm_compute; reflexivity. Qed.

(** X7. Calling [add_semver_details] a second time on the same record
    returns the same record and changes nothing in it. *)
Theorem add_semver_details_twice (app x : ref) (h h1 : heap) :
  add_semver_details app h = inr (x, h1) →
  x = app ∧ add_semver_details app h1 = inr (app, h1).
Proof.
  unfold add_semver_details.
  intros (d' & h0 & (-> & d & Hd & Hann)%reading_inr & Hrest)%bind_inr.
  apply bind_inr in Hrest as ([] & h2 & [= <-] & [-> ->]%ret_inr).
  split; [done|].
  assert (app < length h)%nat as Hlt by by eapply lookup_lt_Some.
  unfold bind, reading, store, ret, ok.
  rewrite list_lookup_insert_eq by done.
  rewrite (annotate_idempotent _ _ Hann).
  by rewrite list_insert_insert_eq.
Qed.

Lemma add_semver_details_twice_witness :
  ∃ h1,
    add_semver_details 0%nat [record "Foo" "Foo.Foo" "1.0.0" "1.0.1"]
    = inr (0%nat, h1)
    ∧ add_semver_details 0%nat h1 = inr (0%nat, h1).
Proof.
  eexists. split; [vm_compute; reflexivity|].
  eapply (add_semver_details_twice 0%nat 0%nat
            [record "Foo" "Foo.Foo" "1.0.0" "1.0.1"]).
  vm_compute; reflexivity.
Defined.

(** ** The semantic-version filter *)

(** X8. [get_applications_using_semver] returns, in the order and with the
    multiplicity of its input, the records whose [Version] or [Available]
    field matches the pattern, and no other record. *)
Theorem semver_filter_keeps_matching (apps res : list ref) (h h' : heap) :
  get_applications_using_semver apps h = inr (res, h') →
  res = filter (λ r, qualifies h r = true) apps
  ∧ ∀ r d sv sa,
      h !! r = Some d →
      Dict.get "Version" d = Some (VStr sv) →
      Dict.get "Available" d = Some (VStr sa) →
      qualifies h r = Semver.matches sv || Semver.matches sa.
Proof.
  intros [-> _]%get_applications_using_semver_inr. split; [done|].
  intros r d sv sa Hd Hv Ha. unfold qualifies, test, uses_semver, Dict.item.
  rewrite Hd, Hv. simpl. destruct (Semver.matches sv); [done|].
  by rewrite Ha.
Qed.

Lemma semver_filter_keeps_matching_witness :
  ∃ h',
    get_applications_using_semver [0; 1; 0]%nat two_records
    = inr ([0; 0]%nat, h')
    ∧ [0; 0]%nat = filter (λ r, qualifies two_records r = true) [0; 1; 0]%nat.
Proof.
  eexists. split; [vm_compute; reflexivity|].
  eapply (semver_filter_keeps_matching [0; 1; 0]%nat [0; 0]%nat two_records).
  vm_compute; reflexivity.
Defined.

(** On references whose records are annotated already, the filter returns
    its input and leaves the heap as it is. *)
Lemma get_applications_using_semver_fixed apps h :
  (∀ r, r ∈ apps →
        ∃ d, h !! r = Some d ∧ uses_semver d = inr true ∧ annotate d = inr d) →
  get_applications_using_semver apps h = inr (apps, h).
Proof.
  induction apps as [|a apps IH]; intros Happs; [done|].
  destruct (Happs a) as (d & Hd & Hu & Hann); [apply list_elem_of_here|].
  simpl. unfold bind at 1. unfold reading at 1. rewrite Hd, Hu.
  unfold add_semver_details, bind, reading, store, ret, ok.
  rewrite Hd, Hann, list_insert_id by done.
  rewrite IH; [done|]. intros r Hr. apply Happs. by apply list_elem_of_further.
Qed.

(** X9. Running [get_applications_using_semver] on its own result, as
    [main] and then [get_apps_to_upgrade] do, returns the same list and
    leaves every record as the first run left it. *)
Theorem semver_filter_twice (apps sem : list ref) (h h1 : heap) :
  get_applications_using_semver apps h = inr (sem, h1) →
  get_applications_using_semver sem h1 = inr (sem, h1).
Proof.
  intros [-> Hann]%get_applications_using_semver_inr.
  apply get_applications_using_semver_fixed.
  intros r [Hq Hin]%list_elem_of_filter.
  pose proof Hq as (d & Hd & Hu)%test_true.
  destruct (annotated_lookup _ _ _ _ _ Hann Hd) as (d' & Hd' & _ & _ & Hd'').
  rewrite bool_decide_eq_true_2, Hq in Hd'' by done. simpl in Hd''.
  exists d'. split; [done|]. split.
  - by rewrite (annotate_uses_semver _ _ Hd'').
  - by eapply annotate_idempotent.
Qed.

Lemma semver_filter_twice_witness :
  ∃ h1,
    get_applications_using_semver [0; 1]%nat two_records = inr ([0%nat], h1)
    ∧ get_applications_using_semver [0%nat] h1 = inr ([0%nat], h1).
Proof.
  eexists. split; [vm_compute; reflexivity|].
  apply (semver_filter_twice [0; 1]%nat [0%nat] two_records).
  vm_compute; reflexivity.
Defined.

(** The fields a record must have for the filter to return. *)
Lemma uses_semver_fields d b :
  uses_semver d = inr b →
  ∃ sv, Dict.get "Version" d = Some (VStr sv)
        ∧ (Semver.matches sv = false →
           ∃ sa, Dict.get "Available" d = Some (VStr sa)).
Proof.
  unfold uses_semver, Dict.item.
  destruct (Dict.get "Version" d) as [[sv|n]|]; simpl; [|done..].
  intros Hb. exists sv. split; [done|]. intros Hm. rewrite Hm in Hb.
  destruct (Dict.get "Available" d) as [[sa|n]|]; simpl in Hb; [|done..].
  by exists sa.
Qed.

Lemma annotate_fields d d' :
  annotate d = inr d' →
  ∃ sv sa, Dict.get "Version" d = Some (VStr sv)
           ∧ Dict.get "Available" d = Some (VStr sa).
Proof.
  intros (d1 & H1 & H2)%annotate_inr.
  pose proof H1 as (sv & Hv & _)%add_details_inr.
  pose proof H2 as (sa & Ha & _)%add_details_inr.
  exists sv, sa. split; [done|].
  by rewrite (add_details_get_other _ _ _ _ _ _ _ H1) in Ha by by compute_done.
Qed.

Lemma get_applications_using_semver_fields apps h res h' r :
  get_applications_using_semver apps h = inr (res, h') →
  r ∈ apps →
  ∃ d sv sa, h !! r = Some d
             ∧ Dict.get "Version" d = Some (VStr sv)
             ∧ Dict.get "Available" d = Some (VStr sa).
Proof.
  revert h res h'. induction apps as [|a apps IH]; intros h res h' Hret Hr.
  { by apply elem_of_nil in Hr. }
  simpl in Hret.
  apply bind_inr in Hret as (keep & h0 & (-> & da & Hda & Hkeep)%reading_inr
                             & Hrest).
  assert (∃ sv sa, Dict.get "Version" da = Some (VStr sv)
                   ∧ Dict.get "Available" da = Some (VStr sa)
                   ∧ ∃ h1 res1,
                       get_applications_using_semver apps h1 = inr (res1, h')
                       ∧ ∀ r', r' ≠ a → h1 !! r' = h !! r')
    as (sv & sa & Hv & Ha & h1 & res1 & Hrest' & Hsame).
  { destruct keep.
    - apply bind_inr in Hrest as (x & h1 & Hadd & Hrest).
      apply bind_inr in Hrest as (xs & h2 & Hxs & [_ ->]%ret_inr).
      unfold add_semver_details in Hadd.
      apply bind_inr in Hadd
          as (da' & h0 & (-> & da0 & Hda0 & Hann)%reading_inr & Hadd).
      apply bind_inr in Hadd as ([] & h0 & [= <-] & [-> ->]%ret_inr).
      assert (da0 = da) as -> by congruence.
      destruct (annotate_fields _ _ Hann) as (sv & sa & Hv & Ha).
      exists sv, sa. split; [done|]. split; [done|].
      exists (<[a:=da']> h), xs. split; [done|].
      intros r' Hne. by rewrite list_lookup_insert_ne.
    - destruct (uses_semver_fields _ _ Hkeep) as (sv & Hv & Ha).
      assert (Semver.matches sv = false) as Hm.
      { unfold uses_semver, Dict.item in Hkeep. rewrite Hv in Hkeep.
        simpl in Hkeep. by destruct (Semver.matches sv). }
      destruct (Ha Hm) as [sa Hsa]. exists sv, sa. split; [done|].
      split; [done|]. by exists h, res. }
  destruct (decide (r = a)) as [->|Hne]; [by exists da, sv, sa|].
  apply elem_of_cons in Hr as [?|Hr]; [done|].
  destruct (IH _ _ _ Hrest' Hr) as (d & sv' & sa' & Hd & Hv' & Ha').
  exists d, sv', sa'. by rewrite <-Hsame.
Qed.

Lemma select_reads cond apps h res h' r :
  select cond apps h = inr (res, h') → r ∈ apps →
  ∃ d b, h !! r = Some d ∧ cond d = inr b.
Proof.
  revert res h'. induction apps as [|a apps IH]; intros res h' Hret Hr.
  { by apply elem_of_nil in Hr. }
  simpl in Hret.
  apply bind_inr in Hret as (keep & h0 & (-> & d & Hd & Hc)%reading_inr & Hrest).
  apply bind_inr in Hrest as (xs & h2 & Hxs & _).
  apply elem_of_cons in Hr as [->|Hr]; [by exists d, keep|].
  by eapply IH.
Qed.

(** X10. When the classifier returns, every record it was given has an
    [Id], a string under [Version] and a string under [Available]: a record
    without one of them makes the whole run raise. *)
Theorem classified_records_have_columns (allowed blocked : gset string)
    (apps : list ref) (level : string) (unk : bool) (h h' : heap)
    (res : list ref) (r : ref) :
  classify allowed blocked apps level unk h = inr (res, h') →
  r ∈ apps →
  ∃ d id sv sa,
    h !! r = Some d
    ∧ Dict.get "Id" d = Some id
    ∧ Dict.get "Version" d = Some (VStr sv)
    ∧ Dict.get "Available" d = Some (VStr sa).
Proof.
  intros Hc Hr. pose proof Hc as [Hann _]%classify_inr.
  unfold classify in Hc.
  apply bind_inr in Hc as (sel & h1 & Hsel & Hrest).
  pose proof Hsel as [Hann1 _]%level_selection_inr.
  unfold level_selection in Hsel.
  apply bind_inr in Hsel as (sem & h0 & Hsem & _).
  destruct (get_applications_using_semver_fields _ _ _ _ _ Hsem Hr)
    as (d & sv & sa & Hd & Hv & Ha).
  apply bind_inr in Hrest as (added & h2 & Hadd & _).
  unfold add_allowed_updates in Hadd.
  apply bind_inr in Hadd as (al & h3 & Hal & _).
  destruct (select_reads _ _ _ _ _ _ Hal Hr) as (d1 & b & Hd1 & Hid).
  assert (∃ id, Dict.get "Id" d1 = Some id) as [id Hid'].
  { unfold id_in, Dict.item in Hid.
    destruct (Dict.get "Id" d1) as [id|]; [by exists id | done]. }
  exists d, id, sv, sa. repeat split; try done.
  by rewrite <-(classified_field _ _ _ _ _ _ "Id" Hann1 Hd Hd1)
    by by compute_done.
Qed.

Lemma classified_records_have_columns_witness :
  ∃ d id sv sa,
    two_records !! 1%nat = Some d
    ∧ Dict.get "Id" d = Some id
    ∧ Dict.get "Version" d = Some (VStr sv)
    ∧ Dict.get "Available" d = Some (VStr sa).
Proof.
  eapply (classified_records_have_columns get_allowed_updates
            get_blocked_updates [0; 1]%nat "patch" false two_records).
  - vm_compute; reflexivity.
  - apply list_elem_of_further, list_elem_of_here.
Defined.

(** ** The level selection *)

Lemma and_then_true a b :
  a &&& b = inr true ↔ a = inr true ∧ b = inr true.
Proof.
  unfold and_then. destruct a as [e|[]]; simpl; split; try done;
    by intros [? ?].
Qed.

(** The three conditions on a record that holds six numbers. *)
Lemma conditions_by_numbers d a b c a' b' c' :
  Dict.get "current_major" d = Some (VInt a) →
  Dict.get "current_minor" d = Some (VInt b) →
  Dict.get "current_patch" d = Some (VInt c) →
  Dict.get "available_major" d = Some (VInt a') →
  Dict.get "available_minor" d = Some (VInt b') →
  Dict.get "available_patch" d = Some (VInt c') →
  (has_patch_upgrade d = inr true ↔ a = a' ∧ b = b' ∧ c < c')
  ∧ (has_minor_upgrade d = inr true ↔ a = a' ∧ b < b')
  ∧ (has_major_upgrade d = inr true ↔ a < a').
Proof.
  intros H1 H2 H3 H4 H5 H6.
  unfold has_patch_upgrade, has_minor_upgrade, has_major_upgrade.
  rewrite !and_then_true.
  unfold has_both_majors, items_eq, items_lt, Dict.mem, Dict.item.
  rewrite H1, H2, H3, H4, H5, H6. simpl. unfold ok.
  assert (∀ x : bool, (inr x : result bool) = inr true ↔ x = true) as Hinr
    by (intros x; split; [by intros [= ->] | by intros ->]).
  rewrite !Hinr, !bool_decide_eq_true, !Z.ltb_lt. tauto.
Qed.

(** X11. For a record whose two versions match the pattern, the level
    decides by the numbers, compared as numbers: [patch] selects it when
    major and minor are equal and the patch number grows, [minor] also when
    the major is equal and the minor grows, [major] also when the major
    grows; that is, [major] selects exactly the records whose available
    version is greater than the current one, and no level below [all]
    selects an equal or a smaller one. *)
Theorem selected_by_numbers (apps : list ref) (level : string) (unk : bool)
    (h h' : heap) (sel : list ref) (r : ref) (d : dict)
    (version available : string) (a b c a' b' c' : Z) :
  get_apps_to_upgrade apps level unk h = inr (sel, h') →
  r ∈ apps →
  h !! r = Some d →
  Dict.get "Version" d = Some (VStr version) →
  Dict.get "Available" d = Some (VStr available) →
  Semver.matches version = true →
  Semver.matches available = true →
  version_numbers version = inr (a, b, c) →
  version_numbers available = inr (a', b', c') →
  (level = "patch" → (r ∈ sel ↔ a = a' ∧ b = b' ∧ c < c'))
  ∧ (level = "minor" →
     (r ∈ sel ↔ a = a' ∧ (b < b' ∨ b = b' ∧ c < c')))
  ∧ (level = "major" →
     (r ∈ sel ↔ a < a' ∨ a = a' ∧ (b < b' ∨ b = b' ∧ c < c'))).
Proof.
  intros [Hann ->]%get_apps_to_upgrade_inr Hin Hd Hv Ha Hmv Hma Hn Hn'.
  assert (qualifies h r = true) as Hq.
  { apply test_true. exists d. split; [done|].
    unfold uses_semver, Dict.item. rewrite Hv. simpl. by rewrite Hmv. }
  assert (r ∈ filter (λ r, qualifies h r = true) apps) as Hsem
    by by apply list_elem_of_filter.
  destruct (annotated_lookup _ _ _ _ _ Hann Hd) as (d' & Hd' & Hget & _ & Hd'').
  rewrite bool_decide_eq_true_2, Hq in Hd'' by done. simpl in Hd''.
  destruct (annotate_current _ _ _ Hd'' Hv Hmv)
    as (x & y & z & Hx & C1 & C2 & C3).
  destruct (annotate_available _ _ _ Hd'' Ha Hma)
    as (x' & y' & z' & Hx' & A1 & A2 & A3).
  assert (x = a ∧ y = b ∧ z = c) as (-> & -> & ->)
    by (rewrite Hn in Hx; by injection Hx).
  assert (x' = a' ∧ y' = b' ∧ z' = c') as (-> & -> & ->)
    by (rewrite Hn' in Hx'; by injection Hx').
  destruct (conditions_by_numbers _ _ _ _ _ _ _ C1 C2 C3 A1 A2 A3)
    as (P & Mi & Ma).
  assert (∀ cond, test cond h' r = true ↔ cond d' = inr true) as Ht.
  { intros cond. rewrite test_true. split.
    - intros (d0 & Hd0 & ?). congruence.
    - eauto. }
  assert (test has_unknown_version h' r = false) as U.
  { apply (test_false _ _ _ _ Hd').
    unfold has_unknown_version, Dict.item.
    rewrite (Hget "Version"), Hv by by compute_done. simpl. unfold ok.
    by rewrite bool_decide_eq_false_2 by by apply matches_not_unknown. }
  split; [|split]; intros ->;
    (rewrite bool_decide_eq_false_2 by (vm_compute; discriminate));
    unfold chosen; repeat case_bool_decide; try done; destruct unk;
    rewrite ?elem_of_app, ?list_elem_of_filter, ?U, ?Ht, ?P, ?Mi, ?Ma;
    intuition (try lia; try discriminate).
Qed.

(** [1.9.3] against [1.10.0]: a minor upgrade, though ["9" > "1"] as text. *)
Lemma selected_by_numbers_witness :
  ∃ sel h',
    get_apps_to_upgrade [0%nat] "minor" false
      [record "Foo" "Foo.Foo" "1.9.3" "1.10.0"] = inr (sel, h')
    ∧ (0%nat ∈ sel ↔ 1 = 1 ∧ (9 < 10 ∨ 9 = 10 ∧ 3 < 0)).
Proof.
  eexists _, _. split; [vm_compute; reflexivity|].
  eapply (selected_by_numbers [0%nat] "minor" false
            [record "Foo" "Foo.Foo" "1.9.3" "1.10.0"] _ _ 0%nat
            (record "Foo" "Foo.Foo" "1.9.3" "1.10.0") "1.9.3" "1.10.0"
            1 9 3 1 10 0).
  - vm_compute; reflexivity.
  - apply list_elem_of_here.
  - reflexivity.
  - reflexivity.
  - reflexivity.
  - vm_compute; reflexivity.
  - vm_compute; reflexivity.
  - vm_compute; reflexivity.
  - vm_compute; reflexivity.
  - reflexivity.
Defined.

(** X12. A level that is none of [all] (in any case), [patch], [minor] and
    [major] (in lower case) selects no record by its versions:
    [get_apps_to_upgrade] then returns the unknown-version records when
    the switch is on and nothing when it is off, and raises nothing for the
    level. *)
Theorem unrecognised_level (apps : list ref) (level : string) (unk : bool)
    (h h' : heap) (sel : list ref) :
  get_apps_to_upgrade apps level unk h = inr (sel, h') →
  Str.lower level ≠ "all" →
  level ≠ "patch" → level ≠ "minor" → level ≠ "major" →
  sel = if unk
        then filter (λ r, test has_unknown_version h' r = true)
               (filter (λ r, qualifies h r = true) apps)
        else [].
Proof.
  intros [_ ->]%get_apps_to_upgrade_inr Hall Hp Hmi Hma.
  unfold chosen. by rewrite !bool_decide_eq_false_2 by done.
Qed.

(** The level [Patch], handed over without being lowered. *)
Lemma unrecognised_level_witness :
  ∃ sel h',
    get_apps_to_upgrade [0%nat] "Patch" false
      [record "Foo" "Foo.Foo" "1.0.0" "1.0.1"] = inr (sel, h')
    ∧ sel = [].
Proof.
  eexists _, _. split; [vm_compute; reflexivity|].
  eapply (unrecognised_level [0%nat] "Patch" false
            [record "Foo" "Foo.Foo" "1.0.0" "1.0.1"]).
  - vm_compute; reflexivity.
  - vm_compute; discriminate.
  - discriminate.
  - discriminate.
  - discriminate.
Defined.

(** ** The final list *)

(** X13. Which records [main] upgrades. When the classifier returns, a
    record with a string under [Id] is in the final list exactly when its
    identifier is not in the block-list and either the level selection
    chose it or it is one of the parsed records and its identifier is in
    the allow-list. *)
Theorem final_list_membership (allowed blocked : gset string)
    (apps : list ref) (level : string) (unk : bool) (h h1 h' : heap)
    (sel res : list ref) (r : ref) (d : dict) (id : string) :
  classify allowed blocked apps level unk h = inr (res, h') →
  level_selection apps level unk h = inr (sel, h1) →
  h !! r = Some d →
  Dict.get "Id" d = Some (VStr id) →
  r ∈ res ↔ (id ∉ blocked) ∧ (r ∈ sel ∨ r ∈ apps ∧ id ∈ allowed).
Proof.
  intros Hc Hsel Hd Hid.
  pose proof Hc as [Hann ->]%classify_inr.
  unfold classify in Hc.
  apply bind_inr in Hc as (sel' & h1' & Hsel' & Hrest).
  assert (sel' = sel) as -> by congruence.
  assert (h1' = h1) as -> by congruence.
  apply bind_inr in Hrest as (added & h2 & Hadd & [Hh2 _]%select_inr).
  unfold add_allowed_updates in Hadd.
  apply bind_inr in Hadd as (al & h3 & [Hh3 _]%select_inr & [_ Hh2']%ret_inr).
  assert (h1 = h') as -> by congruence.
  apply level_selection_inr in Hsel' as [_ Hsel'].
  rewrite <-Hsel'.
  destruct (annotated_lookup _ _ _ _ _ Hann Hd) as (d' & Hd' & Hget & _).
  assert (Dict.get "Id" d' = Some (VStr id)) as Hid'
    by by rewrite (Hget "Id") by by compute_done.
  assert (test (id_not_in blocked) h' r = true ↔ id ∉ blocked) as Hb.
  { rewrite test_true. split.
    - intros (d0 & Hd0 & (v & Hv & Hns)%id_not_in_true).
      apply Hns. congruence.
    - intros Hnb. exists d'. split; [done|]. apply id_not_in_true.
      exists (VStr id). split; [done|]. by intros ? [= <-]. }
  assert (test (id_in allowed) h' r = true ↔ id ∈ allowed) as Ha.
  { rewrite test_true. split.
    - intros (d0 & Hd0 & (s & Hs & Hin)%id_in_true). congruence.
    - intros Hin. exists d'. split; [done|]. apply id_in_true. eauto. }
  rewrite list_elem_of_filter, elem_of_app, list_elem_of_filter, Hb, Ha.
  tauto.
Qed.

(** The sample listing at level [patch]: [Python.Python.3] is in the final
    list by the allow-list alone. *)
Lemma final_list_membership_witness :
  ∃ res,
    references
      (classify get_allowed_updates get_blocked_updates [0; 1; 2; 3]%nat
         "patch" false sample_records) = inr res
    ∧ (2%nat ∈ res ↔
       ("Python.Python.3" ∉ get_blocked_updates)
       ∧ (2%nat ∈ [0; 3]%nat ∨ 2%nat ∈ [0; 1; 2; 3]%nat
                            ∧ "Python.Python.3" ∈ get_allowed_updates)).
Proof.
  eexists. split; [vm_compute; reflexivity|].
  eapply (final_list_membership get_allowed_updates get_blocked_updates
            [0; 1; 2; 3]%nat "patch" false sample_records _ _ [0; 3]%nat _
            2%nat (record "Python" "Python.Python.3" "3.9" "3.10")
            "Python.Python.3").
  - vm_compute; reflexivity.
  - vm_compute; reflexivity.
  - reflexivity.
  - reflexivity.
Defined.

(** ** No record is selected twice *)

Lemma ltb_irrefl s : String.ltb s s = false.
Proof.
  unfold String.ltb. pose proof (String.compare_antisym s s) as H.
  by destruct (String.compare s s).
Qed.

(** Equal values are not below one another. *)
Lemma items_eq_not_lt j k d :
  items_eq j k d = inr true → items_lt j k d ≠ inr true.
Proof.
  unfold items_eq, items_lt, Dict.item.
  destruct (Dict.get j d) as [[s|m]|], (Dict.get k d) as [[t|n]|];
    simpl; try done; unfold ok.
  - intros [= ->%bool_decide_eq_true]. by rewrite ltb_irrefl.
  - intros [= ->%bool_decide_eq_true]. by rewrite Z.ltb_irrefl.
Qed.

(** A record passes one of the three level conditions at most. *)
Lemma conditions_exclusive d :
  (has_patch_upgrade d = inr true → has_minor_upgrade d ≠ inr true)
  ∧ (has_patch_upgrade d = inr true → has_major_upgrade d ≠ inr true)
  ∧ (has_minor_upgrade d = inr true → has_major_upgrade d ≠ inr true).
Proof.
  unfold has_patch_upgrade, has_minor_upgrade, has_major_upgrade.
  rewrite !and_then_true.
  pose proof (items_eq_not_lt "current_major" "available_major" d).
  pose proof (items_eq_not_lt "current_minor" "available_minor" d).
  tauto.
Qed.

Lemma no_current_major_no_upgrade d :
  Dict.get "current_major" d = None →
  has_patch_upgrade d ≠ inr true
  ∧ has_minor_upgrade d ≠ inr true
  ∧ has_major_upgrade d ≠ inr true.
Proof.
  intros Hc.
  unfold has_patch_upgrade, has_minor_upgrade, has_major_upgrade,
    has_both_majors, Dict.mem.
  by rewrite Hc.
Qed.

(** A record whose current version reads [unknown] gets no current
    numbers from the annotation. *)
Lemma unknown_no_current d d' :
  annotate d = inr d' → Dict.get "current_major" d = None →
  has_unknown_version d' = inr true → Dict.get "current_major" d' = None.
Proof.
  intros Hann Hc Hu. pose proof Hann as (d1 & H1 & H2)%annotate_inr.
  rewrite (add_details_get_other _ _ _ _ _ _ _ H2) by by compute_done.
  apply add_details_inr in H1 as (s & Hv & Hs).
  destruct (Semver.matches s) eqn:Hm; [|by subst].
  apply matches_not_unknown in Hm. exfalso. apply Hm.
  unfold has_unknown_version, Dict.item in Hu.
  rewrite (annotate_get_other _ _ _ Hann), Hv in Hu by by compute_done.
  simpl in Hu. by injection Hu as Hu%bool_decide_eq_true.
Qed.

(** X14. The level selection of [main] picks no record twice: when the
    parsed records are pairwise different objects and none has a column
    named [current_major], the list it returns has no repetition, at every
    level and with the switch on or off. The conditions for a patch, a
    minor and a major upgrade and for an unknown current version exclude
    one another. *)
Theorem level_selection_without_repetition (apps : list ref)
    (level : string) (unk : bool) (h h' : heap) (sel : list ref) :
  level_selection apps level unk h = inr (sel, h') →
  NoDup apps →
  (∀ r d, r ∈ apps → h !! r = Some d → Dict.get "current_major" d = None) →
  NoDup sel.
Proof.
  intros [Hann ->]%level_selection_inr Hnd Hnone. unfold selection.
  set (sem := filter (λ r, qualifies h r = true) apps).
  assert (NoDup sem) as Hsem by by apply NoDup_filter.
  case_bool_decide; [done|].
  assert (∀ c1 c2 : dict → result bool,
            (∀ d, c1 d = inr true → c2 d ≠ inr true) →
            ∀ r, test c1 h' r = true → test c2 h' r = true → False) as Hex.
  { intros c1 c2 Hc r (d1 & Hd1 & H1)%test_true (d2 & Hd2 & H2)%test_true.
    assert (d2 = d1) as -> by congruence. by apply (Hc d1). }
  assert (∀ r, r ∈ sem → test has_unknown_version h' r = true →
               ∃ d', h' !! r = Some d' ∧ Dict.get "current_major" d' = None)
    as Hunk.
  { intros r [Hq Hr]%list_elem_of_filter (d' & Hd' & Hu)%test_true.
    pose proof Hq as (d & Hd & _)%test_true.
    destruct (annotated_lookup _ _ _ _ _ Hann Hd) as (d'' & Hd'' & _ & _ & Ha).
    assert (d'' = d') as -> by congruence.
    rewrite bool_decide_eq_true_2, Hq in Ha by done. simpl in Ha.
    exists d'. split; [done|]. eapply unknown_no_current; eauto. }
  assert (∀ c : dict → result bool,
            (∀ d, Dict.get "current_major" d = None → c d ≠ inr true) →
            ∀ r, r ∈ sem → test c h' r = true →
                 test has_unknown_version h' r = true → False) as Hexu.
  { intros c Hc r Hr (d1 & Hd1 & H1)%test_true Hu.
    destruct (Hunk r Hr Hu) as (d' & Hd' & Hn).
    assert (d' = d1) as -> by congruence. by apply (Hc d1). }
  pose proof (Hex has_patch_upgrade has_minor_upgrade
                (λ d, proj1 (conditions_exclusive d))) as Hpm.
  pose proof (Hex has_patch_upgrade has_major_upgrade
                (λ d, proj1 (proj2 (conditions_exclusive d)))) as Hpj.
  pose proof (Hex has_minor_upgrade has_major_upgrade
                (λ d, proj2 (proj2 (conditions_exclusive d)))) as Hmj.
  pose proof (Hexu has_patch_upgrade
                (λ d H, proj1 (no_current_major_no_upgrade d H))) as Hpu.
  pose proof (Hexu has_minor_upgrade
                (λ d H, proj1 (proj2 (no_current_major_no_upgrade d H))))
    as Hmu.
  pose proof (Hexu has_major_upgrade
                (λ d H, proj2 (proj2 (no_current_major_no_upgrade d H))))
    as Hju.
  clear Hex Hexu Hunk.
  unfold chosen. repeat case_bool_decide; destruct unk.
  all: rewrite ?NoDup_app.
  all: repeat match goal with
       | |- _ ∧ _ => split
       | |- NoDup (filter _ _) => by apply NoDup_filter
       | |- NoDup [] => apply NoDup_nil_2
       | |- ∀ x, _ → _ ∉ _ =>
           let Hx := fresh in let Hy := fresh in
           intros x; rewrite ?elem_of_app, ?list_elem_of_filter, ?elem_of_nil;
           intros Hx Hy; intuition eauto
       end.
Qed.

(** The sample listing at level [major] with the switch on. *)
Lemma level_selection_without_repetition_witness :
  ∃ sel h',
    level_selection [0; 1; 2; 3]%nat "major" true sample_records
    = inr (sel, h')
    ∧ NoDup sel.
Proof.
  eexists _, _. split; [vm_compute; reflexivity|].
  eapply (level_selection_without_repetition [0; 1; 2; 3]%nat "major" true
            sample_records).
  - vm_compute; reflexivity.
  - apply NoDup_ListNoDup. repeat constructor; simpl; intuition lia.
  - intros r d Hr Hd.
    repeat (apply elem_of_cons in Hr as [->|Hr];
            [by injection Hd as <-|]).
    by apply elem_of_nil in Hr.
Defined.

(** ** From the text to the final list *)

(** A field is no longer than the row it is cut from. *)
Lemma lstrip_length s : (length (Str.lstrip s) ≤ length s)%nat.
Proof.
  induction s as [|c s IH]; simpl; [done|].
  destruct (Str.isspace c); simpl; lia.
Qed.

Lemma strip_length s : (length (Str.strip s) ≤ length s)%nat.
Proof.
  unfold Str.strip. rewrite length_reverse.
  etrans; [apply lstrip_length|]. rewrite length_reverse.
  apply lstrip_length.
Qed.

Lemma slice_length s lo hi : (length (Str.slice s lo hi) ≤ length s)%nat.
Proof. unfold Str.slice. rewrite length_take, length_drop. lia. Qed.

Lemma short_fields_set k s d :
  short_fields d = true →
  Z.of_nat (length (Str.chars s)) ≤ Semver.int_max_str_digits →
  short_fields (Dict.set k (VStr s) d) = true.
Proof.
  intros Hd Hs. apply Z.leb_le in Hs.
  induction d as [|[k0 v0] d IH]; simpl in *; [by rewrite Hs|].
  apply andb_true_iff in Hd as [Hv Hd]. case_bool_decide; simpl.
  - by rewrite Hs, Hd.
  - by rewrite Hv, IH.
Qed.

Lemma short_fields_fill_record row cols rec :
  Z.of_nat (length row) ≤ Semver.int_max_str_digits →
  short_fields rec = true →
  short_fields (fill_record row cols rec) = true.
Proof.
  intros Hrow. revert rec.
  induction cols as [|[key start] cols IH]; intros rec Hrec; [done|].
  cbn [fill_record]. apply IH, short_fields_set; [done|].
  unfold Str.chars, Str.of_chars. rewrite list_ascii_of_string_of_list_ascii.
  pose proof (strip_length
                (Str.slice row start
                   match cols with
                   | [] => None
                   | (_, e) :: _ => Some e
                   end)) as H1.
  pose proof (slice_length row start
                match cols with
                | [] => None
                | (_, e) :: _ => Some e
                end) as H2.
  lia.
Qed.

(** X15. On the text of a table whose header line has the columns [Id],
    [Version] and [Available] and no column named like a derived field,
    and whose data lines have 4300 characters at most, [main] raises
    nothing between parsing and upgrading, at every level and with the
    switch on or off, whatever those data lines hold: the heap has one
    dict per data line and the final list only names those. (A longer
    line can hold a version with a number of more digits than [int]
    takes, which makes [add_semver_details] raise [ValueError].) *)
Theorem well_formed_table_is_classified (allowed blocked : gset string)
    (header_row separator summary : string) (data : list string)
    (level : string) (unk : bool) :
  Forall (λ line, "013"%char ∉ Str.chars line)
    (header_row :: separator :: data ++ [summary]) →
  "Id" ∈ Str.of_chars <$> header_labels header_row →
  "Version" ∈ Str.of_chars <$> header_labels header_row →
  "Available" ∈ Str.of_chars <$> header_labels header_row →
  (∀ k, k ∈ semver_keys → k ∉ Str.of_chars <$> header_labels header_row) →
  Forall (λ line,
            Z.of_nat (length (Str.chars line)) ≤ Semver.int_max_str_digits)
    data →
  ∃ res h',
    pipeline allowed blocked
      (table (header_row :: separator :: data ++ [summary])) level unk
    = inr (res, h')
    ∧ length h' = length data
    ∧ Forall (λ r, (r < length data)%nat) res.
Proof.
  intros Hlines Hid Hv Ha Hnone Hshort.
  set (output := table (header_row :: separator :: data ++ [summary])).
  assert (Str.split_on CRLF output
          = header_row :: separator :: data ++ [summary; ""]) as Hsplit.
  { unfold output. rewrite split_table by done. simpl. by rewrite <-app_assoc. }
  destruct (get_headers_and_their_starting_positions [header_row])
    as [e|cols] eqn:Hcols.
  { unfold get_headers_and_their_starting_positions in Hcols.
    destruct (header_labels header_row); [|done].
    by apply elem_of_nil in Hid. }
  pose proof (extract_of_lines _ _ _ _ _ _ _ Hsplit Hcols) as Hrec.
  destruct (pipeline_returns allowed blocked output level unk _ header_row Hrec)
    as (res & h' & Hp); [by rewrite Hsplit|done..| |].
  { apply forallb_forall. intros d (row & -> & Hrow)%list_elem_of_In%list_elem_of_fmap.
    unfold row_record. apply short_fields_fill_record; [|done].
    rewrite Forall_forall in Hshort. by apply Hshort. }
  exists res, h'. split; [done|].
  unfold pipeline in Hp. rewrite Hrec in Hp. simpl in Hp.
  apply classify_inr in Hp as [[Hlen _] ->].
  rewrite length_fmap in Hlen. split; [done|].
  apply Forall_forall. intros r [_ Hr]%list_elem_of_filter.
  rewrite length_fmap in Hr.
  apply elem_of_app in Hr as [[Hr _]%selection_subseteq|[_ Hr]%list_elem_of_filter];
    apply elem_of_seq in Hr; lia.
Qed.

(** The sample listing, at level [minor] with the switch on. *)
Lemma well_formed_table_is_classified_witness :
  ∃ res h',
    main_pipeline sample_output "minor" true = inr (res, h')
    ∧ length h' = length sample_rows
    ∧ Forall (λ r, (r < length sample_rows)%nat) res.
Proof.
  assert (Str.of_chars <$> header_labels sample_header
          = ["Name"; "Id"; "Version"; "Available"; "Source"]) as Hlabels
    by (vm_compute; reflexivity).
  apply (well_formed_table_is_classified get_allowed_updates
           get_blocked_updates sample_header sample_separator
           "4 upgrades available." sample_rows "minor" true);
    rewrite ?Hlabels.
  - compute_done.
  - rewrite !elem_of_cons. tauto.
  - rewrite !elem_of_cons. tauto.
  - rewrite !elem_of_cons. tauto.
  - apply Forall_forall.
    repeat constructor; rewrite !not_elem_of_cons;
      repeat split; done || apply not_elem_of_nil.
  - repeat constructor; by vm_compute.
Defined.

(** X16. A table without a [Version] column and with a data line at least
    makes [main] stop with [KeyError: 'Version'] at the semantic-version
    filter, at every level, also at level [all]; without a data line the
    same table gives the empty list. *)
Theorem missing_version_column (allowed blocked : gset string)
    (output level : string) (unk : bool) (records : list dict)
    (header_row : string) :
  extract_applications_from_table output = inr records →
  head (Str.split_on CRLF output) = Some header_row →
  "Version" ∉ Str.of_chars <$> header_labels header_row →
  pipeline allowed blocked output level unk
  = if bool_decide (records = []) then inr ([], [])
    else inl (KeyError "Version").
Proof.
  intros Hrec Hhead Hv. unfold pipeline. rewrite Hrec. simpl.
  unfold extract_applications_from_table in Hrec.
  apply rbind_inr in Hrec as (cols & Hcols & [= <-]).
  apply get_headers_labels in Hcols as (header_row' & Hhead' & Hl).
  apply head_drop_last_two in Hhead'.
  assert (header_row' = header_row) as -> by congruence.
  rewrite <-Hl in Hv.
  destruct (drop 2 (drop_last_two (Str.split_on CRLF output)))
    as [|row rows].
  { unfold classify, level_selection, get_apps_to_upgrade,
      add_allowed_updates, remove_blocked_updates, bind. simpl.
    by repeat case_bool_decide; destruct unk. }
  rewrite bool_decide_eq_false_2 by done.
  unfold classify, level_selection, bind. simpl.
  unfold bind, reading. simpl.
  unfold uses_semver, Dict.item, row_record.
  by rewrite fill_record_get_other.
Qed.

(** A listing whose header line has no [Version] column. *)
Lemma missing_version_column_witness :
  main_pipeline
    (table ["Name  Id       Available"; "-----------------------";
            "Foo   Foo.Foo  1.0.1"; "1 upgrades available."]) "all" false
  = if bool_decide ([[("Name", VStr "Foo"); ("Id", VStr "Foo.Foo");
                      ("Available", VStr "1.0.1")]] = [])
    then inr ([], [])
    else inl (KeyError "Version").
Proof.
  apply (missing_version_column get_allowed_updates get_blocked_updates
           _ "all" false _ "Name  Id       Available").
  - vm_compute; reflexivity.
  - vm_compute; reflexivity.
  - assert (Str.of_chars <$> header_labels "Name  Id       Available"
            = ["Name"; "Id"; "Available"]) as -> by (vm_compute; reflexivity).
    rewrite !not_elem_of_cons.
    repeat split; done || apply not_elem_of_nil.
Defined.

(** ** The switches of the environment *)

Lemma lower_char_idempotent c : Str.lower_char (Str.lower_char c) = Str.lower_char c.
Proof. by destruct c as [[] [] [] [] [] [] [] []]. Qed.

Lemma chars_of_chars l : Str.chars (Str.of_chars l) = l.
Proof. apply list_ascii_of_string_of_list_ascii. Qed.

Lemma lower_idempotent s : Str.lower (Str.lower s) = Str.lower s.
Proof.
  unfold Str.lower. rewrite chars_of_chars. f_equal.
  induction (Str.chars s) as [|c l IH]; [done|]. simpl.
  by rewrite lower_char_idempotent, IH.
Qed.

(** X17. The level is read without regard to the case of its letters:
    the pipeline gives the same at a level and at its lower-case form,
    though [get_apps_to_upgrade] itself compares [patch], [minor] and
    [major] as they are written. *)
Theorem level_in_any_case (allowed blocked : gset string)
    (output level : string) (unk : bool) :
  pipeline allowed blocked output (Str.lower level) unk
  = pipeline allowed blocked output level unk.
Proof. unfold pipeline. by rewrite lower_idempotent. Qed.

Lemma lower_char_t c : Str.lower_char c = "t"%char → c = "t"%char ∨ c = "T"%char.
Proof. destruct c as [[] [] [] [] [] [] [] []]; vm_compute; intros [=]; tauto. Qed.

Lemma lower_char_r c : Str.lower_char c = "r"%char → c = "r"%char ∨ c = "R"%char.
Proof. destruct c as [[] [] [] [] [] [] [] []]; vm_compute; intros [=]; tauto. Qed.

Lemma lower_char_u c : Str.lower_char c = "u"%char → c = "u"%char ∨ c = "U"%char.
Proof. destruct c as [[] [] [] [] [] [] [] []]; vm_compute; intros [=]; tauto. Qed.

Lemma lower_char_e c : Str.lower_char c = "e"%char → c = "e"%char ∨ c = "E"%char.
Proof. destruct c as [[] [] [] [] [] [] [] []]; vm_compute; intros [=]; tauto. Qed.

Lemma lower_true v : Str.lower v = "true" ↔ v ∈ spellings_of_true.
Proof.
  split.
  - unfold Str.lower, Str.of_chars, Str.chars.
    destruct v as [|c1 [|c2 [|c3 [|c4 [|c5 v]]]]]; simpl; try done.
    intros [= H1%lower_char_t H2%lower_char_r H3%lower_char_u H4%lower_char_e].
    destruct H1 as [-> | ->], H2 as [-> | ->], H3 as [-> | ->],
      H4 as [-> | ->]; compute_done.
  - intros Hv. unfold spellings_of_true in Hv. simpl in Hv.
    repeat (apply elem_of_cons in Hv as [->|Hv]; [by vm_compute|]).
    by apply elem_of_nil in Hv.
Qed.

(** X18. A switch of the environment is on exactly when its variable is
    set to one of the sixteen spellings of [true], with nothing around it,
    or is not set and the default is [True]: the default does not count
    once the variable is set. *)
Theorem switch_is_on (environ : gmap string string) (key : string)
    (default_ : bool) :
  get_bool_env_var environ key default_ = true ↔
  match environ !! key with
  | Some v => v ∈ spellings_of_true
  | None => default_ = true
  end.
Proof.
  unfold get_bool_env_var. rewrite bool_decide_eq_true.
  destruct (environ !! key) as [v|]; simpl.
  - apply lower_true.
  - by destruct default_.
Qed.

(** ** Locating the executable *)

Lemma is_prefix_app p s : Str.is_prefix p s = true ↔ ∃ t, s = p ++ t.
Proof.
  revert s. induction p as [|a p IH]; intros s; simpl.
  - split; [eauto | done].
  - destruct s as [|b s]; [split; [done | by intros (? & ?)]|].
    rewrite andb_true_iff, bool_decide_eq_true, IH. split.
    + intros [-> [t ->]]. by exists t.
    + intros (t & [= -> ->]). eauto.
Qed.

Lemma chars_inj s t : Str.chars s = Str.chars t → s = t.
Proof.
  intros H. by rewrite <-(of_chars_chars s), H, of_chars_chars.
Qed.

Lemma startswith_app s t :
  startswith s t = true ↔ ∃ u, s = (t ++ u)%string.
Proof.
  unfold startswith. rewrite is_prefix_app. split.
  - intros [u Hu]. exists (Str.of_chars u). apply chars_inj.
    by rewrite chars_append, chars_of_chars.
  - intros [u ->]. exists (Str.chars u). apply chars_append.
Qed.

Lemma endswith_app s t :
  endswith s t = true ↔ ∃ u, s = (u ++ t)%string.
Proof.
  unfold endswith. rewrite is_prefix_app. split.
  - intros [u Hu]. exists (Str.of_chars (reverse u)).
    apply (f_equal reverse) in Hu. rewrite reverse_involutive in Hu.
    rewrite reverse_app, reverse_involutive in Hu. apply chars_inj.
    by rewrite chars_append, chars_of_chars.
  - intros [u ->]. exists (reverse (Str.chars u)).
    by rewrite chars_append, reverse_app.
Qed.

(** A name of an installer directory, in words of texts. *)
Lemma is_installer_dir_true dir_ :
  is_installer_dir dir_ = true ↔
  (∃ t, dir_ = ("Microsoft.DesktopAppInstaller" ++ t)%string)
  ∧ (∃ u, dir_ = (u ++ "x64__8wekyb3d8bbwe")%string).
Proof.
  unfold is_installer_dir.
  by rewrite andb_true_iff, startswith_app, endswith_app.
Qed.

(** The first element a comprehension keeps. *)
Lemma filter_first {A} (P : A → Prop) `{!∀ x, Decision (P x)} l x rest :
  filter P l = x :: rest ↔
  ∃ before after,
    l = before ++ x :: after ∧ Forall (λ y, ¬ P y) before ∧ P x
    ∧ rest = filter P after.
Proof.
  split.
  - induction l as [|y l IH]; [done|].
    destruct (decide (P y)) as [Hy|Hy].
    + rewrite filter_cons_True by done. intros [= -> <-].
      by exists [], l.
    + rewrite filter_cons_False by done.
      intros (before & after & -> & Hb & Hx & ->)%IH.
      exists (y :: before), after. by repeat split; [constructor|..].
  - intros (before & after & -> & Hb & Hx & ->).
    rewrite filter_app, filter_cons_True by done.
    replace (filter P before) with (@nil A); [done|].
    symmetry. induction Hb as [|y before Hy Hb IH]; [done|].
    by rewrite filter_cons_False.
Qed.

Lemma filter_none {A} (P : A → Prop) `{!∀ x, Decision (P x)} l :
  filter P l = [] ↔ Forall (λ y, ¬ P y) l.
Proof.
  induction l as [|y l IH]; [by split; [constructor|]|].
  destruct (decide (P y)) as [Hy|Hy].
  - rewrite filter_cons_True by done. split; [done|].
    by intros [? ?]%Forall_cons.
  - rewrite filter_cons_False, IH by done. split.
    + by constructor.
    + by intros [? ?]%Forall_cons.
Qed.

(** X19. [get_winget_exe_path] returns a path exactly when the directory
    of the packaged applications can be listed and holds a name that
    starts with [Microsoft.DesktopAppInstaller] and ends with
    [x64__8wekyb3d8bbwe]: the path is that of [winget.exe] in the first
    such name of the listing, whatever the names after it. *)
Theorem winget_exe_path_located (listdir : string → failure + list string)
    (path : string) :
  get_winget_exe_path listdir = inr path ↔
  ∃ before dir_ after,
    listdir winapps_dir_path = inr (before ++ dir_ :: after)
    ∧ Forall (λ name,
                ¬ ((∃ t, name = ("Microsoft.DesktopAppInstaller" ++ t)%string)
                   ∧ (∃ u, name = (u ++ "x64__8wekyb3d8bbwe")%string)))
        before
    ∧ (∃ t, dir_ = ("Microsoft.DesktopAppInstaller" ++ t)%string)
    ∧ (∃ u, dir_ = (u ++ "x64__8wekyb3d8bbwe")%string)
    ∧ path = (winapps_dir_path ++ backslash ++ dir_ ++ backslash
              ++ "winget.exe")%string.
Proof.
  unfold get_winget_exe_path.
  destruct (listdir winapps_dir_path) as [e|names].
  { split; [by destruct e as [[]| | | | | |] | by intros (? & ? & ? & ? & _)]. }
  split.
  - intros H.
    destruct (filter (λ dir_, is_installer_dir dir_ = true) names)
      as [|dir_ rest] eqn:Hf; [done|].
    injection H as <-.
    apply filter_first in Hf as (before & after & -> & Hb & Hd & _).
    apply is_installer_dir_true in Hd as [Ht Hu].
    exists before, dir_, after. repeat split; try done.
    eapply Forall_impl; [exact Hb|]. intros name Hn Hn'. apply Hn.
    by apply is_installer_dir_true.
  - intros (before & d & after & [= ->] & Hb & Ht & Hu & ->).
    assert (filter (λ dir_, is_installer_dir dir_ = true)
              (before ++ d :: after)
            = d :: filter (λ dir_, is_installer_dir dir_ = true) after) as ->;
      [|done].
    apply filter_first. exists before, after. repeat split; try done.
    + eapply Forall_impl; [exact Hb|]. intros name Hn Hn'. apply Hn.
      by apply is_installer_dir_true.
    + by apply is_installer_dir_true.
Qed.

(** In the sample directory the second name is the first that fits. *)
Example sample_path_located :
  get_winget_exe_path sample_listdir = inr sample_winget_exe_path.
Proof. vm_compute; reflexivity. Qed.

(** ** The program *)

Lemma no_installer_dir names :
  filter (λ dir_, is_installer_dir dir_ = true) names = [] ↔
  Forall (λ d, is_installer_dir d ≠ true) names.
Proof. apply (filter_none (λ d, is_installer_dir d = true)). Qed.

(** When [get_winget_exe_path] raises. *)
Lemma get_winget_exe_path_inl listdir e :
  get_winget_exe_path listdir = inl e ↔
  (listdir winapps_dir_path = inl e ∧ e ≠ Raised IndexError)
  ∨ (e = FileNotFoundError "Unable to locate winget executable"
     ∧ (listdir winapps_dir_path = inl (Raised IndexError)
        ∨ ∃ names, listdir winapps_dir_path = inr names
                   ∧ Forall (λ d, is_installer_dir d ≠ true) names)).
Proof.
  unfold get_winget_exe_path.
  destruct (listdir winapps_dir_path) as [e0|names].
  - split.
    + destruct e0 as [[]| | | | | |]; intros [= <-];
        try (left; split; [done | discriminate]).
      right. split; [done|]. by left.
    + intros [[[= ->] He]|[-> [[= ->]|(? & [=] & _)]]]; [|done].
      by destruct e as [[]| | | | | |].
  - destruct (filter (λ dir_, is_installer_dir dir_ = true) names)
      as [|d rest] eqn:Hf.
    + split; [|by intros [[[=] _]|[-> _]]].
      intros [= <-]. right. split; [done|]. right.
      exists names. split; [done|]. by apply no_installer_dir.
    + split; [done|].
      intros [[[=] _]|[_ [[=]|(names' & [= <-] & Hn%no_installer_dir)]]].
      by rewrite Hn in Hf.
Qed.

Section ProgramFacts.

Context {W : Type}.

(** Once [winget_exe_path] has a value, the handlers of [main] let
    nothing through. *)
Lemma main_except_returns path e s :
  main_except W (Some path) e s = (inr tt, s).
Proof. by destruct e. Qed.

Lemma main_except_unassigned e s :
  e ≠ PermissionError →
  main_except W None e s = (inl (UnboundLocalError "winget_exe_path"), s).
Proof. by destruct e. Qed.

End ProgramFacts.

(** X20. [main] lets an exception escape in one case only: when the
    executable is not located for another reason than missing permissions,
    that is, when the directory cannot be listed or holds no installer
    directory. The handler that should log the failure reads the local
    [winget_exe_path], which was not assigned: what escapes is an
    [UnboundLocalError], and no process was started. In every other case
    [main] returns. *)
Theorem main_raises_exactly (W : Type) (environ : gmap string string)
    (listdir : string → failure + list string)
    (spawn : call → W → (failure + string) * W)
    (s s' : W * list call) (e : failure) :
  main W environ listdir spawn s = (inl e, s') ↔
  e = UnboundLocalError "winget_exe_path"
  ∧ s' = s
  ∧ ((∃ e0, listdir winapps_dir_path = inl e0 ∧ e0 ≠ PermissionError)
     ∨ ∃ names, listdir winapps_dir_path = inr names
                ∧ Forall (λ d, is_installer_dir d ≠ true) names).
Proof.
  unfold main.
  destruct (get_winget_exe_path listdir) as [e0|path] eqn:Hp.
  - apply get_winget_exe_path_inl in Hp.
    assert (e0 = PermissionError ∨ e0 ≠ PermissionError) as [->|He0]
      by (destruct e0; (by left) || by right).
    + split; [done|]. intros (_ & _ & [(e1 & H1 & Hne)|(n & Hn & _)]);
        destruct Hp as [[Hl _]|[[=] _]]; congruence.
    + rewrite main_except_unassigned by done. split.
      * intros [= <- <-]. split; [done|]. split; [done|].
        destruct Hp as [[Hl _]|[_ [Hl|Hl]]].
        -- left. eauto.
        -- left. exists (Raised IndexError). by split.
        -- by right.
      * by intros (-> & -> & _).
  - split.
    + destruct (main_after_path W environ spawn path s) as [[e1|[]] s1];
        [by rewrite main_except_returns | done].
    + intros (_ & _ & H).
      assert (get_winget_exe_path listdir ≠ inr path) as Hne; [|done].
      destruct H as [(e0 & He0 & _)|(names & Hn & Hnone)].
      * unfold get_winget_exe_path. rewrite He0.
        by destruct e0 as [[]| | | | | |].
      * unfold get_winget_exe_path. rewrite Hn.
        apply no_installer_dir in Hnone. by rewrite Hnone.
Qed.

(** A directory without an installer: the exception escapes. *)
Example sample_escape :
  main unit ∅ (λ _, inr ["Microsoft.WindowsStore_22310_x64__8wekyb3d8bbwe"])
    sample_spawn (tt, [])
  = (inl (UnboundLocalError "winget_exe_path"), (tt, [])).
Proof. vm_compute; reflexivity. Qed.

(** The records of a final list hold what [upgrade_app] reads. *)
Lemma classify_ready allowed blocked apps level unk h res h' r :
  classify allowed blocked apps level unk h = inr (res, h') →
  parsed_shape h = true →
  r ∈ res →
  ∃ d id sv sa,
    h' !! r = Some d
    ∧ Dict.get "Id" d = Some (VStr id)
    ∧ Dict.get "Version" d = Some sv
    ∧ Dict.get "Available" d = Some sa.
Proof.
  intros Hc Hshape Hr. pose proof Hc as [Hann ->]%classify_inr.
  apply list_elem_of_filter in Hr as [Ht Hr].
  assert (r ∈ apps) as Hin.
  { apply elem_of_app in Hr as [[? _]%selection_subseteq|[_ ?]%list_elem_of_filter];
      done. }
  apply test_true in Ht as (d' & Hd' & (v & Hv & _)%id_not_in_true).
  unfold classify in Hc.
  apply bind_inr in Hc as (sel & h1 & Hsel & _).
  unfold level_selection in Hsel.
  apply bind_inr in Hsel as (sem & h0 & Hsem & _).
  destruct (get_applications_using_semver_fields _ _ _ _ _ Hsem Hin)
    as (d & sv & sa & Hd & Hsv & Hsa).
  pose proof (parsed_shape_lookup _ _ _ Hshape Hd) as Hstr.
  rewrite (classified_field _ _ _ _ _ _ "Id" Hann Hd Hd') in Hv
    by by compute_done.
  destruct (all_str_get_Some d "Id" Hstr) as [id Hid]; [by eexists|].
  exists d', id, (VStr sv), (VStr sa). split; [done|].
  rewrite !(classified_field _ _ _ _ _ _ _ Hann Hd Hd') by by compute_done.
  done.
Qed.

Section RunFacts.

Context {W : Type}.
Variable spawn : call → W → (failure + string) * W.

(** The listing starts its two calls at most, in order. *)
Lemma get_applications_calls path w log :
  ∃ r w' calls,
    get_applications_available_to_upgrade W spawn path (w, log)
    = (r, (w', log ++ calls))
    ∧ calls `prefix_of` [list_call path; upgrade_listing_call path].
Proof.
  unfold get_applications_available_to_upgrade, try_except, io_bind,
    subprocess. simpl.
  destruct (spawn (list_call path) w) as [[e|t] w1]; simpl.
  { exists (if logged e then inr None else inl e), w1, [list_call path].
    split; [by destruct (logged e)|]. by exists [upgrade_listing_call path]. }
  destruct (spawn (upgrade_listing_call path) w1) as [[e|out] w2]; simpl.
  - exists (if logged e then inr None else inl e), w2,
      [list_call path; upgrade_listing_call path].
    rewrite <-app_assoc. split; [by destruct (logged e)|done].
  - exists (inr (Some out)), w2, [list_call path; upgrade_listing_call path].
    by rewrite <-app_assoc.
Qed.

(** One upgrade that passes starts one call. *)
Lemma upgrade_app_passes d id sv sa path w log :
  Dict.get "Id" d = Some (VStr id) →
  Dict.get "Version" d = Some sv →
  Dict.get "Available" d = Some sa →
  passes (spawn (upgrade_call path id) w).1 = true →
  upgrade_app W spawn d path (w, log)
  = (inr tt, ((spawn (upgrade_call path id) w).2,
              log ++ [upgrade_call path id])).
Proof.
  intros Hid Hv Ha Hp.
  unfold upgrade_app, io_bind, lift, Dict.item. rewrite Hid, Hv, Ha. simpl.
  unfold try_except, io_bind, subprocess. simpl.
  destruct (spawn (upgrade_call path id) w) as [[e|t] w1]; simpl in *; [|done].
  by rewrite Hp.
Qed.

Lemma upgrade_apps_pass h path apps w log :
  Forall (λ r, ∃ d id sv sa,
                h !! r = Some d
                ∧ Dict.get "Id" d = Some (VStr id)
                ∧ Dict.get "Version" d = Some sv
                ∧ Dict.get "Available" d = Some sa) apps →
  (∀ id w0, passes (spawn (upgrade_call path id) w0).1 = true) →
  ∃ ids w',
    identifiers h apps ids
    ∧ upgrade_apps W spawn h apps path (w, log)
      = (inr tt, (w', log ++ (upgrade_call path <$> ids))).
Proof.
  intros Happs Hpass. revert w log.
  induction Happs as [|r apps (d & id & sv & sa & Hd & Hid & Hv & Ha) _ IH];
    intros w log.
  - exists [], w. split; [constructor|]. by rewrite app_nil_r.
  - cbn [upgrade_apps]. unfold io_bind. rewrite Hd.
    rewrite (upgrade_app_passes d id sv sa) by done.
    destruct (IH (spawn (upgrade_call path id) w).2
                (log ++ [upgrade_call path id])) as (ids & w' & Hids & ->).
    exists (id :: ids), w'. split.
    + constructor; [by exists d | done].
    + by rewrite <-app_assoc.
Qed.

End RunFacts.

(** X21. With [WINGET_DEBUG] on, [main] upgrades nothing: whatever the
    listing says and however the run ends, the only processes it starts
    are the two calls that list the upgrades. *)
Theorem debug_starts_no_upgrade (W : Type) (environ : gmap string string)
    (listdir : string → failure + list string)
    (spawn : call → W → (failure + string) * W)
    (w w' : W) (log log' : list call) (r : failure + unit) :
  get_bool_env_var environ "WINGET_DEBUG" false = true →
  main W environ listdir spawn (w, log) = (r, (w', log')) →
  ∃ path calls,
    log' = log ++ calls
    ∧ calls `prefix_of` [list_call path; upgrade_listing_call path].
Proof.
  intros Hdebug. unfold main.
  destruct (get_winget_exe_path listdir) as [e|path].
  { intros Hm. exists "", []. rewrite app_nil_r. split; [|by eexists].
    destruct e as [[]| | | | | |]; by injection Hm as _ _ ->. }
  unfold main_after_path, io_bind. rewrite Hdebug.
  destruct (get_applications_calls spawn path w log)
    as (r0 & w0 & calls & -> & Hcalls).
  intros Hm. exists path, calls. split; [|done].
  destruct r0 as [e|table].
  { rewrite main_except_returns in Hm. by injection Hm as _ _ <-. }
  unfold lift in Hm.
  destruct (match table with
            | Some output => _
            | None => _
            end) as [e|classified].
  - unfold io_raise in Hm. rewrite main_except_returns in Hm.
    by injection Hm as _ _ <-.
  - unfold io_ret in Hm. by injection Hm as _ _ <-.
Qed.

(** A run of the sample world with [WINGET_DEBUG] set to [True]. *)
Lemma debug_starts_no_upgrade_witness :
  ∃ path calls,
    [list_call sample_winget_exe_path;
     upgrade_listing_call sample_winget_exe_path] = [] ++ calls
    ∧ calls `prefix_of` [list_call path; upgrade_listing_call path].
Proof.
  apply (debug_starts_no_upgrade unit {[ "WINGET_DEBUG" := "True" ]}
           sample_listdir sample_spawn tt tt [] _ (inr tt)).
  - vm_compute; reflexivity.
  - vm_compute; reflexivity.
Defined.

(** X22. With [WINGET_DEBUG] off, when the executable is located, the two
    listing calls answer and the pipeline returns on the text of the
    second, [main] starts one upgrade per entry of the final list, in the
    order of the list and as often as a record is in it, each for the
    [Id] of its record, provided no upgrade raises anything but the three
    logged exceptions: an upgrade that cannot find the executable, returns
    a failure code or runs out of time does not stop the ones after it. *)
Theorem upgrades_follow_the_final_list (W : Type)
    (environ : gmap string string)
    (listdir : string → failure + list string)
    (spawn : call → W → (failure + string) * W)
    (w w1 w2 : W) (log : list call) (path t output : string)
    (res : list ref) (h' : heap) :
  get_bool_env_var environ "WINGET_DEBUG" false = false →
  get_winget_exe_path listdir = inr path →
  spawn (list_call path) w = (inr t, w1) →
  spawn (upgrade_listing_call path) w1 = (inr output, w2) →
  main_pipeline output (default "patch" (environ !! "WINGET_UPGRADE_LEVEL"))
    (get_bool_env_var environ "WINGET_UPGRADE_UNKNOWN_VERSIONS" false)
  = inr (res, h') →
  (∀ id w0, passes (spawn (upgrade_call path id) w0).1 = true) →
  ∃ ids w',
    identifiers h' res ids
    ∧ main W environ listdir spawn (w, log)
      = (inr tt,
         (w', log ++ [list_call path; upgrade_listing_call path]
                  ++ (upgrade_call path <$> ids))).
Proof.
  intros Hdebug Hpath Hlist Hup Hp Hpass.
  assert (Forall (λ r, ∃ d id sv sa,
                    h' !! r = Some d
                    ∧ Dict.get "Id" d = Some (VStr id)
                    ∧ Dict.get "Version" d = Some sv
                    ∧ Dict.get "Available" d = Some sa) res) as Hready.
  { apply Forall_forall. intros r Hr.
    unfold main_pipeline, pipeline in Hp.
    apply rbind_inr in Hp as (records & Hrec & Hc).
    eapply classify_ready; [exact Hc| |done].
    by eapply extract_parsed_shape. }
  destruct (upgrade_apps_pass spawn h' path res w2
              (log ++ [list_call path; upgrade_listing_call path])
              Hready Hpass) as (ids & w' & Hids & Hrun).
  exists ids, w'. split; [done|].
  unfold main. rewrite Hpath.
  unfold main_after_path, io_bind, get_applications_available_to_upgrade,
    try_except, io_bind, subprocess. simpl.
  rewrite Hlist. simpl. rewrite Hup. simpl. rewrite Hp, Hdebug. simpl.
  rewrite <-app_assoc. simpl.
  by rewrite Hrun, <-app_assoc.
Qed.

(** The sample world with an empty environment: level [patch], both
    switches off, and every upgrade runs out of time. *)
Lemma upgrades_follow_the_final_list_witness :
  ∃ res h',
    main_pipeline sample_output "patch" false = inr (res, h')
    ∧ ∃ ids w',
        identifiers h' res ids
        ∧ main unit ∅ sample_listdir sample_spawn (tt, [])
          = (inr tt,
             (w', [] ++ [list_call sample_winget_exe_path;
                         upgrade_listing_call sample_winget_exe_path]
                     ++ (upgrade_call sample_winget_exe_path <$> ids))).
Proof.
  eexists _, _. split; [vm_compute; reflexivity|].
  eapply (upgrades_follow_the_final_list unit ∅ sample_listdir sample_spawn
            tt tt tt [] sample_winget_exe_path sample_output sample_output).
  - vm_compute; reflexivity.
  - vm_compute; reflexivity.
  - vm_compute; reflexivity.
  - vm_compute; reflexivity.
  - vm_compute; reflexivity.
  - intros id w0. reflexivity.
Defined.

(** In that run the two upgrades are those of [Foo.Foo] and of
    [Python.Python.3], and the time-out of the first does not stop the
    second. *)
Example sample_run :
  main unit ∅ sample_listdir sample_spawn (tt, [])
  = (inr tt,
     (tt, [list_call sample_winget_exe_path;
           upgrade_listing_call sample_winget_exe_path;
           upgrade_call sample_winget_exe_path "Foo.Foo";
           upgrade_call sample_winget_exe_path "Python.Python.3"])).
Proof. vm_compute; reflexivity. Qed.

Section SafetyFacts.

Context {W : Type}.
Variable spawn : call → W → (failure + string) * W.

(** Whatever happens, one upgrade starts one call at most, for the [Id]
    of its record. *)
Lemma upgrade_app_calls d path s r s' :
  upgrade_app W spawn d path s = (r, s') →
  s'.2 = s.2
  ∨ ∃ id, Dict.get "Id" d = Some (VStr id)
          ∧ s'.2 = s.2 ++ [upgrade_call path id].
Proof.
  unfold upgrade_app, io_bind, lift, Dict.item.
  destruct (Dict.get "Id" d) as [v|]; simpl;
    [|intros [= _ <-]; by left].
  destruct (Dict.get "Version" d) as [sv|]; simpl;
    [|intros [= _ <-]; by left].
  destruct (Dict.get "Available" d) as [sa|]; simpl;
    [|intros [= _ <-]; by left].
  unfold try_except.
  destruct v as [id|n]; simpl; [|intros [= _ <-]; by left].
  unfold io_bind, subprocess.
  destruct (spawn (upgrade_call path id) s.1) as [[e|t] w1]; simpl.
  - destruct (logged e); intros [= _ <-]; right; by exists id.
  - intros [= _ <-]. right. by exists id.
Qed.

Lemma upgrade_apps_calls h path apps s r s' :
  upgrade_apps W spawn h apps path s = (r, s') →
  ∃ calls,
    s'.2 = s.2 ++ calls
    ∧ ∀ c, c ∈ calls →
        ∃ a d id, a ∈ apps ∧ h !! a = Some d
                  ∧ Dict.get "Id" d = Some (VStr id)
                  ∧ c = upgrade_call path id.
Proof.
  revert s. induction apps as [|a apps IH]; intros s; cbn [upgrade_apps].
  { intros [= _ <-]. exists []. rewrite app_nil_r. split; [done|].
    by intros c ?%elem_of_nil. }
  unfold io_bind.
  destruct (h !! a) as [d|] eqn:Hd.
  - destruct (upgrade_app W spawn d path s) as [[e|[]] s1] eqn:Hu.
    + intros [= _ <-].
      apply upgrade_app_calls in Hu as [->|(id & Hid & ->)].
      * exists []. rewrite app_nil_r. split; [done|].
        by intros c ?%elem_of_nil.
      * exists [upgrade_call path id]. split; [done|].
        intros c ->%list_elem_of_singleton. exists a, d, id.
        by repeat split; [apply list_elem_of_here|..].
    + intros (calls & -> & Hcalls)%IH.
      assert (∀ c, c ∈ calls →
                ∃ a0 d0 id, a0 ∈ a :: apps ∧ h !! a0 = Some d0
                            ∧ Dict.get "Id" d0 = Some (VStr id)
                            ∧ c = upgrade_call path id) as Hcalls'.
      { intros c (a0 & d0 & id & Ha0 & ?)%Hcalls. exists a0, d0, id.
        split; [by apply list_elem_of_further | done]. }
      apply upgrade_app_calls in Hu as [->|(id & Hid & ->)].
      * by exists calls.
      * exists (upgrade_call path id :: calls).
        split; [by rewrite <-app_assoc|].
        intros c [->|Hc]%elem_of_cons; [|by apply Hcalls'].
        exists a, d, id. by repeat split; [apply list_elem_of_here|..].
  - intros [= _ <-]. exists []. rewrite app_nil_r. split; [done|].
    by intros c ?%elem_of_nil.
Qed.

End SafetyFacts.

(** X23. No run of [main] starts an upgrade of an application of the
    block-list, whatever the environment, the directory, the listing and
    the other processes do. *)
Theorem blocked_is_never_upgraded (W : Type) (environ : gmap string string)
    (listdir : string → failure + list string)
    (spawn : call → W → (failure + string) * W)
    (w w' : W) (calls : list call) (r : failure + unit)
    (path id : string) :
  main W environ listdir spawn (w, []) = (r, (w', calls)) →
  id ∈ get_blocked_updates →
  upgrade_call path id ∉ calls.
Proof.
  intros Hm Hid Hc. unfold main in Hm.
  destruct (get_winget_exe_path listdir) as [e|path0].
  { assert (calls = []) as ->
      by (destruct e as [[]| | | | | |]; by injection Hm as _ _ <-).
    by apply elem_of_nil in Hc. }
  unfold main_after_path, io_bind in Hm.
  destruct (get_applications_calls spawn path0 w [])
    as (r0 & w0 & listing & Hl & Hlisting).
  rewrite Hl in Hm. simpl in Hm.
  assert (upgrade_call path id ∉ listing) as Hnl.
  { intros Hin. destruct Hlisting as [k Hk].
    assert (upgrade_call path id ∈ [list_call path0;
                                    upgrade_listing_call path0]) as Hin'
      by (rewrite Hk; apply elem_of_app; by left).
    rewrite !elem_of_cons, elem_of_nil in Hin'.
    by destruct Hin' as [|[|]]. }
  destruct r0 as [e|table].
  { rewrite main_except_returns in Hm. by injection Hm as _ _ <-. }
  unfold lift in Hm.
  destruct (match table with
            | Some output => _
            | None => _
            end) as [e|[res h']] eqn:Hp.
  { unfold io_raise in Hm. rewrite main_except_returns in Hm.
    by injection Hm as _ _ <-. }
  unfold io_ret in Hm.
  destruct (get_bool_env_var environ "WINGET_DEBUG" false).
  { unfold io_ret in Hm. by injection Hm as _ _ <-. }
  simpl in Hm.
  destruct (upgrade_apps W spawn h' res path0 (w0, listing))
    as [r1 [w1 calls1]] eqn:Hu.
  apply upgrade_apps_calls in Hu as (ups & Hcalls1 & Hups). simpl in Hcalls1.
  assert (calls = listing ++ ups) as ->.
  { destruct r1 as [e|[]].
    - rewrite main_except_returns in Hm. injection Hm as _ _ <-. done.
    - injection Hm as _ _ <-. done. }
  apply elem_of_app in Hc as [Hc|Hc]; [done|].
  apply Hups in Hc as (a & d & id' & Ha & Hd & Hid' & [= _ <-]).
  destruct table as [output|]; [|done].
  unfold main_pipeline, pipeline in Hp.
  apply rbind_inr in Hp as (records & _ & [_ ->]%classify_inr).
  apply list_elem_of_filter in Ha as [Ht _].
  apply test_true in Ht as (d' & Hd' & (v & Hv & Hns)%id_not_in_true).
  apply (Hns id); [congruence | done].
Qed.

(** The sample run: [EvanCzaplicki.Elm] has a patch upgrade and is on the
    block-list. *)
Lemma blocked_is_never_upgraded_witness :
  upgrade_call sample_winget_exe_path "EvanCzaplicki.Elm"
  ∉ [list_call sample_winget_exe_path;
     upgrade_listing_call sample_winget_exe_path;
     upgrade_call sample_winget_exe_path "Foo.Foo";
     upgrade_call sample_winget_exe_path "Python.Python.3"].
Proof.
  apply (blocked_is_never_upgraded unit ∅ sample_listdir sample_spawn tt tt
           _ (inr tt)).
  - vm_compute; reflexivity.
  - vm_compute; reflexivity.
Defined.

(** X24. An exception of the parser or of the classifier never leaves
    [main]: when the text of the listing makes the pipeline raise, as a
    malformed table does, [main] returns after the two listing calls and
    starts no upgrade. *)
Theorem pipeline_error_stops_quietly (W : Type)
    (environ : gmap string string)
    (listdir : string → failure + list string)
    (spawn : call → W → (failure + string) * W)
    (w w1 w2 : W) (log : list call) (path t output : string) (e : exn) :
  get_winget_exe_path listdir = inr path →
  spawn (list_call path) w = (inr t, w1) →
  spawn (upgrade_listing_call path) w1 = (inr output, w2) →
  main_pipeline output (default "patch" (environ !! "WINGET_UPGRADE_LEVEL"))
    (get_bool_env_var environ "WINGET_UPGRADE_UNKNOWN_VERSIONS" false)
  = inl e →
  main W environ listdir spawn (w, log)
  = (inr tt, (w2, log ++ [list_call path; upgrade_listing_call path])).
Proof.
  intros Hpath Hlist Hup Hp.
  unfold main. rewrite Hpath.
  unfold main_after_path, io_bind, get_applications_available_to_upgrade,
    try_except, io_bind, subprocess. simpl.
  rewrite Hlist. simpl. rewrite Hup. simpl. rewrite Hp. simpl.
  by rewrite <-app_assoc.
Qed.

(** A listing command that answers one line only. *)
Lemma pipeline_error_stops_quietly_witness :
  main unit ∅ sample_listdir
    (λ c w, (inr "No installed package found.", w)) (tt, [])
  = (inr tt,
     (tt, [] ++ [list_call sample_winget_exe_path;
                 upgrade_listing_call sample_winget_exe_path])).
Proof.
  apply (pipeline_error_stops_quietly unit ∅ sample_listdir
           (λ c w, (inr "No installed package found.", w)) tt tt tt []
           sample_winget_exe_path "No installed package found."
           "No installed package found." IndexError).
  - vm_compute; reflexivity.
  - reflexivity.
  - reflexivity.
  - vm_compute; reflexivity.
Defined.

(** X25. A listing that fails upgrades nothing and is no error of [main]:
    when [get_applications_available_to_upgrade] gives no text, [main]
    returns right after it, with no call but those of the listing. For
    the three logged exceptions the text is [None], whose [split] raises
    an [AttributeError] that the last handler of [main] takes; any other
    exception goes to the handlers directly. *)
Theorem failed_listing_upgrades_nothing (W : Type)
    (environ : gmap string string)
    (listdir : string → failure + list string)
    (spawn : call → W → (failure + string) * W)
    (s s' : W * list call) (path : string) (r : failure + option string) :
  get_winget_exe_path listdir = inr path →
  get_applications_available_to_upgrade W spawn path s = (r, s') →
  (∀ text, r ≠ inr (Some text)) →
  main W environ listdir spawn s = (inr tt, s').
Proof.
  intros Hpath Hlisting Hr. unfold main. rewrite Hpath.
  unfold main_after_path, io_bind. rewrite Hlisting.
  destruct r as [e|[text|]].
  - apply main_except_returns.
  - by destruct (Hr text).
  - unfold lift, raise, io_raise. apply main_except_returns.
Qed.

(** A world in which every process runs out of time. *)
Lemma failed_listing_upgrades_nothing_witness :
  main unit ∅ sample_listdir (λ c w, (inl TimeoutExpired, w)) (tt, [])
  = (inr tt, (tt, [list_call sample_winget_exe_path])).
Proof.
  apply (failed_listing_upgrades_nothing unit ∅ sample_listdir
           (λ c w, (inl TimeoutExpired, w)) (tt, [])
           (tt, [list_call sample_winget_exe_path]) sample_winget_exe_path
           (inr None)).
  - vm_compute; reflexivity.
  - vm_compute; reflexivity.
  - intros text. discriminate.
Defined.

(** X26. An upgrade that raises anything but the three logged exceptions
    ends the run: when the first upgrade of the final list raises, say, a
    [PermissionError], [main] returns after that call and starts none of
    the upgrades after it. *)
Theorem unlogged_failure_ends_the_run (W : Type)
    (environ : gmap string string)
    (listdir : string → failure + list string)
    (spawn : call → W → (failure + string) * W)
    (w w1 w2 w3 : W) (log : list call) (path t output id : string)
    (r : ref) (rest : list ref) (h' : heap) (d : dict) (e : failure) :
  get_bool_env_var environ "WINGET_DEBUG" false = false →
  get_winget_exe_path listdir = inr path →
  spawn (list_call path) w = (inr t, w1) →
  spawn (upgrade_listing_call path) w1 = (inr output, w2) →
  main_pipeline output (default "patch" (environ !! "WINGET_UPGRADE_LEVEL"))
    (get_bool_env_var environ "WINGET_UPGRADE_UNKNOWN_VERSIONS" false)
  = inr (r :: rest, h') →
  h' !! r = Some d →
  Dict.get "Id" d = Some (VStr id) →
  spawn (upgrade_call path id) w2 = (inl e, w3) →
  logged e = false →
  main W environ listdir spawn (w, log)
  = (inr tt,
     (w3, log ++ [list_call path; upgrade_listing_call path;
                  upgrade_call path id])).
Proof.
  intros Hdebug Hpath Hlist Hup Hp Hd Hid Hrun He.
  assert (∃ sv sa, Dict.get "Version" d = Some sv
                   ∧ Dict.get "Available" d = Some sa) as (sv & sa & Hv & Ha).
  { pose proof Hp as Hp'. unfold main_pipeline, pipeline in Hp'.
    apply rbind_inr in Hp' as (records & Hrec & Hc).
    destruct (classify_ready _ _ _ _ _ _ _ _ r Hc)
      as (d0 & id0 & sv & sa & Hd0 & _ & Hv & Ha).
    - by eapply extract_parsed_shape.
    - apply list_elem_of_here.
    - assert (d0 = d) as -> by congruence. eauto. }
  unfold main. rewrite Hpath.
  unfold main_after_path, io_bind, get_applications_available_to_upgrade,
    try_except, io_bind, subprocess. simpl.
  rewrite Hlist. simpl. rewrite Hup. simpl. rewrite Hp, Hdebug. simpl.
  unfold io_bind. rewrite Hd.
  unfold upgrade_app, io_bind, lift, Dict.item. rewrite Hid, Hv, Ha. simpl.
  unfold try_except, io_bind, subprocess. simpl. rewrite Hrun. simpl.
  rewrite He, main_except_returns. by rewrite <-!app_assoc.
Qed.

(** The sample world, with upgrades that are refused. *)
Lemma unlogged_failure_ends_the_run_witness :
  main unit ∅ sample_listdir
    (λ c w, (if bool_decide (timeout c = Some 250) then inl PermissionError
             else inr sample_output, w)) (tt, [])
  = (inr tt,
     (tt, [] ++ [list_call sample_winget_exe_path;
                 upgrade_listing_call sample_winget_exe_path;
                 upgrade_call sample_winget_exe_path "Foo.Foo"])).
Proof.
  eapply (unlogged_failure_ends_the_run unit ∅ sample_listdir
            (λ c w, (if bool_decide (timeout c = Some 250)
                     then inl PermissionError else inr sample_output, w))
            tt tt tt tt [] sample_winget_exe_path sample_output sample_output
            "Foo.Foo" 0%nat [2%nat] _ _ PermissionError).
  - vm_compute; reflexivity.
  - vm_compute; reflexivity.
  - vm_compute; reflexivity.
  - vm_compute; reflexivity.
  - vm_compute; reflexivity.
  - vm_compute; reflexivity.
  - vm_compute; reflexivity.
  - vm_compute; reflexivity.
  - reflexivity.
Defined.
